(** * Alt-text generator: index builder and enrichment pipeline

    A shallow embedding of [src/index.js]: the paginated index builder
    ([fetchContentImages], [fetchCollectionImages], [fetchProductImages],
    [fetchShopifyFiles]), the two retrying remote calls ([safeShopifyQuery],
    [generateAltText]) and the batch/chunk enrichment loop ([processCsv],
    [processBatch]).

    Modelling conventions.
    - A JavaScript string is a [string]; its characters stand for UTF-16 code
      units below 256.
    - The global object [shopifyFiles] and the parsed cache file are plain
      objects whose own properties hold strings; the own properties are a
      [gmap string string].  Reading [o[k]] gives the own property, or else
      the member that a plain object inherits from [Object.prototype] under
      that name ([Js.getProp]); the assignment [o[k] = s] creates or updates
      an own property, except for ["__proto__"], which reaches the accessor
      of [Object.prototype] and stores nothing unless the object has an own
      property of that name ([Js.setProp]).
    - A CSV row as the reader delivers it is an object of strings, [Row].
      While it is processed its field ["Updated Link"] receives what was
      read from [shopifyFiles], which need not be a string: row objects are
      maps from property names to values, [RowObject].
    - The two remote APIs are scripted: the world holds, for each API, the
      list of replies the server will give to the next HTTP requests, in
      order.  A request made when the script is used up has no reply; the
      run is then [Blocked].
    - Everything the claims observe (requests, sleeps, warnings, cache
      writes, writes to the CSV sink) is appended to a trace.
    - Writing the cache file and writing to the CSV sink do not fail, and
      the cache file holds either an object of strings or text that does
      not parse. *)

From Stdlib Require Import ZArith Floats Ascii.
From stdpp Require Import gmap strings list fin_maps.

#[local] Set Warnings "-clear-no-such-hyp".

(** A value as the program meets it: a string, or a member inherited from
    [Object.prototype], named by its key (a built-in function, or for
    ["__proto__"] the prototype object itself). *)
Inductive value :=
| Str (s : string)
| Inherited (name : string).

(** A string is used as a value wherever one is expected. *)
Coercion Str : string >-> value.

(** The own properties of [shopifyFiles] or of the parsed cache file. *)
Abbreviation Store := (gmap string string).
(** A CSV row as the reader delivers it. *)
Abbreviation Row := (gmap string string).
(** A row object while it is processed and when it is written. *)
Abbreviation RowObject := (gmap string value).

(** ** JavaScript string primitives used by the program *)

Module Js.

(** [!s] is true exactly for the empty string. *)
Definition truthy (s : string) : bool :=
  match s with
  | EmptyString => false
  | String _ _ => true
  end.

(** Truthiness of a value that is a string or [undefined]/[null]. *)
Definition truthyO (o : option string) : bool :=
  match o with
  | Some s => truthy s
  | None => false
  end.

(** Truthiness of a value: functions and objects are truthy. *)
Definition truthyV (v : value) : bool :=
  match v with
  | Str s => truthy s
  | Inherited _ => true
  end.

Definition truthyVO (o : option value) : bool :=
  match o with
  | Some v => truthyV v
  | None => false
  end.

(** The property names of [Object.prototype]. *)
Definition objectPrototype : list string :=
  ["constructor"; "__defineGetter__"; "__defineSetter__"; "hasOwnProperty";
   "__lookupGetter__"; "__lookupSetter__"; "isPrototypeOf";
   "propertyIsEnumerable"; "toString"; "valueOf"; "__proto__";
   "toLocaleString"].

(** [o[k]] for a plain object with the own properties [o]: the own
    property, else the inherited member, else [undefined]. *)
Definition getProp (o : gmap string string) (k : string) : option value :=
  match o !! k with
  | Some s => Some (Str s)
  | None =>
      if bool_decide (k ∈ objectPrototype) then Some (Inherited k) else None
  end.

(** [o[k] = s] for a string [s].  Every member of [Object.prototype] is a
    writable data property, which the assignment shadows by an own
    property, except ["__proto__"]: it is an accessor, whose setter ignores
    a string.  An own property ["__proto__"] (the cache file may hold one)
    is updated like any other. *)
Definition setProp (k s : string) (o : gmap string string)
    : gmap string string :=
  if bool_decide (k = "__proto__") && bool_decide (o !! k = None)
  then o
  else <[k := s]> o.

(** [a || d] where [a] is a string or [undefined]. *)
Definition orElse (o : option string) (d : string) : string :=
  match o with
  | Some s => if truthy s then s else d
  | None => d
  end.

(** White space and line terminators among the code units below 256:
    TAB, LF, VT, FF, CR, SP and NBSP. *)
Definition isWhiteSpace (c : Ascii.ascii) : bool :=
  let n := Ascii.N_of_ascii c in
  ((9 <=? n)%N && (n <=? 13)%N) || (n =? 32)%N || (n =? 160)%N.

Fixpoint trimStart (s : string) : string :=
  match s with
  | EmptyString => EmptyString
  | String c s' => if isWhiteSpace c then trimStart s' else s
  end.

Definition trimEnd (s : string) : string :=
  String.rev (trimStart (String.rev s)).

(** [s.trim()] *)
Definition trim (s : string) : string := trimEnd (trimStart s).

(** [s.split(sep)] for a one-character separator: never empty. *)
Fixpoint split_go (sep : Ascii.ascii) (cur : string) (s : string) : list string :=
  match s with
  | EmptyString => [String.rev cur]
  | String c s' =>
      if Ascii.eqb c sep then String.rev cur :: split_go sep EmptyString s'
      else split_go sep (String c cur) s'
  end.

Definition split (sep : Ascii.ascii) (s : string) : list string :=
  split_go sep EmptyString s.

(** [s.endsWith(suffix)] *)
Definition endsWith (suffix s : string) : bool :=
  String.prefix (String.rev suffix) (String.rev s).

(** [s] without its last [n] characters. *)
Definition dropEnd (n : nat) (s : string) : string :=
  String.substring 0 (String.length s - n) s.

End Js.

(** ** Configuration constants (lines 16-22) *)

Definition batchSize : nat := 500.
Definition openAiChunkSize : nat := 30.
Definition openAiChunkDelay : Z := 20000.
Definition openAiRateLimit : float := 30000%float.

(** [Math.ceil] on a double; [None] for infinities and NaN. *)
Definition Math_ceil (f : float) : option Z :=
  match Prim2SF f with
  | S754_zero _ => Some 0%Z
  | S754_finite s m e =>
      let v := if s then Z.neg m else Z.pos m in
      Some (if (0 <=? e)%Z then v * 2 ^ e else - ((- v) / 2 ^ (- e)))%Z
  | S754_infinity _ | S754_nan => None
  end.

(** [Math.ceil((60 / (openAiRateLimit / 880)) * 1000)], in double
    arithmetic as the program computes it. *)
Definition openAiRequestDelay : Z :=
  default 0%Z (Math_ceil ((60 / (openAiRateLimit / 880)) * 1000)%float).

(** ** Data exchanged with the outside world *)

(** The three paginated collections of the source API. *)
Inductive category := Files | Collections | Products.

(** One edge [{cursor, node}] of a connection. *)
Record edge (N : Type) := mkEdge { cursor : string; node : N }.
Arguments mkEdge {N} _ _.
Arguments cursor {N} _.
Arguments node {N} _.

(** A connection: [edges] ([undefined] read as [[]]) and
    [pageInfo.hasNextPage] ([undefined] read as [false]). *)
Record connection (N : Type) := mkConnection {
  edges : list (edge N);
  hasNextPage : bool
}.
Arguments mkConnection {N} _ _.
Arguments edges {N} _.
Arguments hasNextPage {N} _.

(** [node.image?.url] of a file or collection node. *)
Abbreviation image_node := (option string).
(** The [url]s of [node.images.edges] of a product node. *)
Abbreviation product_node := (list (option string)).

(** [response.data.data] of a source API reply. *)
Record gql_data := mkData {
  files : option (connection image_node);
  collections : option (connection image_node);
  products : option (connection product_node)
}.

(** A reply of the source API: a response, or an error carrying
    [error.response?.status]. *)
Inductive shopify_reply :=
| ShopifyOk (d : gql_data)
| ShopifyFail (status : option Z).

(** [choices[k]] of a completion response. *)
Record message := mkMessage { content : option string }.
Record choice := mkChoice { choice_message : option message }.

(** [response.data] of the generation API; [choices] is [None] when the
    body has no such array. *)
Record completion := mkCompletion { choices : option (list (option choice)) }.

(** A reply of the generation API: a response, or an error carrying
    [error.response?.data?.error?.code]. *)
Inductive openai_reply :=
| OpenAiOk (body : completion)
| OpenAiFail (code : option string).

(** The cache file [shopify_files_cache.json]: text that parses to an
    object of strings, or text that [JSON.parse] rejects. *)
Inductive file_contents :=
| JsonObject (m : Store)
| Malformed.

Inductive warning :=
| MissingUrl (c : category)
| NoFileName (rowNo : nat)
| NoMatch (rowNo : nat) (fileName : string).

Inductive event :=
| EvShopifyPost (c : category) (after : option string)
| EvOpenAiPost (imageUrl : value)
| EvSleep (ms : Z)
| EvWarn (w : warning)
| EvChunk (n : nat)
| EvWriteCache (m : Store)
| EvWriteRecords (rows : list RowObject).

Inductive exn :=
| SyntaxError
| TypeError
| AxiosError (status : option Z).

(** ** The world and the program monad *)

Record World := mkWorld {
  cacheFile : option file_contents;
  shopifyFiles : Store;
  shopifyApi : list shopify_reply;
  openAiApi : list openai_reply;
  trace : list event
}.

Definition setCacheFile (c : option file_contents) (w : World) : World :=
  mkWorld c (shopifyFiles w) (shopifyApi w) (openAiApi w) (trace w).
Definition setShopifyFiles (m : Store) (w : World) : World :=
  mkWorld (cacheFile w) m (shopifyApi w) (openAiApi w) (trace w).
Definition setShopifyApi (s : list shopify_reply) (w : World) : World :=
  mkWorld (cacheFile w) (shopifyFiles w) s (openAiApi w) (trace w).
Definition setOpenAiApi (s : list openai_reply) (w : World) : World :=
  mkWorld (cacheFile w) (shopifyFiles w) (shopifyApi w) s (trace w).
Definition emit (evs : list event) (w : World) : World :=
  mkWorld (cacheFile w) (shopifyFiles w) (shopifyApi w) (openAiApi w)
          (trace w ++ evs).

Inductive outcome (A : Type) :=
| Returns (a : A) (w : World)
| Throws (e : exn) (w : World)
| Blocked (w : World).
Arguments Returns {A} _ _.
Arguments Throws {A} _ _.
Arguments Blocked {A} _.

Definition M (A : Type) : Type := World → outcome A.

#[global] Instance M_ret : MRet M := λ A a w, Returns a w.
#[global] Instance M_bind : MBind M := λ A B k m w,
  match m w with
  | Returns a w' => k a w'
  | Throws e w' => Throws e w'
  | Blocked w' => Blocked w'
  end.

Definition getWorld : M World := λ w, Returns w w.
Definition modifyWorld (f : World → World) : M unit := λ w, Returns tt (f w).
Definition throw {A} (e : exn) : M A := λ w, Throws e w.
Definition log (e : event) : M unit := modifyWorld (emit [e]).
(** [await new Promise((resolve) => setTimeout(resolve, ms))] *)
Definition sleep (ms : Z) : M unit := log (EvSleep ms).

(** ** Resilient remote call (lines 27-52) *)

Definition isStatus429 (status : option Z) : bool :=
  match status with
  | Some s => (s =? 429)%Z
  | None => false
  end.

(** The [while (true)] loop, one iteration per reply of the server. *)
Fixpoint safeShopifyQuery_loop (c : category) (after : option string)
    (script : list shopify_reply) (w : World) : outcome gql_data :=
  match script with
  | [] => Blocked (setShopifyApi [] w)
  | reply :: script' =>
      let w1 := emit [EvShopifyPost c after] (setShopifyApi script' w) in
      match reply with
      | ShopifyOk d => Returns d w1
      | ShopifyFail status =>
          if isStatus429 status
          then safeShopifyQuery_loop c after script' (emit [EvSleep 5000] w1)
          else Throws (AxiosError status) w1
      end
  end.

(** [safeShopifyQuery(query)]; the query is given by the collection it
    reads and the rendered [after:] argument. *)
Definition safeShopifyQuery (c : category) (after : option string)
    : M gql_data :=
  λ w, safeShopifyQuery_loop c after (shopifyApi w) w.

(** ** Generation call (lines 261-308) *)

Definition isRateLimitCode (code : option string) : bool :=
  bool_decide (code = Some "rate_limit_exceeded").

(** [choices[0]?.message?.content?.trim()] *)
Definition firstCompletionText (cs : list (option choice)) : option string :=
  c ← mjoin (cs !! 0%nat); m ← choice_message c; s ← content m;
  Some (Js.trim s).

Definition emptyAltText : string := "Empty Alt Text".
Definition errorAltText : string := "Error generating alt text".

(** The [while (true)] loop, one iteration per reply of the server.  A body
    without a [choices] array makes [response.data.choices[0]] throw a
    TypeError inside the [try]; the [catch] block then sees an error with
    no [response] and takes its [else] branch. *)
Fixpoint generateAltText_loop (imageUrl : value)
    (script : list openai_reply) (w : World) : outcome string :=
  match script with
  | [] => Blocked (setOpenAiApi [] w)
  | reply :: script' =>
      let w1 := emit [EvOpenAiPost imageUrl] (setOpenAiApi script' w) in
      match reply with
      | OpenAiOk body =>
          match choices body with
          | Some cs => Returns (Js.orElse (firstCompletionText cs) emptyAltText) w1
          | None => Returns errorAltText w1
          end
      | OpenAiFail code =>
          if isRateLimitCode code
          then generateAltText_loop imageUrl script'
                 (emit [EvSleep openAiRequestDelay] w1)
          else Returns errorAltText w1
      end
  end.

Definition generateAltText (imageUrl : value) : M string :=
  λ w, generateAltText_loop imageUrl (openAiApi w) w.

(** ** Index cache store and paginated index builder (lines 55-258) *)

(** A value that is used only when truthy. *)
Definition nonEmpty (o : option string) : option string :=
  match o with
  | Some s => if Js.truthy s then Some s else None
  | None => None
  end.

(** [endCursor ? JSON.stringify(endCursor) : "null"] *)
Definition afterArg (endCursor : option string) : option string :=
  nonEmpty endCursor.

(** [url?.split("/").pop()?.split("?")[0]] *)
Definition fileNameOf (url : string) : option string :=
  seg ← last (Js.split "/"%char url); head (Js.split "?"%char seg).

(** The key under which a file name is stored (lines 103, 162, 228). *)
Definition keyOf (c : category) (fileName : string) : string :=
  match c with
  | Files => fileName
  | Collections => fileName +:+ "_collection"
  | Products => fileName +:+ "_product"
  end.

(** [if (fileName && url) shopifyFiles[key] = url] *)
Definition mergeUrl (c : category) (url : string) (m : Store) : Store :=
  match fileNameOf url with
  | Some fileName =>
      if Js.truthy fileName && Js.truthy url
      then Js.setProp (keyOf c fileName) url m
      else m
  | None => m
  end.

Definition mergeIntoFiles (c : category) (url : string) : M unit :=
  modifyWorld (λ w, setShopifyFiles (mergeUrl c url (shopifyFiles w)) w).

(** [edges.forEach(callback)], threading the variable [endCursor] that the
    callbacks assign. *)
Fixpoint forEachEdge {N} (callback : option string → edge N → M (option string))
    (es : list (edge N)) (endCursor : option string) : M (option string) :=
  match es with
  | [] => mret endCursor
  | e :: es' =>
      endCursor' ← callback endCursor e;
      forEachEdge callback es' endCursor'
  end.

(** The callback of lines 95-106 and 154-166: an edge without a usable URL
    returns before [endCursor = cursor]. *)
Definition imageEdge (c : category) (endCursor : option string)
    (e : edge image_node) : M (option string) :=
  match nonEmpty (node e) with
  | None => log (EvWarn (MissingUrl c)) ;; mret endCursor
  | Some url => mergeIntoFiles c url ;; mret (Some (cursor e))
  end.

(** The inner callback of lines 220-231. *)
Definition productImage (url : option string) : M unit :=
  match nonEmpty url with
  | None => log (EvWarn (MissingUrl Products))
  | Some u => mergeIntoFiles Products u
  end.

Fixpoint forEachImage (urls : list (option string)) : M unit :=
  match urls with
  | [] => mret tt
  | u :: urls' => productImage u ;; forEachImage urls'
  end.

(** The outer callback of lines 219-233: [endCursor = cursor] runs for
    every product edge. *)
Definition productEdge (endCursor : option string)
    (e : edge product_node) : M (option string) :=
  forEachImage (node e) ;; mret (Some (cursor e)).

(** [x?.edges || []] and [x?.pageInfo?.hasNextPage || false] *)
Definition edgesOf {N} (c : option (connection N)) : list (edge N) :=
  from_option edges [] c.
Definition hasNextPageOf {N} (c : option (connection N)) : bool :=
  from_option hasNextPage false c.

(** One page: the request, the [forEach] over its edges, and the
    [hasNextPage] flag. *)
Definition fetchPage (c : category) (endCursor : option string)
    : M (option string * bool) :=
  d ← safeShopifyQuery c (afterArg endCursor);
  match c with
  | Files =>
      endCursor' ← forEachEdge (imageEdge Files) (edgesOf (files d)) endCursor;
      mret (endCursor', hasNextPageOf (files d))
  | Collections =>
      endCursor' ← forEachEdge (imageEdge Collections)
                     (edgesOf (collections d)) endCursor;
      mret (endCursor', hasNextPageOf (collections d))
  | Products =>
      endCursor' ← forEachEdge productEdge (edgesOf (products d)) endCursor;
      mret (endCursor', hasNextPageOf (products d))
  end.

(** [while (hasNextPage) { ... }].  Every iteration consumes at least one
    reply of the script, so the number of replies left bounds the number
    of iterations; [fuel] is that bound. *)
Fixpoint pageLoop (c : category) (fuel : nat) (endCursor : option string)
    : M unit :=
  match fuel with
  | 0 => Blocked
  | S fuel' =>
      '(endCursor', hasNext) ← fetchPage c endCursor;
      if hasNext : bool then pageLoop c fuel' endCursor' else mret tt
  end.

(** Lines 57-67: reset the store, then read the cache file if it exists. *)
Definition loadCache : M unit :=
  modifyWorld (setShopifyFiles ∅) ;;
  w ← getWorld;
  match cacheFile w with
  | None => mret tt
  | Some (JsonObject m) => modifyWorld (setShopifyFiles m)
  | Some Malformed => throw SyntaxError
  end.

(** Line 114: overwrite the cache file with the whole store. *)
Definition saveCache : M unit :=
  w ← getWorld;
  modifyWorld (setCacheFile (Some (JsonObject (shopifyFiles w)))) ;;
  log (EvWriteCache (shopifyFiles w)).

(** One sweep over a collection: load, drain the pages, persist. *)
Definition fetchImages (c : category) : M unit :=
  loadCache ;;
  w ← getWorld;
  pageLoop c (S (length (shopifyApi w))) None ;;
  saveCache.

(** The three sweeps of lines 55-115, 118-176 and 179-242; they differ in
    the collection queried, the callback and the key suffix. *)
Definition fetchContentImages : M unit := fetchImages Files.
Definition fetchCollectionImages : M unit := fetchImages Collections.
Definition fetchProductImages : M unit := fetchImages Products.

(** Lines 245-258. *)
Definition fetchShopifyFiles : M unit :=
  modifyWorld (setShopifyFiles ∅) ;;
  fetchContentImages ;;
  fetchCollectionImages ;;
  fetchProductImages.

(** ** Chunked enrichment engine and record stream processor (lines 311-401) *)

(** [fileName.replace(/(_product|_collection)$/, empty)]: a string ends
    with at most one of the two suffixes, and only that occurrence is
    removed. *)
Definition cleanFileName (fileName : string) : string :=
  if Js.endsWith "_product" fileName then Js.dropEnd 8 fileName
  else if Js.endsWith "_collection" fileName then Js.dropEnd 11 fileName
  else fileName.

(** A value that is used only when truthy. *)
Definition truthyValue (o : option value) : option value :=
  match o with
  | Some v => if Js.truthyV v then Some v else None
  | None => None
  end.

(** Lines 367-377: the exact lookup, then the lookup of the cleaned name
    when the first one gave nothing truthy.  Both are property reads of the
    plain object [shopifyFiles]. *)
Definition matchFile (m : Store) (fileName : string) : option value :=
  match truthyValue (Js.getProp m fileName) with
  | Some matchedFile => Some matchedFile
  | None => truthyValue (Js.getProp m (cleanFileName fileName))
  end.

(** [x?.trim()]: a string is trimmed and [undefined] stays [undefined]; a
    member of [Object.prototype] has no method [trim], and calling it
    throws a TypeError. *)
Definition trimField (o : option value) : M (option string) :=
  match o with
  | None => mret None
  | Some (Str s) => mret (Some (Js.trim s))
  | Some (Inherited _) => throw TypeError
  end.

(** The body of [for (const row of chunk)] (lines 359-390); [i] is the
    index at which the chunk starts, used in the warnings only.  The row
    object is mutated in place: the result is the row afterwards. *)
Definition processRow (i : nat) (row : RowObject) : M RowObject :=
  fileName ← trimField (row !! "File Name");
  match nonEmpty fileName with
  | None => log (EvWarn (NoFileName (i + 1))) ;; mret row
  | Some fileName =>
      w ← getWorld;
      match matchFile (shopifyFiles w) fileName with
      | None => log (EvWarn (NoMatch (i + 1) fileName)) ;; mret row
      | Some matchedFile =>
          let row1 := <["Updated Link" := matchedFile]> row in
          if negb (Js.truthyVO (row1 !! "Alt Text")) then
            match truthyValue (row1 !! "Updated Link") with
            | Some link =>
                altText ← generateAltText link;
                mret (<["Alt Text" := Str altText]> row1)
            | None => mret row1
            end
          else mret row1
      end
  end.

Fixpoint forEachRow (i : nat) (chunk : list RowObject) : M (list RowObject) :=
  match chunk with
  | [] => mret []
  | row :: chunk' =>
      row' ← processRow i row;
      chunk'' ← forEachRow i chunk';
      mret (row' :: chunk'')
  end.

(** [arr.slice(b, e)] for [b <= e]. *)
Definition slice {A} (b e : nat) (l : list A) : list A :=
  take (e - b) (drop b l).

(** [for (let i = 0; i < rows.length; i += openAiChunkSize)] (lines
    354-395).  The rows of [chunk] are the row objects of [rows], so the
    rows mutated through [chunk] are written back at their positions.
    The step is positive, so [rows.length + 1] bounds the number of times
    the loop condition is tested; [fuel] is that bound. *)
Fixpoint chunkLoop (fuel i : nat) (rows : list RowObject)
    : M (list RowObject) :=
  match fuel with
  | 0 => Blocked
  | S fuel' =>
      if bool_decide (i < length rows) then
        let chunk := slice i (i + openAiChunkSize) rows in
        log (EvChunk (length chunk)) ;;
        chunk' ← forEachRow i chunk;
        sleep openAiChunkDelay ;;
        chunkLoop fuel' (i + openAiChunkSize)
          (take i rows ++ chunk' ++ drop (i + openAiChunkSize) rows)
      else mret rows
  end.

(** [({ "Updated Link": _, ...rest }) => rest] *)
Definition withoutUpdatedLink (row : RowObject) : RowObject :=
  delete "Updated Link" row.

(** [processBatch(rows, csvWriter)]: the chunk loop, then one call of
    [csvWriter.writeRecords]. *)
Definition processBatch (rows : list RowObject) : M unit :=
  rows' ← chunkLoop (S (length rows)) 0 rows;
  log (EvWriteRecords (withoutUpdatedLink <$> rows')).

(** [for (let i = 0; i < batch.length; i += batchSize)] (lines 342-346).
    The slices do not overlap, so a slice never holds a row that an
    earlier call of [processBatch] has mutated. *)
Fixpoint batchLoop (fuel i : nat) (batch : list RowObject) : M unit :=
  match fuel with
  | 0 => Blocked
  | S fuel' =>
      if bool_decide (i < length batch) then
        processBatch (slice i (i + batchSize) batch) ;;
        batchLoop fuel' (i + batchSize) batch
      else mret tt
  end.

(** The object the CSV reader builds for a row: every field is a string. *)
Definition rowObject (row : Row) : RowObject := Str <$> row.

(** [processCsv()], from the ["end"] event of the input stream on; [batch]
    holds the rows the reader delivered, in order. *)
Definition processCsv (batch : list Row) : M unit :=
  batchLoop (S (length batch)) 0 (rowObject <$> batch).

(** Lines 404-413: with a cache file the store is read from it and the
    builder does not run. *)
Definition loadOrFetch : M unit :=
  w ← getWorld;
  match cacheFile w with
  | Some (JsonObject m) => modifyWorld (setShopifyFiles m)
  | Some Malformed => throw SyntaxError
  | None => fetchShopifyFiles
  end.

(** The whole run; [input] holds the rows of the input file. *)
Definition main (input : list Row) : M unit :=
  loadOrFetch ;; processCsv input.

(** * Vocabulary of the statements *)

(** ** Observations on traces *)

Definition shopifyPosts (tr : list event) : list (category * option string) :=
  omap (λ e, match e with EvShopifyPost c a => Some (c, a) | _ => None end) tr.
Definition openAiPosts (tr : list event) : list value :=
  omap (λ e, match e with EvOpenAiPost u => Some u | _ => None end) tr.
Definition sleeps (tr : list event) : list Z :=
  omap (λ e, match e with EvSleep ms => Some ms | _ => None end) tr.
Definition warnings (tr : list event) : list warning :=
  omap (λ e, match e with EvWarn x => Some x | _ => None end) tr.
Definition chunkSizes (tr : list event) : list nat :=
  omap (λ e, match e with EvChunk n => Some n | _ => None end) tr.
Definition cacheWrites (tr : list event) : list Store :=
  omap (λ e, match e with EvWriteCache m => Some m | _ => None end) tr.
Definition sinkWrites (tr : list event) : list (list RowObject) :=
  omap (λ e, match e with EvWriteRecords rs => Some rs | _ => None end) tr.

(** The events of [k] rate-limited attempts: each is a request followed by
    a sleep of [delay] milliseconds. *)
Definition rateLimited (post : event) (delay : Z) (k : nat) : list event :=
  mjoin (replicate k [post; EvSleep delay]).

(** ** Remote calls *)

(** The rate-limit reply of the source API. *)
Definition tooManyRequests : shopify_reply := ShopifyFail (Some 429%Z).

(** The rate-limit reply of the generation API. *)
Definition rateLimitExceeded : openai_reply :=
  OpenAiFail (Some "rate_limit_exceeded").

(** The first completion of [cs] is missing, has no message or content,
    or its content trims to the empty string. *)
Definition blankFirstCompletion (cs : list (option choice)) : Prop :=
  mjoin (cs !! 0%nat) = None
  ∨ ∃ c, cs !! 0%nat = Some (Some c)
      ∧ (choice_message c = None
         ∨ ∃ m, choice_message c = Some m
             ∧ (content m = None
                ∨ ∃ s, content m = Some s ∧ Js.trim s = "")).

(** A reply that ends a generation call: anything but a rate limit. *)
Definition isTerminal (r : openai_reply) : bool :=
  match r with
  | OpenAiOk _ => true
  | OpenAiFail code => negb (isRateLimitCode code)
  end.

(** The number of replies in a script that end a generation call. *)
Fixpoint terminals (script : list openai_reply) : nat :=
  match script with
  | [] => 0
  | r :: script' => (if isTerminal r then 1 else 0) + terminals script'
  end.

(** Events of a generation call for [imageUrl]: requests and sleeps. *)
Definition callEvent (imageUrl : value) (e : event) : Prop :=
  e = EvOpenAiPost imageUrl ∨ e = EvSleep openAiRequestDelay.

(** ** Enrichment engine *)

(** The field ["File Name"] of a row object holds a string, if anything:
    so it is in every object the reader builds, and the engine never
    assigns that field. *)
Definition namedByString (row : RowObject) : Prop :=
  ∀ name, row !! "File Name" ≠ Some (Inherited name).

(** [row["File Name"]?.trim()] of such a row object. *)
Definition fileNameField (row : RowObject) : option string :=
  match row !! "File Name" with
  | Some (Str s) => Some (Js.trim s)
  | _ => None
  end.

(** What a row resolves to (lines 359-377), if anything: a URL of the
    store, or a member of [Object.prototype]. *)
Definition resolve (m : Store) (row : RowObject) : option value :=
  fileName ← nonEmpty (fileNameField row); matchFile m fileName.

(** What [processRow] makes of a row: it leaves it alone when it does not
    resolve, records what it resolves to when it does, and also sets the
    alt text when there was none. *)
Inductive enriched (m : Store) (row : RowObject) : RowObject → Prop :=
| enriched_skipped :
    resolve m row = None → enriched m row row
| enriched_kept link :
    resolve m row = Some link → Js.truthyVO (row !! "Alt Text") = true →
    enriched m row (<["Updated Link" := link]> row)
| enriched_generated link altText :
    resolve m row = Some link → Js.truthyVO (row !! "Alt Text") = false →
    altText ≠ "" →
    enriched m row
      (<["Alt Text" := Str altText]> (<["Updated Link" := link]> row)).

(** What the sink receives for a row of the input. *)
Definition written (m : Store) (row : Row) (out : RowObject) : Prop :=
  ∃ row', enriched m (rowObject row) row' ∧ out = withoutUpdatedLink row'.

(** The lengths of the slices that a loop [for (i = 0; i < n; i += size)]
    takes from [n] elements. *)
Fixpoint sliceSizes (fuel size n : nat) : list nat :=
  match fuel with
  | 0 => []
  | S fuel' =>
      if bool_decide (0 < n)
      then (size `min` n) :: sliceSizes fuel' size (n - size)
      else []
  end.

(** The chunk sizes of the batches whose lengths are [ns]. *)
Definition chunkSizesOf (ns : list nat) : list nat :=
  mjoin ((λ n, sliceSizes (S n) openAiChunkSize n) <$> ns).

(** ** Index builder *)

(** The URLs a sweep of collection [c] reads from a page, in order. *)
Definition pageUrls (c : category) (d : gql_data) : list (option string) :=
  match c with
  | Files => node <$> edgesOf (files d)
  | Collections => node <$> edgesOf (collections d)
  | Products => mjoin (node <$> edgesOf (products d))
  end.

(** The [hasNextPage] flag a sweep of collection [c] reads from a page. *)
Definition pageHasNext (c : category) (d : gql_data) : bool :=
  match c with
  | Files => hasNextPageOf (files d)
  | Collections => hasNextPageOf (collections d)
  | Products => hasNextPageOf (products d)
  end.

(** The image connection that a sweep of [c] reads; none for products. *)
Definition imagePage (c : category) (d : gql_data)
    : option (connection image_node) :=
  match c with
  | Files => files d
  | Collections => collections d
  | Products => None
  end.

(** [endCursor] after the image edges [es]: the cursor of the last edge
    that has a usable URL. *)
Definition imageCursor (endCursor : option string)
    (es : list (edge image_node)) : option string :=
  foldl (λ cur e, match nonEmpty (node e) with
                  | Some _ => Some (cursor e)
                  | None => cur
                  end) endCursor es.

(** [endCursor] after the product edges [es]: the cursor of the last edge. *)
Definition productCursor (endCursor : option string)
    (es : list (edge product_node)) : option string :=
  foldl (λ _ e, Some (cursor e)) endCursor es.

(** [endCursor] after a page of collection [c]. *)
Definition pageCursor (c : category) (endCursor : option string)
    (d : gql_data) : option string :=
  match c with
  | Files => imageCursor endCursor (edgesOf (files d))
  | Collections => imageCursor endCursor (edgesOf (collections d))
  | Products => productCursor endCursor (edgesOf (products d))
  end.

(** The store after the URLs [urls] of collection [c] were read. *)
Definition mergeUrls (c : category) (urls : list (option string))
    (m : Store) : Store :=
  foldl (λ m o, match nonEmpty o with
                | Some url => mergeUrl c url m
                | None => m
                end) m urls.

(** One warning for each URL that is missing or empty. *)
Definition missingWarnings (c : category) (urls : list (option string))
    : list event :=
  omap (λ o, match nonEmpty o with
             | Some _ => None
             | None => Some (EvWarn (MissingUrl c))
             end) urls.

(** The pages [ds] drain a collection: every page but the last one
    announces a next page. *)
Fixpoint drained (c : category) (ds : list gql_data) : Prop :=
  match ds with
  | [] => False
  | d :: ds' =>
      match ds' with
      | [] => pageHasNext c d = false
      | _ :: _ => pageHasNext c d = true ∧ drained c ds'
      end
  end.

(** All the URLs of the pages, in order. *)
Definition sweepUrls (c : category) (ds : list gql_data)
    : list (option string) :=
  mjoin (pageUrls c <$> ds).

(** The [after:] arguments of the requests of a sweep that starts with
    [endCursor] and receives the pages [ds]. *)
Fixpoint requestCursors (c : category) (endCursor : option string)
    (ds : list gql_data) : list (option string) :=
  match ds with
  | [] => []
  | d :: ds' =>
      afterArg endCursor :: requestCursors c (pageCursor c endCursor d) ds'
  end.

(** The events of such a sweep: for each page the request, then the
    warnings for its unusable URLs. *)
Fixpoint sweepEvents (c : category) (endCursor : option string)
    (ds : list gql_data) : list event :=
  match ds with
  | [] => []
  | d :: ds' =>
      EvShopifyPost c (afterArg endCursor)
      :: missingWarnings c (pageUrls c d)
      ++ sweepEvents c (pageCursor c endCursor d) ds'
  end.

(** The store a sweep starts from: the contents of the cache file. *)
Definition cachedStore (w : World) : Store :=
  match cacheFile w with
  | Some (JsonObject m) => m
  | Some Malformed | None => ∅
  end.

(** The URLs that are present and not empty. *)
Definition usableUrls (urls : list (option string)) : list string :=
  omap nonEmpty urls.

(** The key derived from a URL; none when its file name is empty. *)
Definition keyOfUrl (c : category) (url : string) : option string :=
  fileName ← fileNameOf url;
  if Js.truthy fileName then Some (keyOf c fileName) else None.

(** An assignment to the property [k] of a plain object with the own
    properties [m] stores something: always, except for ["__proto__"] when
    the object has no own property of that name. *)
Definition assignable (m : Store) (k : string) : bool :=
  negb (bool_decide (k = "__proto__") && bool_decide (m !! k = None)).

(** The key a URL is stored under by a sweep that starts from the store
    [m]; none when its file name is empty or the assignment stores
    nothing. *)
Definition storedKey (m : Store) (c : category) (url : string)
    : option string :=
  k ← keyOfUrl c url; if assignable m k then Some k else None.

(** The keys written by a sweep that starts from [m] and reads [urls], in
    order. *)
Definition storedKeys (m : Store) (c : category) (urls : list (option string))
    : list string :=
  omap (storedKey m c) (usableUrls urls).

(** * Sample data *)

(** A world in which nothing has happened yet: no cache file, an empty
    store, and both servers silent. *)
Definition world0 : World := mkWorld None ∅ [] [] [].

(** An index with one content image. *)
Definition shoeIndex : Store :=
  {[ "shoe.jpg" := "https://cdn.example/files/shoe.jpg?v=1" ]}.

(** A row that names the product variant of that image. *)
Definition shoeProductRow : Row :=
  {[ "ID" := "7"; "File Name" := " shoe.jpg_product"; "Alt Text" := "" ]}.

(** A completion with one choice. *)
Definition shoeReply : openai_reply :=
  OpenAiOk (mkCompletion
    (Some [Some (mkChoice (Some (mkMessage (Some " A red shoe. "))))])).

(** One page of each collection; the file and the product image share
    the file name ["shoe.jpg"]. *)
Definition shoeFiles : gql_data :=
  mkData
    (Some (mkConnection
       [mkEdge "f1" (Some "https://cdn.example/files/shoe.jpg?v=1");
        mkEdge "f2" None] false))
    None None.

Definition noCollections : gql_data :=
  mkData None (Some (mkConnection [] false)) None.

Definition shoeProducts : gql_data :=
  mkData None None
    (Some (mkConnection
       [mkEdge "p1" [Some "https://cdn.example/products/shoe.jpg?v=2"; None]]
       false)).

Definition shoeWorld : World :=
  setShopifyApi
    [ShopifyOk shoeFiles; ShopifyOk noCollections; ShopifyOk shoeProducts]
    world0.

(** Two pages of files; the second starts with a file that is not an
    image. *)
Definition twoPages : list gql_data :=
  [mkData
     (Some (mkConnection
        [mkEdge "f1" (Some "https://cdn.example/files/shoe.jpg?v=1");
         mkEdge "f2" (Some "https://cdn.example/files/hat.png")] true))
     None None;
   mkData
     (Some (mkConnection
        [mkEdge "f3" None;
         mkEdge "f4" (Some "https://cdn.example/files/bag.jpg")] false))
     None None].

(** One page with two files of the same name in different directories. *)
Definition sameNamePage : gql_data :=
  mkData
    (Some (mkConnection
       [mkEdge "f1" (Some "https://cdn.example/a/shoe.jpg");
        mkEdge "f2" (Some "https://cdn.example/b/shoe.jpg")] false))
    None None.

(** A run that finds a cache file while the source API has new files. *)
Definition cachedWorld : World :=
  setCacheFile (Some (JsonObject shoeIndex))
    (setShopifyApi (ShopifyOk <$> twoPages) world0).

(** A page of files that ends with a file that is not an image. *)
Definition trailingVideoPages : list gql_data :=
  [mkData
     (Some (mkConnection
        [mkEdge "f1" (Some "https://cdn.example/files/shoe.jpg");
         mkEdge "f2" None] true))
     None None;
   mkData (Some (mkConnection [] false)) None None].

(** * Vocabulary of the further properties *)

(** The world a run leaves behind, whatever its outcome. *)
Definition finalWorld {A} (o : outcome A) : World :=
  match o with
  | Returns _ w | Throws _ w | Blocked w => w
  end.

(** Events of the enrichment engine: anything but a request to the source
    API or a write of the cache file. *)
Definition engineEvent (e : event) : Prop :=
  match e with
  | EvShopifyPost _ _ | EvWriteCache _ => False
  | _ => True
  end.

(** [w'] comes from [w] by engine events and by reading replies of the
    generation API only. *)
Definition engineOnly (w w' : World) : Prop :=
  cacheFile w' = cacheFile w ∧ shopifyFiles w' = shopifyFiles w
  ∧ shopifyApi w' = shopifyApi w
  ∧ ∃ evs, trace w' = trace w ++ evs ∧ Forall engineEvent evs.

(** Events of the index builder: requests to the source API, their
    back-off sleeps, warnings for missing URLs and writes of the cache
    file. *)
Definition builderEvent (e : event) : Prop :=
  match e with
  | EvShopifyPost _ _ | EvWriteCache _ | EvWarn (MissingUrl _) => True
  | EvSleep ms => ms = 5000%Z
  | _ => False
  end.

(** [w'] comes from [w] by builder events and by changes of the store,
    the cache file and the replies of the source API only. *)
Definition builderOnly (w w' : World) : Prop :=
  openAiApi w' = openAiApi w
  ∧ ∃ evs, trace w' = trace w ++ evs ∧ Forall builderEvent evs.

(** A computation that, from every world and whatever its outcome, stays
    within the engine's footprint. *)
Definition engineFramed {A} (m : M A) : Prop :=
  ∀ w, engineOnly w (finalWorld (m w)).

(** A computation that, from every world and whatever its outcome, stays
    within the builder's footprint. *)
Definition builderFramed {A} (m : M A) : Prop :=
  ∀ w, builderOnly w (finalWorld (m w)).

(** The replies of a source API that delivers the pages of [kds] in order,
    each after the given number of rate-limit replies. *)
Fixpoint deliveries (kds : list (nat * gql_data)) : list shopify_reply :=
  match kds with
  | [] => []
  | (k, d) :: kds' =>
      replicate k tooManyRequests ++ ShopifyOk d :: deliveries kds'
  end.

(** The events of a sweep of [c] that starts with [endCursor] and is
    served [deliveries kds]: for each page the rate-limited attempts, the
    request that is answered, and the warnings for its unusable URLs. *)
Fixpoint deliveryEvents (c : category) (endCursor : option string)
    (kds : list (nat * gql_data)) : list event :=
  match kds with
  | [] => []
  | (k, d) :: kds' =>
      rateLimited (EvShopifyPost c (afterArg endCursor)) 5000 k
      ++ EvShopifyPost c (afterArg endCursor)
      :: missingWarnings c (pageUrls c d)
      ++ deliveryEvents c (pageCursor c endCursor d) kds'
  end.

(** [endCursor] after the pages [ds]. *)
Definition sweepCursor (c : category) (endCursor : option string)
    (ds : list gql_data) : option string :=
  foldl (pageCursor c) endCursor ds.

(** Every entry of [m] holds a non-empty URL under a key derived from that
    URL: its file name, followed by the suffix of one of the collections. *)
Definition keyedByUrl (m : Store) : Prop :=
  ∀ k url, m !! k = Some url → url ≠ "" ∧ ∃ c, keyOfUrl c url = Some k.

(** The store in memory and the store in the cache file are keyed by
    URL. *)
Definition indexInvariant (w : World) : Prop :=
  keyedByUrl (shopifyFiles w)
  ∧ ∀ m, cacheFile w = Some (JsonObject m) → keyedByUrl m.

(** A computation that keeps [indexInvariant], whatever its outcome. *)
Definition keepsIndexInvariant {A} (m : M A) : Prop :=
  ∀ w, indexInvariant w → indexInvariant (finalWorld (m w)).

(** The character [c] occurs in [s]. *)
Fixpoint hasChar (c : Ascii.ascii) (s : string) : bool :=
  match s with
  | EmptyString => false
  | String a s' => Ascii.eqb a c || hasChar c s'
  end.

(** [s] consists of white space only. *)
Fixpoint allWhiteSpace (s : string) : bool :=
  match s with
  | EmptyString => true
  | String a s' => Js.isWhiteSpace a && allWhiteSpace s'
  end.

(** The warning [processRow] records for a row of the chunk that starts at
    index [i]: one when the row has no file name or no match, none when it
    resolves. *)
Definition rowWarning (m : Store) (i : nat) (row : RowObject)
    : option warning :=
  match nonEmpty (fileNameField row) with
  | None => Some (NoFileName (i + 1))
  | Some fileName =>
      match matchFile m fileName with
      | None => Some (NoMatch (i + 1) fileName)
      | Some _ => None
      end
  end.

(** That warning as an event of the trace. *)
Definition skipWarning (m : Store) (i : nat) (row : RowObject) : list event :=
  match rowWarning m i row with
  | Some x => [EvWarn x]
  | None => []
  end.

(** A row with what it resolves to recorded, if it resolves. *)
Definition settle (m : Store) (row : RowObject) : RowObject :=
  match resolve m row with
  | Some link => <["Updated Link" := link]> row
  | None => row
  end.

(** The row needs a generation call: it resolves and has no alt text. *)
Definition needsCall (m : Store) (row : RowObject) : bool :=
  bool_decide (is_Some (resolve m row))
  && negb (Js.truthyVO (row !! "Alt Text")).

(** The events of the chunk loop over the rows [tail] that start at index
    [i], when no row needs a generation call: for each chunk its size, the
    warnings of its rows and the sleep that follows it. *)
Fixpoint quietEvents (fuel i : nat) (m : Store) (tail : list RowObject)
    : list event :=
  match fuel with
  | 0 => []
  | S fuel' =>
      match tail with
      | [] => []
      | _ :: _ =>
          let chunk := take openAiChunkSize tail in
          EvChunk (length chunk)
          :: mjoin (skipWarning m i <$> chunk)
          ++ EvSleep openAiChunkDelay
          :: quietEvents fuel' (i + openAiChunkSize) m
               (drop openAiChunkSize tail)
      end
  end.

(** The lengths of consecutive slices of [size] elements cut from [n]
    elements: full slices, then the remainder if there is one. *)
Definition sliceLengths (size n : nat) : list nat :=
  replicate (n / size) size
  ++ (if decide (n `mod` size = 0) then [] else [n `mod` size]).

(** The number of pauses between chunks in a trace: the sleeps of
    [openAiChunkDelay] milliseconds. *)
Definition pauses (tr : list event) : nat :=
  length (filter (λ ms, ms = openAiChunkDelay) (sleeps tr)).

(** One generation call as the API sees it: [callRetries] requests that
    are answered by a rate limit, then the request that [callReply] ends;
    all of them carry [callLink]. *)
Record call := mkCall {
  callLink : value;
  callRetries : nat;
  callReply : openai_reply
}.

Definition callReplies (c : call) : list openai_reply :=
  replicate (callRetries c) rateLimitExceeded ++ [callReply c].

Definition callPosts (c : call) : list value :=
  replicate (S (callRetries c)) (callLink c).

(** What the rows that need a generation call resolve to, in row order. *)
Definition callLinks (m : Store) (rows : list RowObject) : list value :=
  omap (λ row, if needsCall m row then resolve m row else None) rows.

(** The generation API has served the rows [rows] between [w] and [w'],
    where the events [evs] happened: the store is the same; the replies
    read are those of the calls [calls], one call for each row that needed
    one, in row order, each with what the row resolves to; the requests
    made are those of these calls and no other; nothing was written to the
    sink. *)
Definition served (m : Store) (rows : list RowObject) (calls : list call)
    (evs : list event) (w w' : World) : Prop :=
  shopifyFiles w' = shopifyFiles w
  ∧ trace w' = trace w ++ evs
  ∧ openAiApi w = mjoin (callReplies <$> calls) ++ openAiApi w'
  ∧ Forall (λ c, isTerminal (callReply c) = true) calls
  ∧ callLink <$> calls = callLinks m rows
  ∧ openAiPosts evs = mjoin (callPosts <$> calls)
  ∧ sinkWrites evs = [].

(** * Properties *)

(** ** The world *)

Lemma World_eq w1 w2 :
  cacheFile w1 = cacheFile w2 → shopifyFiles w1 = shopifyFiles w2 →
  shopifyApi w1 = shopifyApi w2 → openAiApi w1 = openAiApi w2 →
  trace w1 = trace w2 → w1 = w2.
Proof. destruct w1, w2; simpl; intros; congruence. Qed.

Lemma emit_emit evs1 evs2 w : emit evs2 (emit evs1 w) = emit (evs1 ++ evs2) w.
Proof. apply World_eq; simpl; auto using app_assoc. Qed.

Lemma emit_nil w : emit [] w = w.
Proof. apply World_eq; simpl; auto using app_nil_r. Qed.

Lemma emit_setShopifyApi s evs w :
  emit evs (setShopifyApi s w) = setShopifyApi s (emit evs w).
Proof. reflexivity. Qed.

Lemma emit_setOpenAiApi s evs w :
  emit evs (setOpenAiApi s w) = setOpenAiApi s (emit evs w).
Proof. reflexivity. Qed.

Lemma emit_setShopifyFiles m evs w :
  emit evs (setShopifyFiles m w) = setShopifyFiles m (emit evs w).
Proof. reflexivity. Qed.

Lemma emit_setCacheFile c evs w :
  emit evs (setCacheFile c w) = setCacheFile c (emit evs w).
Proof. reflexivity. Qed.

Lemma setShopifyApi_twice s1 s2 w :
  setShopifyApi s2 (setShopifyApi s1 w) = setShopifyApi s2 w.
Proof. reflexivity. Qed.

Lemma setOpenAiApi_twice s1 s2 w :
  setOpenAiApi s2 (setOpenAiApi s1 w) = setOpenAiApi s2 w.
Proof. reflexivity. Qed.

(** ** Resilient remote call *)

Lemma safeShopifyQuery_loop_stale c after script s w :
  safeShopifyQuery_loop c after script (setShopifyApi s w) =
  safeShopifyQuery_loop c after script w.
Proof.
  revert w. induction script as [|reply script IH]; intros w; [reflexivity|].
  simpl. rewrite setShopifyApi_twice. reflexivity.
Qed.

Lemma safeShopifyQuery_loop_retries c after k script w :
  safeShopifyQuery_loop c after (replicate k tooManyRequests ++ script) w =
  safeShopifyQuery_loop c after script
    (emit (rateLimited (EvShopifyPost c after) 5000 k) w).
Proof.
  revert w. induction k as [|k IH]; intros w; simpl.
  - by rewrite emit_nil.
  - rewrite IH, !emit_setShopifyApi, !emit_emit.
    apply safeShopifyQuery_loop_stale.
Qed.

(** C8: a request through [safeShopifyQuery] that meets [k] rate-limit
    replies (status 429), for any [k], sleeps 5000 ms after each of them and
    asks again; the caller gets the response that follows, exactly as it
    would without the rate limits.  An error with any other status is
    thrown to the caller at once: one request for it, no sleep, and the
    replies after it are left unread. *)
Theorem safeShopifyQuery_retries_only_on_429
    (c : category) (after : option string) (k : nat)
    (rest : list shopify_reply) (w : World) (status : option Z)
    (Hstatus : status ≠ Some 429%Z) :
  (∀ d, safeShopifyQuery c after
          (setShopifyApi (replicate k tooManyRequests ++ ShopifyOk d :: rest) w)
        = Returns d
            (emit (rateLimited (EvShopifyPost c after) 5000 k
                   ++ [EvShopifyPost c after])
               (setShopifyApi rest w)))
  ∧ safeShopifyQuery c after
      (setShopifyApi (replicate k tooManyRequests ++ ShopifyFail status :: rest) w)
    = Throws (AxiosError status)
        (emit (rateLimited (EvShopifyPost c after) 5000 k
               ++ [EvShopifyPost c after])
           (setShopifyApi rest w)).
Proof.
  assert (Hno : isStatus429 status = false).
  { destruct status as [s|]; [|reflexivity]. simpl.
    apply Z.eqb_neq. congruence. }
  split; [intros d|]; unfold safeShopifyQuery; simpl shopifyApi;
    rewrite safeShopifyQuery_loop_retries; simpl safeShopifyQuery_loop;
    rewrite ?Hno, !emit_setShopifyApi, !emit_emit, !setShopifyApi_twice;
    reflexivity.
Qed.

Lemma safeShopifyQuery_retries_only_on_429_witness :
  Some 500%Z ≠ Some 429%Z
  ∧ safeShopifyQuery Files None
      (setShopifyApi [tooManyRequests; tooManyRequests;
                      ShopifyFail (Some 500%Z); tooManyRequests] world0)
    = Throws (AxiosError (Some 500%Z))
        (emit [EvShopifyPost Files None; EvSleep 5000;
               EvShopifyPost Files None; EvSleep 5000;
               EvShopifyPost Files None]
           (setShopifyApi [tooManyRequests] world0)).
Proof.
  split; [discriminate|].
  apply (safeShopifyQuery_retries_only_on_429 Files None 2
           [tooManyRequests] world0 (Some 500%Z)).
  discriminate.
Defined.

(** ** Generation call *)

Lemma isRateLimitCode_false code :
  code ≠ Some "rate_limit_exceeded" → isRateLimitCode code = false.
Proof. intros H. unfold isRateLimitCode. by rewrite bool_decide_eq_false. Qed.

Lemma generateAltText_loop_stale imageUrl script s w :
  generateAltText_loop imageUrl script (setOpenAiApi s w) =
  generateAltText_loop imageUrl script w.
Proof.
  revert w. induction script as [|reply script IH]; intros w; [reflexivity|].
  simpl. rewrite setOpenAiApi_twice. reflexivity.
Qed.

Lemma generateAltText_loop_retries imageUrl k script w :
  generateAltText_loop imageUrl (replicate k rateLimitExceeded ++ script) w =
  generateAltText_loop imageUrl script
    (emit (rateLimited (EvOpenAiPost imageUrl) openAiRequestDelay k) w).
Proof.
  revert w. induction k as [|k IH]; intros w; simpl.
  - by rewrite emit_nil.
  - rewrite IH, !emit_setOpenAiApi, !emit_emit.
    apply generateAltText_loop_stale.
Qed.

(** The delay of line 20, evaluated in double arithmetic. *)
Lemma openAiRequestDelay_value : openAiRequestDelay = 1760%Z.
Proof. vm_compute. reflexivity. Qed.

(** C7: a generation call that meets [k] rate-limit errors, for any [k],
    sleeps [openAiRequestDelay] ms after each (the delay computed from the
    tokens-per-minute budget 30000 and the per-call cost 880, i.e. 1760 ms)
    and asks again; when a response with a non-empty first completion
    follows, the call returns that completion, trimmed, so after one rate
    limit there are exactly two requests and one sleep.  An error with any
    other code is not retried: the call returns the sentinel
    ["Error generating alt text"] instead of throwing, after one request
    for it, and leaves the later replies unread. *)
Theorem generateAltText_retries_only_on_rate_limit
    (imageUrl : value) (k : nat) (rest : list openai_reply) (w : World)
    (cs : list (option choice)) (text : string) (code : option string)
    (Htext : firstCompletionText cs = Some text)
    (Hnonempty : text ≠ "")
    (Hcode : code ≠ Some "rate_limit_exceeded") :
  generateAltText imageUrl
    (setOpenAiApi (replicate k rateLimitExceeded
                   ++ OpenAiOk (mkCompletion (Some cs)) :: rest) w)
  = Returns text
      (emit (rateLimited (EvOpenAiPost imageUrl) openAiRequestDelay k
             ++ [EvOpenAiPost imageUrl])
         (setOpenAiApi rest w))
  ∧ generateAltText imageUrl
      (setOpenAiApi (rateLimitExceeded
                     :: OpenAiOk (mkCompletion (Some cs)) :: rest) w)
    = Returns text
        (emit [EvOpenAiPost imageUrl; EvSleep 1760; EvOpenAiPost imageUrl]
           (setOpenAiApi rest w))
  ∧ (text ≠ errorAltText →
     ∀ w', generateAltText imageUrl
             (setOpenAiApi (rateLimitExceeded
                            :: OpenAiOk (mkCompletion (Some cs)) :: rest) w)
           ≠ Returns errorAltText w')
  ∧ generateAltText imageUrl
      (setOpenAiApi (replicate k rateLimitExceeded ++ OpenAiFail code :: rest) w)
    = Returns errorAltText
        (emit (rateLimited (EvOpenAiPost imageUrl) openAiRequestDelay k
               ++ [EvOpenAiPost imageUrl])
           (setOpenAiApi rest w)).
Proof.
  assert (Hor : Js.orElse (Some text) emptyAltText = text).
  { destruct text; [done | reflexivity]. }
  assert (Hgo : ∀ n, generateAltText imageUrl
      (setOpenAiApi (replicate n rateLimitExceeded
                     ++ OpenAiOk (mkCompletion (Some cs)) :: rest) w)
    = Returns text
        (emit (rateLimited (EvOpenAiPost imageUrl) openAiRequestDelay n
               ++ [EvOpenAiPost imageUrl])
           (setOpenAiApi rest w))).
  { intros n. unfold generateAltText. simpl openAiApi.
    rewrite generateAltText_loop_retries. simpl generateAltText_loop.
    rewrite Htext, Hor, !emit_setOpenAiApi, !emit_emit, !setOpenAiApi_twice.
    reflexivity. }
  assert (Hone := Hgo 1%nat).
  unfold rateLimited in Hone. simpl in Hone.
  rewrite openAiRequestDelay_value in Hone.
  split; [apply Hgo|]. split; [exact Hone|]. split.
  - intros Hne w'. rewrite Hone. congruence.
  - unfold generateAltText. simpl openAiApi.
    rewrite generateAltText_loop_retries. simpl generateAltText_loop.
    rewrite (isRateLimitCode_false _ Hcode).
    rewrite !emit_setOpenAiApi, !emit_emit, !setOpenAiApi_twice.
    reflexivity.
Qed.

Lemma generateAltText_retries_only_on_rate_limit_witness :
  generateAltText "https://cdn.example/files/shoe.jpg"
    (setOpenAiApi
       [rateLimitExceeded;
        OpenAiOk (mkCompletion
          (Some [Some (mkChoice (Some (mkMessage (Some " A red shoe. "))))]));
        OpenAiFail None] world0)
  = Returns "A red shoe."
      (emit [EvOpenAiPost "https://cdn.example/files/shoe.jpg"; EvSleep 1760;
             EvOpenAiPost "https://cdn.example/files/shoe.jpg"]
         (setOpenAiApi [OpenAiFail None] world0)).
Proof.
  apply (generateAltText_retries_only_on_rate_limit
           "https://cdn.example/files/shoe.jpg" 1 [OpenAiFail None] world0
           [Some (mkChoice (Some (mkMessage (Some " A red shoe. "))))]
           "A red shoe." None).
  - reflexivity.
  - discriminate.
  - discriminate.
Defined.

(** C10: a generation call whose response carries a [choices] array with a
    blank first completion (missing, without content, or trimming to the
    empty string) returns the placeholder ["Empty Alt Text"], also after
    any number of rate limits; the placeholder is neither empty nor the
    failure sentinel. *)
Theorem generateAltText_blank_completion
    (imageUrl : value) (k : nat) (rest : list openai_reply) (w : World)
    (cs : list (option choice)) (Hblank : blankFirstCompletion cs) :
  generateAltText imageUrl
    (setOpenAiApi (replicate k rateLimitExceeded
                   ++ OpenAiOk (mkCompletion (Some cs)) :: rest) w)
  = Returns "Empty Alt Text"
      (emit (rateLimited (EvOpenAiPost imageUrl) openAiRequestDelay k
             ++ [EvOpenAiPost imageUrl])
         (setOpenAiApi rest w))
  ∧ emptyAltText = "Empty Alt Text"
  ∧ emptyAltText ≠ errorAltText
  ∧ emptyAltText ≠ "".
Proof.
  assert (Hor : Js.orElse (firstCompletionText cs) emptyAltText = emptyAltText).
  { unfold firstCompletionText.
    destruct Hblank as [-> | (c & -> & Hc)]; [reflexivity|]. simpl.
    destruct Hc as [-> | (m & -> & Hm)]; [reflexivity|]. simpl.
    destruct Hm as [-> | (s & -> & Hs)]; [reflexivity|]. simpl.
    by rewrite Hs. }
  split; [|by repeat split].
  unfold generateAltText. simpl openAiApi.
  rewrite generateAltText_loop_retries. simpl generateAltText_loop.
  rewrite Hor, !emit_setOpenAiApi, !emit_emit, !setOpenAiApi_twice.
  reflexivity.
Qed.

Lemma generateAltText_blank_completion_witness :
  blankFirstCompletion [Some (mkChoice (Some (mkMessage (Some "  "))))]
  ∧ generateAltText "https://cdn.example/files/shoe.jpg"
      (setOpenAiApi
         [OpenAiOk (mkCompletion
            (Some [Some (mkChoice (Some (mkMessage (Some "  "))))]))] world0)
    = Returns "Empty Alt Text"
        (emit [EvOpenAiPost "https://cdn.example/files/shoe.jpg"]
           (setOpenAiApi [] world0)).
Proof.
  assert (H : blankFirstCompletion
                [Some (mkChoice (Some (mkMessage (Some "  "))))]).
  { right. eexists. split; [reflexivity|]. right. eexists.
    split; [reflexivity|]. right. eexists. split; reflexivity. }
  split; [exact H|].
  apply (generateAltText_blank_completion
           "https://cdn.example/files/shoe.jpg" 0 [] world0 _ H).
Defined.

(** A response body without a [choices] array does not reach the
    placeholder: the TypeError lands in the [catch] block. *)
Example generateAltText_no_choices_array :
  generateAltText "u" (setOpenAiApi [OpenAiOk (mkCompletion None)] world0)
  = Returns "Error generating alt text"
      (emit [EvOpenAiPost "u"] (setOpenAiApi [] world0)).
Proof. reflexivity. Qed.

(** ** Running the monad *)

Lemma bind_run {A B} (m : M A) (k : A → M B) w :
  (m ≫= k) w =
  match m w with
  | Returns a w' => k a w'
  | Throws e w' => Throws e w'
  | Blocked w' => Blocked w'
  end.
Proof. reflexivity. Qed.

Lemma bind_returns {A B} (m : M A) (k : A → M B) w a w' :
  m w = Returns a w' → (m ≫= k) w = k a w'.
Proof. intros H. by rewrite bind_run, H. Qed.

Lemma log_run e w : log e w = Returns tt (emit [e] w).
Proof. reflexivity. Qed.

Lemma setOpenAiApi_same w : setOpenAiApi (openAiApi w) w = w.
Proof. by destruct w. Qed.

Lemma setShopifyApi_same w : setShopifyApi (shopifyApi w) w = w.
Proof. by destruct w. Qed.

Lemma nonEmpty_Some o s : nonEmpty o = Some s → o = Some s ∧ s ≠ "".
Proof.
  destruct o as [[|c t]|]; simpl; intros H; simplify_eq. by split.
Qed.

Lemma nonEmpty_of_Some s : s ≠ "" → nonEmpty (Some s) = Some s.
Proof. by destruct s. Qed.

Lemma truthy_true s : Js.truthy s = true ↔ s ≠ "".
Proof. destruct s; simpl; split; congruence. Qed.

(** Observations distribute over concatenation of traces. *)
Lemma openAiPosts_app t1 t2 :
  openAiPosts (t1 ++ t2) = openAiPosts t1 ++ openAiPosts t2.
Proof. apply omap_app. Qed.
Lemma chunkSizes_app t1 t2 :
  chunkSizes (t1 ++ t2) = chunkSizes t1 ++ chunkSizes t2.
Proof. apply omap_app. Qed.
Lemma sinkWrites_app t1 t2 :
  sinkWrites (t1 ++ t2) = sinkWrites t1 ++ sinkWrites t2.
Proof. apply omap_app. Qed.
Lemma shopifyPosts_app t1 t2 :
  shopifyPosts (t1 ++ t2) = shopifyPosts t1 ++ shopifyPosts t2.
Proof. apply omap_app. Qed.
Lemma cacheWrites_app t1 t2 :
  cacheWrites (t1 ++ t2) = cacheWrites t1 ++ cacheWrites t2.
Proof. apply omap_app. Qed.
Lemma warnings_app t1 t2 :
  warnings (t1 ++ t2) = warnings t1 ++ warnings t2.
Proof. apply omap_app. Qed.

(** ** Enrichment engine: one row *)

(** A generation call either returns, having used up exactly one reply
    that is not a rate limit, or finds no such reply in the script; it never
    throws.  What it returns is never empty. *)
Lemma generateAltText_loop_outcome imageUrl script w :
  match generateAltText_loop imageUrl script w with
  | Returns text w' =>
      ∃ evs script',
        w' = emit evs (setOpenAiApi script' w)
        ∧ terminals script = S (terminals script')
        ∧ text ≠ ""
        ∧ Forall (callEvent imageUrl) evs
  | Blocked _ => terminals script = 0
  | Throws _ _ => False
  end.
Proof.
  revert w. induction script as [|reply script IH]; intros w; [reflexivity|].
  simpl. destruct reply as [body|code].
  - destruct (choices body) as [cs|];
      exists [EvOpenAiPost imageUrl], script; rewrite emit_setOpenAiApi.
    + split; [done|]. split; [done|]. split; [|repeat constructor].
      destruct (firstCompletionText cs) as [[|c t]|]; done.
    + split; [done|]. split; [done|]. split; [done|repeat constructor].
  - unfold isTerminal. destruct (isRateLimitCode code) eqn:Hrl; simpl.
    + specialize (IH (emit [EvSleep openAiRequestDelay]
                        (emit [EvOpenAiPost imageUrl] (setOpenAiApi script w)))).
      destruct (generateAltText_loop _ _ _) as [text w'| |]; [|done..].
      destruct IH as (evs & script' & -> & Hterm & Htext & Hevs).
      exists ([EvOpenAiPost imageUrl; EvSleep openAiRequestDelay] ++ evs),
        script'.
      rewrite !emit_setOpenAiApi, !emit_emit, !setOpenAiApi_twice.
      split; [reflexivity|]. split; [done|]. split; [done|].
      repeat (constructor; [unfold callEvent; auto|]). done.
    + exists [EvOpenAiPost imageUrl], script. rewrite emit_setOpenAiApi.
      split; [done|]. split; [done|]. split; [done|repeat constructor].
Qed.

Lemma callEvents_quiet imageUrl evs :
  Forall (callEvent imageUrl) evs → chunkSizes evs = [] ∧ sinkWrites evs = [].
Proof.
  induction 1 as [|e evs [->| ->] _ IH]; [done|..]; simpl; by destruct IH.
Qed.

Lemma truthyValue_Some o v :
  truthyValue o = Some v → o = Some v ∧ Js.truthyV v = true.
Proof.
  destruct o as [v'|]; simpl; [|done].
  destruct (Js.truthyV v') eqn:Hv; intros ?; simplify_eq. by split.
Qed.

Lemma truthyValue_of_Some v :
  Js.truthyV v = true → truthyValue (Some v) = Some v.
Proof. simpl. by intros ->. Qed.

(** What a row matches is truthy: a non-empty string of the store or a
    member of [Object.prototype]. *)
Lemma matchFile_truthy m fileName link :
  matchFile m fileName = Some link → Js.truthyV link = true.
Proof.
  unfold matchFile. destruct (truthyValue (Js.getProp m fileName)) eqn:H1.
  - intros ?; simplify_eq. by apply truthyValue_Some in H1 as [_ ?].
  - intros H2. by apply truthyValue_Some in H2 as [_ ?].
Qed.

(** The objects that the reader builds. *)
Lemma rowObject_namedByString row : namedByString (rowObject row).
Proof.
  intros name. unfold rowObject. rewrite lookup_fmap.
  by destruct (row !! "File Name").
Qed.

Lemma rowObject_fileNameField row :
  fileNameField (rowObject row) = Js.trim <$> row !! "File Name".
Proof.
  unfold fileNameField, rowObject. rewrite lookup_fmap.
  by destruct (row !! "File Name").
Qed.

Lemma rowObject_truthy row k :
  Js.truthyVO (rowObject row !! k) = Js.truthyO (row !! k).
Proof. unfold rowObject. rewrite lookup_fmap. by destruct (row !! k). Qed.

Lemma trimField_run row w :
  namedByString row →
  trimField (row !! "File Name") w = Returns (fileNameField row) w.
Proof.
  intros Hrow. unfold fileNameField.
  destruct (row !! "File Name") as [[s|name]|] eqn:Hname; try done.
  by destruct (Hrow name).
Qed.

(** A row object whose file name is not a string makes [processRow]
    throw. *)
Lemma processRow_not_a_string i row name w :
  row !! "File Name" = Some (Inherited name) →
  processRow i row w = Throws TypeError w.
Proof. intros Hname. unfold processRow. by rewrite bind_run, Hname. Qed.

(** Rows that do not need a generation call are processed without
    touching the generation API. *)
Lemma processRow_no_call i row w :
  namedByString row →
  resolve (shopifyFiles w) row = None
  ∨ Js.truthyVO (row !! "Alt Text") = true →
  ∃ row' evs,
    processRow i row w = Returns row' (emit evs w)
    ∧ enriched (shopifyFiles w) row row'
    ∧ openAiPosts evs = [] ∧ chunkSizes evs = [] ∧ sinkWrites evs = []
    ∧ (resolve (shopifyFiles w) row = None → row' = row ∧ warnings evs ≠ []).
Proof.
  intros Hrow Hcase. unfold processRow, resolve in *.
  rewrite bind_run, trimField_run by done. cbv beta iota.
  destruct (nonEmpty (fileNameField row)) as [fileName|] eqn:Hname;
    simpl in *.
  - rewrite bind_run. simpl.
    destruct (matchFile (shopifyFiles w) fileName) as [link|] eqn:Hmatch.
    + destruct Hcase as [?|Halt]; [done|].
      rewrite lookup_insert_ne by done. rewrite Halt. simpl.
      exists (<["Updated Link" := link]> row), [].
      rewrite emit_nil. split; [done|]. split; [|done].
      apply enriched_kept; [|done]. unfold resolve. by rewrite Hname.
    + exists row, [EvWarn (NoMatch (i + 1) fileName)].
      split; [done|]. split; [|done].
      apply enriched_skipped. unfold resolve. by rewrite Hname.
  - exists row, [EvWarn (NoFileName (i + 1))].
    split; [done|]. split; [|done].
    apply enriched_skipped. unfold resolve. by rewrite Hname.
Qed.

(** A row is processed unless it needs a generation call that the script
    cannot end. *)
Lemma processRow_outcome i row w :
  namedByString row →
  match processRow i row w with
  | Returns row' w' =>
      ∃ evs script',
        w' = emit evs (setOpenAiApi script' w)
        ∧ enriched (shopifyFiles w) row row'
        ∧ terminals (openAiApi w) ≤ S (terminals script')
        ∧ chunkSizes evs = [] ∧ sinkWrites evs = []
  | Blocked _ => terminals (openAiApi w) = 0
  | Throws _ _ => False
  end.
Proof.
  intros Hrow.
  destruct (resolve (shopifyFiles w) row) as [link|] eqn:Hres;
    [destruct (Js.truthyVO (row !! "Alt Text")) eqn:Halt|].
  2:{ unfold processRow. unfold resolve in Hres.
      rewrite bind_run, trimField_run by done. cbv beta iota.
      destruct (nonEmpty (fileNameField row)) as [fileName|]
        eqn:Hname; [|done]. simpl in Hres.
      rewrite bind_run. simpl. rewrite Hres.
      rewrite lookup_insert_ne by done. rewrite Halt.
      change (negb false) with true. cbv iota. rewrite lookup_insert_eq.
      rewrite truthyValue_of_Some by (by eapply matchFile_truthy).
      rewrite bind_run. unfold generateAltText.
      pose proof (generateAltText_loop_outcome link (openAiApi w) w) as Hgen.
      destruct (generateAltText_loop _ _ _) as [text w'| |]; [|done..].
      destruct Hgen as (evs & script' & -> & Hterm & Htext & Hevs).
      simpl. exists evs, script'. split; [done|]. split.
      { apply enriched_generated; try done. unfold resolve.
        by rewrite Hname. }
      split; [lia|]. by eapply callEvents_quiet. }
  all: destruct (processRow_no_call i row w Hrow)
         as (row' & evs & -> & Henr & _ & Hc & Hs & _); [auto|].
  all: exists evs, (openAiApi w); rewrite setOpenAiApi_same.
  all: repeat split; try done; lia.
Qed.

(** [processRow] assigns ["Updated Link"] and ["Alt Text"] only. *)
Lemma enriched_namedByString m row row' :
  enriched m row row' → namedByString row → namedByString row'.
Proof.
  intros Henr Hrow name. destruct Henr;
    rewrite ?lookup_insert_ne by done; apply Hrow.
Qed.

(** ** Suffixes of strings *)

Lemma rev_app_append s1 s2 acc :
  String.rev_app (s1 +:+ s2) acc = String.rev_app s2 (String.rev_app s1 acc).
Proof. revert acc. induction s1 as [|a s1 IH]; intros acc; simpl; auto. Qed.

Lemma rev_app_acc s acc : String.rev_app s acc = String.rev s +:+ acc.
Proof.
  unfold String.rev. revert acc.
  induction s as [|a s IH]; intros acc; [reflexivity|].
  simpl. rewrite (IH (String a "")), IH.
  generalize (String.rev_app s ""). intros t.
  induction t as [|b t IHt]; [reflexivity|].
  change (String b t +:+ String a acc) with (String b (t +:+ String a acc)).
  rewrite IHt. reflexivity.
Qed.

Lemma rev_append s1 s2 : String.rev (s1 +:+ s2) = String.rev s2 +:+ String.rev s1.
Proof. unfold String.rev at 1. by rewrite rev_app_append, rev_app_acc. Qed.

Lemma prefix_append p t : String.prefix p (p +:+ t) = true.
Proof.
  induction p as [|a p IH]; [by destruct t|].
  change (String a p +:+ t) with (String a (p +:+ t)). simpl.
  destruct (Ascii.ascii_dec a a); [exact IH | done].
Qed.

Lemma endsWith_append s suffix : Js.endsWith suffix (s +:+ suffix) = true.
Proof. unfold Js.endsWith. rewrite rev_append. apply prefix_append. Qed.

Lemma length_append s1 s2 :
  String.length (s1 +:+ s2) = String.length s1 + String.length s2.
Proof. induction s1 as [|a s1 IH]; [reflexivity|]. simpl. by rewrite <- IH. Qed.

Lemma substring_append s t :
  String.substring 0 (String.length s) (s +:+ t) = s.
Proof.
  induction s as [|a s IH]; [by destruct t|].
  change (String a s +:+ t) with (String a (s +:+ t)). simpl. by rewrite IH.
Qed.

Lemma dropEnd_append s suffix :
  Js.dropEnd (String.length suffix) (s +:+ suffix) = s.
Proof.
  unfold Js.dropEnd. rewrite length_append.
  replace (String.length s + String.length suffix - String.length suffix)
    with (String.length s) by lia.
  apply substring_append.
Qed.

Lemma append_inj_l s1 s2 t : s1 +:+ t = s2 +:+ t → s1 = s2.
Proof.
  intros H. rewrite <- (dropEnd_append s1 t), <- (dropEnd_append s2 t).
  by rewrite H.
Qed.

(** The regular expression removes one trailing [_product] or
    [_collection], and nothing else. *)
Lemma cleanFileName_product s : cleanFileName (s +:+ "_product") = s.
Proof.
  unfold cleanFileName. rewrite endsWith_append.
  apply (dropEnd_append s "_product").
Qed.

Lemma cleanFileName_collection s : cleanFileName (s +:+ "_collection") = s.
Proof.
  unfold cleanFileName.
  assert (Js.endsWith "_product" (s +:+ "_collection") = false) as ->.
  { unfold Js.endsWith. rewrite rev_append. reflexivity. }
  rewrite endsWith_append. apply (dropEnd_append s "_collection").
Qed.

Lemma cleanFileName_other s :
  Js.endsWith "_product" s = false → Js.endsWith "_collection" s = false →
  cleanFileName s = s.
Proof. unfold cleanFileName. by intros -> ->. Qed.

(** ** Enrichment engine: the two lookups *)

Lemma getProp_own m k :
  k ∉ Js.objectPrototype → Js.getProp m k = Str <$> m !! k.
Proof.
  intros Hk. unfold Js.getProp. destruct (m !! k); [done|].
  by rewrite bool_decide_false.
Qed.

Lemma getProp_inherited m k :
  k ∈ Js.objectPrototype → m !! k = None → Js.getProp m k = Some (Inherited k).
Proof. intros Hk Hm. unfold Js.getProp. by rewrite Hm, bool_decide_true. Qed.

(** No member of [Object.prototype] ends with one of the two suffixes. *)
Lemma objectPrototype_unsuffixed k :
  k ∈ Js.objectPrototype →
  Js.endsWith "_product" k = false ∧ Js.endsWith "_collection" k = false.
Proof.
  unfold Js.objectPrototype. intros Hk.
  repeat (apply elem_of_cons in Hk as [->|Hk]; [by vm_compute|]).
  by apply elem_of_nil in Hk.
Qed.

Lemma objectPrototype_nonempty k : k ∈ Js.objectPrototype → k ≠ "".
Proof.
  unfold Js.objectPrototype. intros Hk ->.
  repeat (apply elem_of_cons in Hk as [Hk|Hk]; [discriminate|]).
  by apply elem_of_nil in Hk.
Qed.

(** The fallback lookup of lines 369-377, for a row of the input whose
    trimmed file name is not empty and whose first lookup gives nothing
    truthy: the engine reads the property named by the file name with one
    trailing [_product] or [_collection] removed, once, and the row is
    resolved to what that gives, or skipped with one warning. *)
Lemma processRow_fallback i row w fileName :
  Js.trim <$> row !! "File Name" = Some fileName →
  fileName ≠ "" →
  truthyValue (Js.getProp (shopifyFiles w) fileName) = None →
  processRow i (rowObject row) w =
    match truthyValue (Js.getProp (shopifyFiles w) (cleanFileName fileName)) with
    | None =>
        Returns (rowObject row) (emit [EvWarn (NoMatch (i + 1) fileName)] w)
    | Some link =>
        if Js.truthyO (row !! "Alt Text")
        then Returns (<["Updated Link" := link]> (rowObject row)) w
        else (altText ← generateAltText link;
              mret (<["Alt Text" := Str altText]>
                      (<["Updated Link" := link]> (rowObject row)))) w
    end.
Proof.
  intros Hname Hnonempty Hmiss. unfold processRow.
  rewrite bind_run, trimField_run by apply rowObject_namedByString.
  cbv beta iota. rewrite rowObject_fileNameField, Hname.
  rewrite (nonEmpty_of_Some _ Hnonempty).
  rewrite bind_run. simpl. unfold matchFile. rewrite Hmiss.
  destruct (truthyValue (Js.getProp (shopifyFiles w) (cleanFileName fileName)))
    as [link|] eqn:Hclean; [|reflexivity].
  rewrite lookup_insert_ne by done. rewrite rowObject_truthy.
  destruct (Js.truthyO (row !! "Alt Text")); [reflexivity|].
  change (negb false) with true. cbv iota. rewrite lookup_insert_eq.
  apply truthyValue_Some in Hclean as [_ Hlink].
  by rewrite (truthyValue_of_Some _ Hlink).
Qed.

(** C6: the two lookups are property reads of a plain object, which also
    find what the object inherits.  Take a row whose trimmed file name,
    with one trailing [_product] or [_collection] removed, is the name of a
    member of [Object.prototype], and a store that has no entry under the
    file name nor under the cleaned name: neither lookup finds anything in
    the store.  The row is not skipped and there is no warning: it is
    resolved to the inherited member, and when it has no alt text a
    generation request is made for that member and the alt text is set to
    what the call returns. *)
Theorem processRow_matches_inherited_member
    (i : nat) (row : Row) (w : World) (fileName : string)
    (Hname : Js.trim <$> row !! "File Name" = Some fileName)
    (Hmember : cleanFileName fileName ∈ Js.objectPrototype)
    (Hmiss : shopifyFiles w !! fileName = None)
    (Hmiss' : shopifyFiles w !! cleanFileName fileName = None) :
  let member := Inherited (cleanFileName fileName) in
  matchFile (shopifyFiles w) fileName = Some member
  ∧ processRow i (rowObject row) w =
      (if Js.truthyO (row !! "Alt Text")
       then Returns (<["Updated Link" := member]> (rowObject row)) w
       else (altText ← generateAltText member;
             mret (<["Alt Text" := Str altText]>
                     (<["Updated Link" := member]> (rowObject row)))) w)
  ∧ (Js.truthyO (row !! "Alt Text") = false →
     ∀ reply rest, openAiApi w = reply :: rest → isTerminal reply = true →
       ∃ altText,
         altText ≠ ""
         ∧ processRow i (rowObject row) w
           = Returns (<["Alt Text" := Str altText]>
                        (<["Updated Link" := member]> (rowObject row)))
               (emit [EvOpenAiPost member] (setOpenAiApi rest w))).
Proof.
  intros member.
  assert (Hnonempty : fileName ≠ "").
  { intros ->. by apply objectPrototype_nonempty in Hmember. }
  assert (Hmatch : matchFile (shopifyFiles w) fileName = Some member).
  { unfold matchFile.
    destruct (decide (fileName ∈ Js.objectPrototype)) as [Hin|Hout].
    - destruct (objectPrototype_unsuffixed _ Hin) as [Hp Hc].
      subst member. rewrite (cleanFileName_other _ Hp Hc).
      by rewrite getProp_inherited.
    - rewrite getProp_own, Hmiss by done. simpl.
      by rewrite getProp_inherited. }
  assert (Hrun : processRow i (rowObject row) w =
      (if Js.truthyO (row !! "Alt Text")
       then Returns (<["Updated Link" := member]> (rowObject row)) w
       else (altText ← generateAltText member;
             mret (<["Alt Text" := Str altText]>
                     (<["Updated Link" := member]> (rowObject row)))) w)).
  { unfold processRow.
    rewrite bind_run, trimField_run by apply rowObject_namedByString.
    cbv beta iota. rewrite rowObject_fileNameField, Hname.
    rewrite (nonEmpty_of_Some _ Hnonempty).
    rewrite bind_run. simpl. rewrite Hmatch.
    rewrite lookup_insert_ne by done. rewrite rowObject_truthy.
    destruct (Js.truthyO (row !! "Alt Text")); [reflexivity|].
    change (negb false) with true. cbv iota. by rewrite lookup_insert_eq. }
  split; [done|]. split; [done|].
  intros Halt reply rest Hapi Hterminal. rewrite Hrun, Halt, bind_run.
  unfold generateAltText. rewrite Hapi.
  pose proof (generateAltText_loop_outcome member (reply :: rest) w) as Hgen.
  cbn [generateAltText_loop] in *.
  destruct reply as [body|code].
  - destruct (choices body) as [cs|]; destruct Hgen as (_ & _ & _ & _ & Ht & _);
      eexists; (split; [exact Ht|]); simpl; by rewrite emit_setOpenAiApi.
  - simpl in Hterminal. apply negb_true_iff in Hterminal.
    rewrite Hterminal in *.
    destruct Hgen as (_ & _ & _ & _ & Ht & _).
    eexists; (split; [exact Ht|]); simpl; by rewrite emit_setOpenAiApi.
Qed.

Lemma processRow_matches_inherited_member_witness :
  matchFile shoeIndex "constructor" = Some (Inherited "constructor")
  ∧ processRow 0 (rowObject {[ "File Name" := "constructor" ]})
      (setOpenAiApi [shoeReply] (setShopifyFiles shoeIndex world0))
    = Returns
        (<["Alt Text" := Str "A red shoe."]>
           (<["Updated Link" := Inherited "constructor"]>
              (rowObject {[ "File Name" := "constructor" ]})))
        (emit [EvOpenAiPost (Inherited "constructor")]
           (setOpenAiApi [] (setShopifyFiles shoeIndex world0))).
Proof.
  assert (Hname : Js.trim <$> ({[ "File Name" := "constructor" ]} : Row)
                                !! "File Name"
                  = Some "constructor") by (vm_compute; reflexivity).
  assert (Hmember : cleanFileName "constructor" ∈ Js.objectPrototype).
  { change (cleanFileName "constructor") with "constructor".
    unfold Js.objectPrototype. constructor. }
  destruct (processRow_matches_inherited_member 0
              {[ "File Name" := "constructor" ]}
              (setOpenAiApi [shoeReply] (setShopifyFiles shoeIndex world0))
              "constructor" Hname Hmember eq_refl eq_refl)
    as (Hmatch & Hrun & _).
  split; [exact Hmatch|]. rewrite Hrun. vm_compute. reflexivity.
Defined.

(** X16: the suffix fallback.  Take a row of the input whose trimmed file
    name is not empty and for which the first lookup gives nothing truthy.
    Then the row is resolved to what the lookup of the file name with one
    trailing [_product] or [_collection] removed gives (the alt text is
    generated from it unless the row has one), or, when that gives nothing
    truthy either, it is left as it was with one warning and no request.
    A file name that ends with one of the two suffixes is no member of
    [Object.prototype], so its first lookup looks in the store only; and
    ["shoe.jpg_product"] resolves to what is stored under ["shoe.jpg"]
    when the store has nothing under ["shoe.jpg_product"]. *)
Theorem processRow_suffix_fallback
    (i : nat) (row : Row) (w : World) (fileName : string)
    (Hname : Js.trim <$> row !! "File Name" = Some fileName)
    (Hnonempty : fileName ≠ "")
    (Hmiss : truthyValue (Js.getProp (shopifyFiles w) fileName) = None) :
  processRow i (rowObject row) w =
    match truthyValue (Js.getProp (shopifyFiles w) (cleanFileName fileName)) with
    | None =>
        Returns (rowObject row) (emit [EvWarn (NoMatch (i + 1) fileName)] w)
    | Some link =>
        if Js.truthyO (row !! "Alt Text")
        then Returns (<["Updated Link" := link]> (rowObject row)) w
        else (altText ← generateAltText link;
              mret (<["Alt Text" := Str altText]>
                      (<["Updated Link" := link]> (rowObject row)))) w
    end
  ∧ (∀ s, cleanFileName (s +:+ "_product") = s
          ∧ cleanFileName (s +:+ "_collection") = s
          ∧ cleanFileName ((s +:+ "_product") +:+ "_product") = s +:+ "_product")
  ∧ (Js.endsWith "_product" fileName = false →
     Js.endsWith "_collection" fileName = false →
     cleanFileName fileName = fileName)
  ∧ (∀ m s, Js.getProp m (s +:+ "_product") = Str <$> m !! (s +:+ "_product")
            ∧ Js.getProp m (s +:+ "_collection")
              = Str <$> m !! (s +:+ "_collection"))
  ∧ (fileName = "shoe.jpg_product" →
     ∀ url, shopifyFiles w !! "shoe.jpg" = Some url → url ≠ "" →
       matchFile (shopifyFiles w) fileName = Some (Str url)).
Proof.
  split; [by apply processRow_fallback|]. split; [|split; [|split]].
  - intros s. split; [apply cleanFileName_product|].
    split; [apply cleanFileName_collection|].
    apply (cleanFileName_product (s +:+ "_product")).
  - apply cleanFileName_other.
  - intros m s. split; apply getProp_own; intros Hin;
      apply objectPrototype_unsuffixed in Hin as [Hp Hc].
    + by rewrite endsWith_append in Hp.
    + by rewrite endsWith_append in Hc.
  - intros -> url Hurl Hne. unfold matchFile. rewrite Hmiss.
    change (cleanFileName "shoe.jpg_product") with "shoe.jpg".
    unfold Js.getProp. rewrite Hurl. apply truthyValue_of_Some.
    by apply truthy_true.
Qed.

Lemma processRow_suffix_fallback_witness :
  processRow 0 (rowObject shoeProductRow)
    (setOpenAiApi [shoeReply] (setShopifyFiles shoeIndex world0))
  = Returns
      (<["Alt Text" := Str "A red shoe."]>
         (<["Updated Link" := Str "https://cdn.example/files/shoe.jpg?v=1"]>
            (rowObject shoeProductRow)))
      (emit [EvOpenAiPost (Str "https://cdn.example/files/shoe.jpg?v=1")]
         (setOpenAiApi [] (setShopifyFiles shoeIndex world0)))
  ∧ matchFile shoeIndex "shoe.jpg_product"
    = Some (Str "https://cdn.example/files/shoe.jpg?v=1").
Proof.
  assert (Hname : Js.trim <$> shoeProductRow !! "File Name"
                  = Some "shoe.jpg_product") by (vm_compute; reflexivity).
  destruct (processRow_suffix_fallback 0 shoeProductRow
              (setOpenAiApi [shoeReply] (setShopifyFiles shoeIndex world0))
              "shoe.jpg_product" Hname ltac:(discriminate) eq_refl)
    as (Hrun & _ & _ & _ & Hshoe).
  split.
  - rewrite Hrun. vm_compute. reflexivity.
  - apply (Hshoe eq_refl); [reflexivity | discriminate].
Defined.

(** Without any entry for the cleaned name the row is skipped. *)
Example processRow_skips_unknown_file :
  processRow 30 (rowObject {[ "File Name" := "boot.jpg_product_product" ]})
    (setShopifyFiles {[ "boot.jpg" := "https://cdn.example/files/boot.jpg" ]}
       world0)
  = Returns (rowObject {[ "File Name" := "boot.jpg_product_product" ]})
      (emit [EvWarn (NoMatch 31 "boot.jpg_product_product")]
         (setShopifyFiles
            {[ "boot.jpg" := "https://cdn.example/files/boot.jpg" ]} world0)).
Proof. vm_compute. reflexivity. Qed.

(** ** Enrichment engine: chunks and batches *)

Ltac world_eq :=
  apply World_eq; cbn [cacheFile shopifyFiles shopifyApi openAiApi trace
                       emit setOpenAiApi setShopifyApi setShopifyFiles
                       setCacheFile];
  rewrite <- ?app_assoc, ?app_nil_r; reflexivity.

Lemma openAiChunkSize_pos : 0 < openAiChunkSize.
Proof. unfold openAiChunkSize. lia. Qed.

Lemma batchSize_pos : 0 < batchSize.
Proof. unfold batchSize. lia. Qed.

Lemma slice_length {A} (l : list A) i size :
  length (slice i (i + size) l) = size `min` (length l - i).
Proof.
  unfold slice. rewrite length_take, length_drop.
  replace (i + size - i) with size by lia. reflexivity.
Qed.

Lemma slice_drop {A} (l : list A) i size :
  drop i l = slice i (i + size) l ++ drop (i + size) l.
Proof.
  unfold slice. replace (i + size - i) with size by lia.
  rewrite <- (take_drop size (drop i l)) at 1. f_equal.
  rewrite drop_drop. reflexivity.
Qed.

(** Writing a processed chunk back at its place. *)
Lemma splice_chunk {A} (l chunk' : list A) i size :
  i < length l → length chunk' = size `min` (length l - i) →
  let l1 := take i l ++ chunk' ++ drop (i + size) l in
  length l1 = length l
  ∧ take (i + size) l1 = take i l ++ chunk'
  ∧ drop (i + size) l1 = drop (i + size) l.
Proof.
  intros Hi Hlen l1. subst l1.
  assert (Htake : length (take i l) = i) by (rewrite length_take; lia).
  destruct (decide (size ≤ length l - i)) as [Hle|Hgt].
  - assert (Hlen' : length (take i l ++ chunk') = i + size)
      by (rewrite length_app; lia).
    rewrite (app_assoc (take i l)). split; [|split].
    + rewrite length_app, Hlen', length_drop. lia.
    + by rewrite take_app_length'.
    + by rewrite drop_app_length'.
  - rewrite (drop_ge l (i + size)) by lia. rewrite app_nil_r.
    assert (Hlen' : length (take i l ++ chunk') = length l)
      by (rewrite length_app; lia).
    split; [done|]. split.
    + apply take_ge. lia.
    + apply drop_ge. lia.
Qed.

Lemma forEachRow_outcome i chunk w :
  Forall namedByString chunk →
  match forEachRow i chunk w with
  | Returns chunk' w' =>
      ∃ evs script',
        w' = emit evs (setOpenAiApi script' w)
        ∧ Forall2 (enriched (shopifyFiles w)) chunk chunk'
        ∧ terminals (openAiApi w) ≤ terminals script' + length chunk
        ∧ chunkSizes evs = [] ∧ sinkWrites evs = []
  | Blocked _ => terminals (openAiApi w) < length chunk
  | Throws _ _ => False
  end.
Proof.
  revert w. induction chunk as [|row chunk IH]; intros w Hnamed.
  - simpl. exists [], (openAiApi w).
    rewrite emit_nil, setOpenAiApi_same. repeat split; [constructor | lia].
  - apply Forall_cons in Hnamed as [Hnamed1 Hnamed].
    cbn [forEachRow]. rewrite bind_run.
    pose proof (processRow_outcome i row w Hnamed1) as Hrow.
    destruct (processRow i row w) as [row' w1| |]; [|done|simpl; lia].
    destruct Hrow as (evs1 & s1 & -> & Henr & Hterm & Hc & Hs).
    rewrite bind_run.
    specialize (IH (emit evs1 (setOpenAiApi s1 w)) Hnamed).
    destruct (forEachRow i chunk _) as [chunk' w2| |];
      cbn [shopifyFiles openAiApi emit setOpenAiApi] in IH;
      [|done|simpl; lia].
    destruct IH as (evs2 & s2 & -> & Hall & Hterm2 & Hc2 & Hs2).
    exists (evs1 ++ evs2), s2. split; [world_eq|].
    split; [by constructor|]. split; [simpl; lia|].
    by rewrite chunkSizes_app, sinkWrites_app, Hc, Hc2, Hs, Hs2.
Qed.

(** The chunk loop from index [i] on: the rows before [i] are not touched,
    the others are processed in order, chunk by chunk. *)
Lemma chunkLoop_outcome fuel i rows w :
  length rows - i < fuel →
  Forall namedByString (drop i rows) →
  match chunkLoop fuel i rows w with
  | Returns rows' w' =>
      ∃ tail evs script',
        rows' = take i rows ++ tail
        ∧ w' = emit evs (setOpenAiApi script' w)
        ∧ Forall2 (enriched (shopifyFiles w)) (drop i rows) tail
        ∧ terminals (openAiApi w) ≤ terminals script' + (length rows - i)
        ∧ chunkSizes evs = sliceSizes fuel openAiChunkSize (length rows - i)
        ∧ sinkWrites evs = []
  | Blocked _ => terminals (openAiApi w) < length rows - i
  | Throws _ _ => False
  end.
Proof.
  pose proof openAiChunkSize_pos as Hpos.
  revert i rows w.
  induction fuel as [|fuel IH]; intros i rows w Hfuel Hnamed; [lia|].
  cbn [chunkLoop sliceSizes]. case_bool_decide as Hi.
  - rewrite bool_decide_true by lia.
    rewrite bind_run, log_run, bind_run.
    set (chunk := slice i (i + openAiChunkSize) rows).
    rewrite (slice_drop rows i openAiChunkSize) in Hnamed.
    apply Forall_app in Hnamed as [Hnamed1 Hnamed2]. fold chunk in Hnamed1.
    pose proof (forEachRow_outcome i chunk
                  (emit [EvChunk (length chunk)] w) Hnamed1) as Hchunk.
    assert (Hlen : length chunk = openAiChunkSize `min` (length rows - i))
      by apply slice_length.
    destruct (forEachRow i chunk _) as [chunk' w1| |];
      cbn [shopifyFiles openAiApi emit setOpenAiApi] in Hchunk;
      [|done|lia].
    destruct Hchunk as (evs1 & s1 & -> & Hall & Hterm & Hc & Hs).
    rewrite bind_run. unfold sleep. rewrite log_run.
    assert (Hlen' : length chunk' = openAiChunkSize `min` (length rows - i))
      by (by rewrite <- (Forall2_length _ _ _ Hall)).
    destruct (splice_chunk rows chunk' i openAiChunkSize Hi Hlen')
      as (Hl1 & Htake & Hdrop).
    set (rows1 := take i rows ++ chunk' ++ drop (i + openAiChunkSize) rows) in *.
    match goal with |- context [chunkLoop fuel _ rows1 ?w2] =>
      specialize (IH (i + openAiChunkSize) rows1 w2) end.
    rewrite Hl1 in IH. specialize (IH ltac:(lia)).
    rewrite Hdrop in IH. specialize (IH Hnamed2).
    destruct (chunkLoop fuel _ rows1 _) as [rows' w3| |];
      cbn [shopifyFiles openAiApi emit setOpenAiApi] in IH;
      [|done|lia].
    destruct IH as (tail & evs2 & s2 & -> & -> & Hall2 & Hterm2 & Hc2 & Hs2).
    exists (chunk' ++ tail),
      ([EvChunk (length chunk)] ++ evs1 ++ [EvSleep openAiChunkDelay] ++ evs2),
      s2.
    split; [by rewrite Htake, <- app_assoc|]. split; [world_eq|].
    split.
    { rewrite (slice_drop rows i openAiChunkSize). by apply Forall2_app. }
    split; [lia|]. split.
    + rewrite !chunkSizes_app, Hc, Hc2. simpl. rewrite Hlen. do 2 f_equal. lia.
    + rewrite !sinkWrites_app, Hs, Hs2. reflexivity.
  - rewrite bool_decide_false by lia.
    exists [], [], (openAiApi w).
    rewrite emit_nil, setOpenAiApi_same, app_nil_r.
    rewrite take_ge, drop_ge by lia. repeat split; [constructor | lia].
Qed.

Lemma processBatch_outcome rows w :
  Forall namedByString rows →
  match processBatch rows w with
  | Returns _ w' =>
      ∃ rows' evs script',
        w' = emit evs (setOpenAiApi script' w)
        ∧ Forall2 (enriched (shopifyFiles w)) rows rows'
        ∧ terminals (openAiApi w) ≤ terminals script' + length rows
        ∧ chunkSizes evs
          = sliceSizes (S (length rows)) openAiChunkSize (length rows)
        ∧ sinkWrites evs = [withoutUpdatedLink <$> rows']
  | Blocked _ => terminals (openAiApi w) < length rows
  | Throws _ _ => False
  end.
Proof.
  intros Hnamed. unfold processBatch. rewrite bind_run.
  pose proof (chunkLoop_outcome (S (length rows)) 0 rows w ltac:(lia) Hnamed)
    as H.
  rewrite Nat.sub_0_r in H.
  destruct (chunkLoop _ _ _ _) as [rows' w1| |]; [|done..].
  destruct H as (tail & evs & script' & -> & -> & Hall & Hterm & Hc & Hs).
  rewrite log_run. change (drop 0 rows) with rows in Hall.
  change (take 0 rows ++ tail) with tail.
  exists tail, (evs ++ [EvWriteRecords (withoutUpdatedLink <$> tail)]), script'.
  split; [world_eq|]. split; [done|]. split; [done|].
  rewrite chunkSizes_app, sinkWrites_app, Hc, Hs. simpl.
  by rewrite app_nil_r.
Qed.

Lemma batchLoop_outcome fuel i batch w :
  length batch - i < fuel →
  Forall namedByString batch →
  match batchLoop fuel i batch w with
  | Returns _ w' =>
      ∃ outs evs script',
        w' = emit evs (setOpenAiApi script' w)
        ∧ Forall2 (enriched (shopifyFiles w)) (drop i batch) (mjoin outs)
        ∧ length <$> outs = sliceSizes fuel batchSize (length batch - i)
        ∧ sinkWrites evs = (fmap withoutUpdatedLink) <$> outs
        ∧ chunkSizes evs = chunkSizesOf (length <$> outs)
        ∧ terminals (openAiApi w) ≤ terminals script' + (length batch - i)
  | Blocked _ => terminals (openAiApi w) < length batch - i
  | Throws _ _ => False
  end.
Proof.
  pose proof batchSize_pos as Hpos.
  revert i w. induction fuel as [|fuel IH]; intros i w Hfuel Hnamed; [lia|].
  cbn [batchLoop sliceSizes]. case_bool_decide as Hi.
  - rewrite bool_decide_true by lia. rewrite bind_run.
    set (b := slice i (i + batchSize) batch).
    assert (Hlen : length b = batchSize `min` (length batch - i))
      by apply slice_length.
    assert (Hnamedb : Forall namedByString b).
    { unfold b, slice. by apply Forall_take, Forall_drop. }
    pose proof (processBatch_outcome b w Hnamedb) as Hb.
    destruct (processBatch b w) as [[] w1| |]; [|done|lia].
    destruct Hb as (rows' & evs1 & s1 & -> & Hall & Hterm & Hc & Hs).
    specialize (IH (i + batchSize) (emit evs1 (setOpenAiApi s1 w)) ltac:(lia)
                  Hnamed).
    destruct (batchLoop fuel _ batch _) as [[] w2| |];
      cbn [shopifyFiles openAiApi emit setOpenAiApi] in IH;
      [|done|lia].
    destruct IH as (outs & evs2 & s2 & -> & Hall2 & Hlens & Hs2 & Hc2 & Hterm2).
    assert (Hlen' : length rows' = length b) by (by rewrite (Forall2_length _ _ _ Hall)).
    exists (rows' :: outs), (evs1 ++ evs2), s2.
    split; [world_eq|]. split.
    { rewrite (slice_drop batch i batchSize). simpl.
      by apply Forall2_app. }
    split.
    { rewrite fmap_cons, Hlens, Hlen', Hlen. do 2 f_equal. lia. }
    split; [by rewrite sinkWrites_app, Hs, Hs2|]. split.
    + rewrite chunkSizes_app, Hc, Hc2, fmap_cons, Hlen'. reflexivity.
    + lia.
  - rewrite bool_decide_false by lia.
    exists [], [], (openAiApi w).
    rewrite emit_nil, setOpenAiApi_same, drop_ge by lia.
    repeat split; [constructor | lia].
Qed.

(** ** Enrichment engine: what the sink receives *)

Lemma rowObjects_namedByString (rows : list Row) :
  Forall namedByString (rowObject <$> rows).
Proof. apply Forall_fmap, Forall_forall. intros row _. apply rowObject_namedByString. Qed.

Lemma written_fmap m (rows : list Row) rows' :
  Forall2 (enriched m) (rowObject <$> rows) rows' →
  Forall2 (written m) rows (withoutUpdatedLink <$> rows').
Proof.
  revert rows'. induction rows as [|row rows IH]; intros rows' Hall.
  - apply Forall2_nil_inv_l in Hall as ->. constructor.
  - rewrite fmap_cons in Hall.
    apply Forall2_cons_inv_l in Hall as (row' & rows'' & Henr & Hall & ->).
    rewrite fmap_cons. constructor; [by exists row' | by apply IH].
Qed.

Lemma written_frame m row out :
  written m row out →
  out !! "Updated Link" = None
  ∧ (∀ key, key ≠ "Alt Text" → key ≠ "Updated Link" →
       out !! key = Str <$> row !! key)
  ∧ (out !! "Alt Text" = Str <$> row !! "Alt Text"
     ∨ Js.truthyO (row !! "Alt Text") = false
       ∧ ∃ altText, altText ≠ "" ∧ out !! "Alt Text" = Some (Str altText)).
Proof.
  intros (row' & Henr & ->). unfold withoutUpdatedLink.
  assert (Hfield : ∀ key, rowObject row !! key = Str <$> row !! key).
  { intros key. unfold rowObject. apply lookup_fmap. }
  split; [apply lookup_delete_eq|]. split.
  - intros key Ha Hu. rewrite lookup_delete_ne by done.
    destruct Henr; by rewrite ?lookup_insert_ne by done.
  - rewrite lookup_delete_ne by done.
    destruct Henr as [_|link _ _|link altText _ Hfalse Hne].
    + by left.
    + left. by rewrite lookup_insert_ne.
    + right. rewrite rowObject_truthy in Hfalse. split; [done|].
      exists altText. by rewrite lookup_insert_eq.
Qed.


(** C3: with [batchSize = 500] and [openAiChunkSize = 30], 1,237 input rows
    are written to the sink in exactly three calls, of 500, 500 and 237
    rows; the written rows are the processed input rows, in input order;
    and the chunks processed are, batch by batch, sixteen of 30 rows and
    one of 20, the same again, then seven of 30 rows and one of 27.  The
    run completes as soon as the generation API has, for each row, a reply
    that is not a rate limit. *)
Theorem processCsv_1237_rows (batch : list Row) (w : World)
    (Hrows : length batch = 1237)
    (Hreplies : 1237 ≤ terminals (openAiApi w)) :
  batchSize = 500 ∧ openAiChunkSize = 30
  ∧ ∃ b1 b2 b3 evs script',
      processCsv batch w = Returns tt (emit evs (setOpenAiApi script' w))
      ∧ sinkWrites evs = [b1; b2; b3]
      ∧ length b1 = 500 ∧ length b2 = 500 ∧ length b3 = 237
      ∧ Forall2 (written (shopifyFiles w)) batch (b1 ++ b2 ++ b3)
      ∧ chunkSizes evs
        = (replicate 16 30 ++ [20]) ++ (replicate 16 30 ++ [20])
          ++ (replicate 7 30 ++ [27]).
Proof.
  split; [reflexivity|]. split; [reflexivity|].
  unfold processCsv.
  pose proof (batchLoop_outcome (S (length batch)) 0 (rowObject <$> batch) w)
    as H.
  rewrite length_fmap in H.
  specialize (H ltac:(lia) (rowObjects_namedByString batch)).
  destruct (batchLoop _ _ _ _) as [[] w'| |]; [|done|lia].
  destruct H as (outs & evs & script' & -> & Hall & Hlens & Hs & Hc & _).
  rewrite Hrows in Hlens.
  assert (Hsizes : sliceSizes 1238 batchSize (1237 - 0) = [500; 500; 237])
    by (vm_compute; reflexivity).
  rewrite Hsizes in Hlens. rewrite Hlens in Hc.
  destruct outs as [|o1 [|o2 [|o3 [|o4 outs]]]]; try discriminate Hlens.
  injection Hlens as Hl1 Hl2 Hl3.
  exists (withoutUpdatedLink <$> o1), (withoutUpdatedLink <$> o2),
    (withoutUpdatedLink <$> o3), evs, script'.
  split; [done|]. split; [done|].
  rewrite !length_fmap. do 3 (split; [done|]). split.
  - rewrite drop_0 in Hall. simpl in Hall.
    rewrite app_nil_r in Hall. rewrite <- !fmap_app.
    by apply written_fmap.
  - rewrite Hc. vm_compute. reflexivity.
Qed.

Lemma processCsv_1237_rows_witness :
  ∃ b1 b2 b3 evs script',
    processCsv (replicate 1237 ∅)
      (setOpenAiApi (replicate 1237 (OpenAiFail None)) world0)
    = Returns tt
        (emit evs
           (setOpenAiApi script'
              (setOpenAiApi (replicate 1237 (OpenAiFail None)) world0)))
    ∧ sinkWrites evs = [b1; b2; b3]
    ∧ length b1 = 500 ∧ length b2 = 500 ∧ length b3 = 237.
Proof.
  destruct (processCsv_1237_rows (replicate 1237 ∅)
              (setOpenAiApi (replicate 1237 (OpenAiFail None)) world0))
    as (_ & _ & b1 & b2 & b3 & evs & script' & Hrun & Hs & H1 & H2 & H3 & _).
  - vm_compute. reflexivity.
  - vm_compute. reflexivity.
  - exists b1, b2, b3, evs, script'. auto.
Defined.

(** ** Enrichment engine: rows that have alt text *)

(** C4: a row whose alt text is not empty keeps it, and processing the row
    makes no request to the generation API: the row is returned with at
    most what it resolves to recorded, the world is the same but for the warning
    of a skipped row, and the scripted replies of the generation API are
    all still unread.  Whatever batch the row is part of, the row written
    for it carries the same alt text. *)
Theorem processRow_keeps_alt_text
    (i : nat) (row : Row) (w : World) (altText : string)
    (Halt : row !! "Alt Text" = Some altText) (Hnonempty : altText ≠ "") :
  (∃ row' evs,
     processRow i (rowObject row) w = Returns row' (emit evs w)
     ∧ row' !! "Alt Text" = Some (Str altText)
     ∧ openAiPosts evs = []
     ∧ openAiApi (emit evs w) = openAiApi w
     ∧ (row' = rowObject row
        ∨ ∃ link, row' = <["Updated Link" := link]> (rowObject row)))
  ∧ ∀ rows k, rows !! k = Some row →
      match processBatch (rowObject <$> rows) w with
      | Returns _ w' =>
          ∃ out evs script',
            w' = emit evs (setOpenAiApi script' w)
            ∧ sinkWrites evs = [out]
            ∧ ∃ row', out !! k = Some row'
                ∧ row' !! "Alt Text" = Some (Str altText)
      | Blocked _ => terminals (openAiApi w) < length rows
      | Throws _ _ => False
      end.
Proof.
  assert (Htruthy : Js.truthyO (row !! "Alt Text") = true).
  { rewrite Halt. by apply truthy_true. }
  assert (Halt' : rowObject row !! "Alt Text" = Some (Str altText)).
  { unfold rowObject. by rewrite lookup_fmap, Halt. }
  split.
  - destruct (processRow_no_call i (rowObject row) w
                (rowObject_namedByString row))
      as (row' & evs & Hrun & Henr & Hposts & _).
    { right. by rewrite rowObject_truthy. }
    exists row', evs. split; [done|].
    destruct Henr as [_|link _ _|link a _ Hfalse _].
    + repeat split; auto.
    + rewrite lookup_insert_ne by done. repeat split; eauto.
    + rewrite rowObject_truthy in Hfalse. congruence.
  - intros rows k Hk.
    pose proof (processBatch_outcome (rowObject <$> rows) w
                  (rowObjects_namedByString rows)) as H.
    rewrite length_fmap in H.
    destruct (processBatch (rowObject <$> rows) w) as [[] w'| |]; [|done..].
    destruct H as (rows' & evs & script' & -> & Hall & _ & _ & Hs).
    apply (written_fmap (shopifyFiles w)) in Hall.
    exists (withoutUpdatedLink <$> rows'), evs, script'.
    split; [done|]. split; [done|].
    destruct (Forall2_lookup_l _ _ _ _ _ Hall Hk) as (row' & Hk' & Hw).
    exists row'. split; [done|].
    destruct (written_frame _ _ _ Hw) as (_ & _ & [Hsame|[Hfalse _]]);
      [|congruence].
    by rewrite Hsame, Halt.
Qed.

Lemma processRow_keeps_alt_text_witness :
  ∃ row' evs,
    processRow 0
      (rowObject {[ "File Name" := "shoe.jpg"; "Alt Text" := "A red shoe" ]})
      (setOpenAiApi [rateLimitExceeded; OpenAiFail None]
         (setShopifyFiles shoeIndex world0))
    = Returns row'
        (emit evs (setOpenAiApi [rateLimitExceeded; OpenAiFail None]
                     (setShopifyFiles shoeIndex world0)))
    ∧ row' !! "Alt Text" = Some (Str "A red shoe")
    ∧ openAiPosts evs = [].
Proof.
  assert (Halt0 : ({[ "File Name" := "shoe.jpg"; "Alt Text" := "A red shoe" ]}
                     : Row) !! "Alt Text" = Some "A red shoe")
    by (vm_compute; reflexivity).
  destruct (processRow_keeps_alt_text 0
              {[ "File Name" := "shoe.jpg"; "Alt Text" := "A red shoe" ]}
              (setOpenAiApi [rateLimitExceeded; OpenAiFail None]
                 (setShopifyFiles shoeIndex world0))
              "A red shoe" Halt0 ltac:(discriminate))
    as ((row' & evs & Hrun & Halt & Hposts & _) & _).
  exists row', evs. auto.
Defined.

(** ** Index builder: one page *)

Lemma mergeUrls_app c urls1 urls2 m :
  mergeUrls c (urls1 ++ urls2) m = mergeUrls c urls2 (mergeUrls c urls1 m).
Proof. apply foldl_app. Qed.

Lemma missingWarnings_app c urls1 urls2 :
  missingWarnings c (urls1 ++ urls2)
  = missingWarnings c urls1 ++ missingWarnings c urls2.
Proof. apply omap_app. Qed.

Lemma forEachEdge_imageEdge c es endCursor w :
  forEachEdge (imageEdge c) es endCursor w
  = Returns (imageCursor endCursor es)
      (emit (missingWarnings c (node <$> es))
         (setShopifyFiles (mergeUrls c (node <$> es) (shopifyFiles w)) w)).
Proof.
  revert endCursor w. induction es as [|e es IH]; intros endCursor w.
  - simpl. f_equal. by destruct w; unfold emit; simpl; rewrite app_nil_r.
  - cbn [forEachEdge]. rewrite bind_run. unfold imageEdge.
    cbn [fmap list_fmap imageCursor mergeUrls missingWarnings foldl omap list_omap].
    destruct (nonEmpty (node e)) as [url|]; rewrite bind_run; simpl;
      rewrite IH; f_equal; world_eq.
Qed.

Lemma forEachImage_run urls w :
  forEachImage urls w
  = Returns tt
      (emit (missingWarnings Products urls)
         (setShopifyFiles (mergeUrls Products urls (shopifyFiles w)) w)).
Proof.
  revert w. induction urls as [|o urls IH]; intros w.
  - simpl. f_equal. by destruct w; unfold emit; simpl; rewrite app_nil_r.
  - cbn [forEachImage]. rewrite bind_run. unfold productImage.
    cbn [mergeUrls missingWarnings foldl omap list_omap].
    destruct (nonEmpty o) as [url|]; simpl; rewrite IH; f_equal; world_eq.
Qed.

Lemma forEachEdge_productEdge es endCursor w :
  forEachEdge productEdge es endCursor w
  = Returns (productCursor endCursor es)
      (emit (missingWarnings Products (mjoin (node <$> es)))
         (setShopifyFiles
            (mergeUrls Products (mjoin (node <$> es)) (shopifyFiles w)) w)).
Proof.
  revert endCursor w. induction es as [|e es IH]; intros endCursor w.
  - simpl. f_equal. by destruct w; unfold emit; simpl; rewrite app_nil_r.
  - cbn [forEachEdge]. rewrite bind_run. unfold productEdge.
    rewrite bind_run, forEachImage_run. simpl. rewrite IH.
    rewrite mergeUrls_app, missingWarnings_app. f_equal. world_eq.
Qed.

(** A page that the server delivers at the first attempt. *)
Lemma fetchPage_run c endCursor d rest w :
  shopifyApi w = ShopifyOk d :: rest →
  fetchPage c endCursor w
  = Returns (pageCursor c endCursor d, pageHasNext c d)
      (emit (EvShopifyPost c (afterArg endCursor)
             :: missingWarnings c (pageUrls c d))
         (setShopifyFiles (mergeUrls c (pageUrls c d) (shopifyFiles w))
            (setShopifyApi rest w))).
Proof.
  intros Hapi. unfold fetchPage. rewrite bind_run.
  unfold safeShopifyQuery. rewrite Hapi. cbn [safeShopifyQuery_loop].
  destruct c; rewrite bind_run;
    rewrite ?forEachEdge_imageEdge, ?forEachEdge_productEdge; simpl;
    f_equal; world_eq.
Qed.

(** ** Index builder: one sweep *)

Lemma missingWarnings_quiet c urls :
  shopifyPosts (missingWarnings c urls) = []
  ∧ cacheWrites (missingWarnings c urls) = [].
Proof.
  induction urls as [|o urls [IH1 IH2]]; [done|].
  unfold missingWarnings. cbn [omap list_omap].
  destruct (nonEmpty o); simpl; auto.
Qed.

Lemma sweepEvents_posts c endCursor ds :
  shopifyPosts (sweepEvents c endCursor ds)
  = (λ a, (c, a)) <$> requestCursors c endCursor ds.
Proof.
  revert endCursor. induction ds as [|d ds IH]; intros endCursor; [done|].
  cbn [sweepEvents requestCursors]. rewrite fmap_cons.
  change (?e :: ?l1 ++ ?l2) with ([e] ++ l1 ++ l2).
  rewrite !shopifyPosts_app, IH.
  by rewrite (proj1 (missingWarnings_quiet c (pageUrls c d))).
Qed.

Lemma sweepEvents_cacheWrites c endCursor ds :
  cacheWrites (sweepEvents c endCursor ds) = [].
Proof.
  revert endCursor. induction ds as [|d ds IH]; intros endCursor; [done|].
  cbn [sweepEvents].
  change (?e :: ?l1 ++ ?l2) with ([e] ++ l1 ++ l2).
  rewrite !cacheWrites_app, IH.
  by rewrite (proj2 (missingWarnings_quiet c (pageUrls c d))).
Qed.


(** The loop over pages that the server delivers without errors. *)
Lemma pageLoop_drained c ds fuel endCursor rest w :
  drained c ds →
  shopifyApi w = (ShopifyOk <$> ds) ++ rest →
  length ds ≤ fuel →
  pageLoop c fuel endCursor w
  = Returns tt
      (emit (sweepEvents c endCursor ds)
         (setShopifyFiles (mergeUrls c (sweepUrls c ds) (shopifyFiles w))
            (setShopifyApi rest w))).
Proof.
  revert fuel endCursor w.
  induction ds as [|d ds IH]; intros fuel endCursor w Hdr Hapi Hfuel; [done|].
  destruct fuel as [|fuel]; [simpl in Hfuel; lia|].
  cbn [pageLoop]. rewrite bind_run.
  erewrite fetchPage_run by exact Hapi.
  unfold sweepUrls. rewrite (fmap_cons (pageUrls c)). cbn [mjoin list_join].
  rewrite mergeUrls_app. cbn [sweepEvents].
  destruct ds as [|d' ds'].
  - simpl in Hdr. rewrite Hdr. simpl. f_equal. world_eq.
  - destruct Hdr as [Hnext Hdr]. rewrite Hnext.
    erewrite IH; [|exact Hdr|reflexivity|simpl in *; lia].
    f_equal. world_eq.
Qed.

Lemma loadCache_run w :
  cacheFile w ≠ Some Malformed →
  loadCache w = Returns tt (setShopifyFiles (cachedStore w) w).
Proof.
  intros Hok. destruct w as [cf m0 sa oa tr]. simpl in Hok.
  destruct cf as [[m|]|]; [reflexivity|done|reflexivity].
Qed.

(** A sweep over pages delivered without errors: it starts from the cache
    file, merges every page and then writes the cache file, once. *)
Lemma fetchImages_drained c ds rest w :
  cacheFile w ≠ Some Malformed →
  drained c ds →
  shopifyApi w = (ShopifyOk <$> ds) ++ rest →
  let m := mergeUrls c (sweepUrls c ds) (cachedStore w) in
  fetchImages c w
  = Returns tt
      (emit (sweepEvents c None ds ++ [EvWriteCache m])
         (setCacheFile (Some (JsonObject m))
            (setShopifyFiles m (setShopifyApi rest w)))).
Proof.
  intros Hok Hdr Hapi m. unfold fetchImages.
  rewrite bind_run, (loadCache_run w Hok), bind_run.
  unfold getWorld. cbv beta iota. rewrite bind_run.
  rewrite (pageLoop_drained c ds _ None rest); [|done|done|].
  2:{ cbn [shopifyApi setShopifyFiles].
      rewrite Hapi, length_app, length_fmap. lia. }
  unfold saveCache. rewrite bind_run. unfold getWorld. cbv beta iota.
  rewrite bind_run. unfold modifyWorld. cbv beta iota. rewrite log_run.
  subst m. f_equal. world_eq.
Qed.

(** The bound on the iterations of the page loop is never reached: with
    more fuel than replies the result does not depend on the fuel. *)
Lemma safeShopifyQuery_loop_consumes c after script w d w' :
  safeShopifyQuery_loop c after script w = Returns d w' →
  length (shopifyApi w') < length script.
Proof.
  revert w. induction script as [|reply script IH]; intros w; [done|].
  simpl. destruct reply as [d0|status].
  - intros ?; simplify_eq. simpl. lia.
  - destruct (isStatus429 status); [|done].
    intros H%IH. lia.
Qed.

Lemma fetchPage_consumes c endCursor w r w' :
  fetchPage c endCursor w = Returns r w' →
  length (shopifyApi w') < length (shopifyApi w).
Proof.
  unfold fetchPage. rewrite bind_run. unfold safeShopifyQuery.
  destruct (safeShopifyQuery_loop _ _ _ _) as [d w1| |] eqn:Hq; [|done..].
  apply safeShopifyQuery_loop_consumes in Hq.
  destruct c; rewrite bind_run;
    rewrite ?forEachEdge_imageEdge, ?forEachEdge_productEdge; simpl;
    unfold mret, M_ret; intros ?; simplify_eq; simpl; lia.
Qed.

Lemma pageLoop_fuel c fuel1 fuel2 endCursor w :
  length (shopifyApi w) < fuel1 → length (shopifyApi w) < fuel2 →
  pageLoop c fuel1 endCursor w = pageLoop c fuel2 endCursor w.
Proof.
  revert fuel2 endCursor w.
  induction fuel1 as [|fuel1 IH]; intros fuel2 endCursor w H1 H2; [lia|].
  destruct fuel2 as [|fuel2]; [lia|].
  cbn [pageLoop]. rewrite !bind_run.
  destruct (fetchPage c endCursor w) as [[cur hasNext] w1| |] eqn:Hpage;
    [|done..].
  apply fetchPage_consumes in Hpage.
  destruct hasNext; [|done]. apply IH; lia.
Qed.

(** ** Index builder: the store after a sweep *)

Lemma setProp_assignable k url m :
  Js.setProp k url m = if assignable m k then <[k := url]> m else m.
Proof.
  unfold Js.setProp, assignable.
  by destruct (bool_decide (k = "__proto__") && bool_decide (m !! k = None)).
Qed.

(** Whether a key is assignable does not change when a property is
    assigned. *)
Lemma assignable_setProp k' url m k :
  assignable (Js.setProp k' url m) k = assignable m k.
Proof.
  rewrite setProp_assignable. destruct (assignable m k') eqn:Hk'; [|done].
  unfold assignable in *. f_equal.
  destruct (decide (k = "__proto__")) as [->|Hk];
    [|by rewrite !(bool_decide_false (k = _)) by done].
  rewrite !(bool_decide_true ("__proto__" = _)) by done. simpl.
  destruct (decide (k' = "__proto__")) as [->|Hne].
  - rewrite bool_decide_true in Hk' by done. simpl in Hk'.
    apply negb_true_iff, bool_decide_eq_false in Hk'.
    rewrite lookup_insert_eq.
    rewrite !bool_decide_false; [done|exact Hk'|done].
  - by rewrite lookup_insert_ne.
Qed.

Lemma mergeUrl_key c url m :
  url ≠ "" →
  mergeUrl c url m
  = match keyOfUrl c url with
    | Some k => Js.setProp k url m
    | None => m
    end.
Proof.
  intros Hurl. unfold mergeUrl, keyOfUrl.
  destruct (fileNameOf url) as [fileName|]; [|done]. simpl.
  apply truthy_true in Hurl. rewrite Hurl, andb_true_r.
  by destruct (Js.truthy fileName).
Qed.

Lemma assignable_mergeUrl c url m k :
  assignable (mergeUrl c url m) k = assignable m k.
Proof.
  unfold mergeUrl. destruct (fileNameOf url) as [fileName|]; [|done].
  destruct (Js.truthy fileName && Js.truthy url); [|done].
  apply assignable_setProp.
Qed.

Lemma mergeUrls_snoc c urls o m :
  mergeUrls c (urls ++ [o]) m
  = match nonEmpty o with
    | Some url => mergeUrl c url (mergeUrls c urls m)
    | None => mergeUrls c urls m
    end.
Proof. by rewrite mergeUrls_app. Qed.

Lemma assignable_mergeUrls c urls m k :
  assignable (mergeUrls c urls m) k = assignable m k.
Proof.
  induction urls as [|o urls IH] using rev_ind; [done|].
  rewrite mergeUrls_snoc. destruct (nonEmpty o); [|done].
  by rewrite assignable_mergeUrl.
Qed.

(** One upsert of a sweep that started from the store [m0]. *)
Lemma mergeUrl_storedKey m0 c urls url :
  url ≠ "" →
  mergeUrl c url (mergeUrls c urls m0)
  = match storedKey m0 c url with
    | Some k => <[k := url]> (mergeUrls c urls m0)
    | None => mergeUrls c urls m0
    end.
Proof.
  intros Hurl. rewrite (mergeUrl_key _ _ _ Hurl). unfold storedKey.
  destruct (keyOfUrl c url) as [k|]; [|done]. simpl.
  rewrite setProp_assignable, assignable_mergeUrls.
  by destruct (assignable m0 k).
Qed.

Lemma usableUrls_snoc urls o :
  usableUrls (urls ++ [o])
  = usableUrls urls ++ match nonEmpty o with Some url => [url] | None => [] end.
Proof.
  unfold usableUrls. rewrite omap_app. simpl. by destruct (nonEmpty o).
Qed.

(** Last write wins: a key holds the last usable URL that is stored under
    it, or what it held before the sweep. *)
Lemma mergeUrls_lookup c urls m k :
  mergeUrls c urls m !! k
  = match last (filter (λ url, storedKey m c url = Some k)
                  (usableUrls urls)) with
    | Some url => Some url
    | None => m !! k
    end.
Proof.
  induction urls as [|o urls IH] using rev_ind; [done|].
  rewrite mergeUrls_snoc, usableUrls_snoc, filter_app, last_app.
  destruct (nonEmpty o) as [url|] eqn:Ho; [|by rewrite IH].
  apply nonEmpty_Some in Ho as [_ Hurl].
  rewrite (mergeUrl_storedKey _ _ _ _ Hurl).
  destruct (decide (storedKey m c url = Some k)) as [Hk|Hk].
  - rewrite filter_cons_True by done. rewrite Hk. simpl.
    by rewrite lookup_insert_eq.
  - rewrite filter_cons_False by done. simpl. rewrite <- IH.
    destruct (storedKey m c url) as [k'|]; [|done].
    rewrite lookup_insert_ne; [done|congruence].
Qed.

Lemma last_all_equal {A} (l : list A) x :
  x ∈ l → (∀ y, y ∈ l → y = x) → last l = Some x.
Proof.
  intros Hin Hall. destruct l as [|y l _] using rev_ind.
  - by apply not_elem_of_nil in Hin.
  - rewrite last_snoc. f_equal. apply Hall. set_solver.
Qed.

Lemma mergeUrls_lookup_unique c urls m k url :
  url ∈ usableUrls urls → storedKey m c url = Some k →
  (∀ url', url' ∈ usableUrls urls → storedKey m c url' = Some k → url' = url) →
  mergeUrls c urls m !! k = Some url.
Proof.
  intros Hin Hk Huniq. rewrite mergeUrls_lookup.
  rewrite (last_all_equal _ url); [done|..].
  - apply list_elem_of_filter. by split.
  - intros url' [Hk' Hin']%list_elem_of_filter. by apply Huniq.
Qed.

Lemma mergeUrls_lookup_other c urls m k :
  k ∉ storedKeys m c urls → mergeUrls c urls m !! k = m !! k.
Proof.
  intros Hk. rewrite mergeUrls_lookup.
  destruct (last _) as [url|] eqn:Hlast; [|done].
  exfalso. apply Hk. apply last_Some in Hlast as [l' Hl'].
  assert (Hin : url ∈ filter (λ url, storedKey m c url = Some k)
                        (usableUrls urls))
    by (rewrite Hl'; set_solver).
  apply list_elem_of_filter in Hin as [Hkey Hin].
  unfold storedKeys. apply list_elem_of_omap. eauto.
Qed.






(** ** Index builder: the three sweeps *)

Lemma fetchShopifyFiles_drained w ds1 ds2 ds3 rest :
  cacheFile w ≠ Some Malformed →
  drained Files ds1 → drained Collections ds2 → drained Products ds3 →
  shopifyApi w = (ShopifyOk <$> ds1 ++ ds2 ++ ds3) ++ rest →
  let m1 := mergeUrls Files (sweepUrls Files ds1) (cachedStore w) in
  let m2 := mergeUrls Collections (sweepUrls Collections ds2) m1 in
  let m3 := mergeUrls Products (sweepUrls Products ds3) m2 in
  fetchShopifyFiles w
  = Returns tt
      (emit ((sweepEvents Files None ds1 ++ [EvWriteCache m1])
             ++ (sweepEvents Collections None ds2 ++ [EvWriteCache m2])
             ++ (sweepEvents Products None ds3 ++ [EvWriteCache m3]))
         (setCacheFile (Some (JsonObject m3))
            (setShopifyFiles m3 (setShopifyApi rest w)))).
Proof.
  intros Hok Hdr1 Hdr2 Hdr3 Hapi m1 m2 m3.
  unfold fetchShopifyFiles, fetchContentImages, fetchCollectionImages,
    fetchProductImages.
  rewrite bind_run. unfold modifyWorld at 1. cbv beta iota.
  rewrite bind_run.
  rewrite (fetchImages_drained Files ds1
             ((ShopifyOk <$> ds2 ++ ds3) ++ rest)); [|done|done|].
  2:{ cbn [shopifyApi setShopifyFiles]. rewrite Hapi.
      by rewrite !fmap_app, <- !app_assoc. }
  rewrite bind_run.
  rewrite (fetchImages_drained Collections ds2 ((ShopifyOk <$> ds3) ++ rest));
    [|done|done|].
  2:{ cbn [shopifyApi emit setCacheFile setShopifyFiles setShopifyApi].
      by rewrite !fmap_app, <- !app_assoc. }
  rewrite (fetchImages_drained Products ds3 rest); [|done|done|done].
  f_equal. world_eq.
Qed.

Lemma keyOfUrl_Some c url k :
  keyOfUrl c url = Some k ↔
  ∃ fileName, fileNameOf url = Some fileName ∧ fileName ≠ ""
              ∧ k = keyOf c fileName.
Proof.
  unfold keyOfUrl. destruct (fileNameOf url) as [f|]; simpl.
  - destruct f as [|a f]; simpl.
    + split; [done|]. by intros (f' & ? & ? & ?); simplify_eq.
    + split.
      * intros ?; simplify_eq. eexists; eauto.
      * by intros (f' & ? & ? & ?); simplify_eq.
  - split; [done|]. by intros (f' & ? & ? & ?).
Qed.

Lemma storedKey_Some m c url k :
  storedKey m c url = Some k ↔ keyOfUrl c url = Some k ∧ assignable m k = true.
Proof.
  unfold storedKey. destruct (keyOfUrl c url) as [k'|]; simpl.
  - destruct (assignable m k') eqn:Hk'; split.
    + intros ?; simplify_eq. done.
    + intros [? _]; congruence.
    + done.
    + intros [? ?]; simplify_eq. congruence.
  - split; [done|]. by intros [? _].
Qed.

(** Every key but ["__proto__"] is assignable. *)
Lemma assignable_other m k : k ≠ "__proto__" → assignable m k = true.
Proof. intros Hk. unfold assignable. by rewrite bool_decide_false. Qed.

Lemma storedKeys_elem m c urls k :
  k ∈ storedKeys m c urls → ∃ fileName, fileName ≠ "" ∧ k = keyOf c fileName.
Proof.
  unfold storedKeys. intros (url & _ & Hk)%list_elem_of_omap.
  apply storedKey_Some in Hk as [Hk _].
  apply keyOfUrl_Some in Hk as (f & _ & ? & ?). eauto.
Qed.

(** Keys of the collection and product sweeps end with their suffix. *)
Lemma storedKeys_Collections m urls k :
  k ∈ storedKeys m Collections urls → Js.endsWith "_collection" k = true.
Proof.
  intros (f & _ & ->)%storedKeys_elem. apply endsWith_append.
Qed.

Lemma storedKeys_Products m urls k :
  k ∈ storedKeys m Products urls → Js.endsWith "_product" k = true.
Proof.
  intros (f & _ & ->)%storedKeys_elem. apply endsWith_append.
Qed.

(** C5: take pages of content files in which exactly one usable URL has
    the file name ["shoe.jpg"], and pages of products in which exactly one
    usable URL has that file name.  After the builder has swept the three
    collections, the store, and the cache file, hold the content URL under
    ["shoe.jpg"] and the product URL under ["shoe.jpg_product"]: no sweep
    has overwritten the entry of another. *)
Theorem fetchShopifyFiles_keeps_both_shoes
    (w : World) (filePages collectionPages productPages : list gql_data)
    (rest : list shopify_reply) (contentUrl productUrl : string)
    (Hcache : cacheFile w ≠ Some Malformed)
    (Hfiles : drained Files filePages)
    (Hcollections : drained Collections collectionPages)
    (Hproducts : drained Products productPages)
    (Hapi : shopifyApi w
            = (ShopifyOk <$> filePages ++ collectionPages ++ productPages)
              ++ rest)
    (Hcontent : contentUrl ∈ usableUrls (sweepUrls Files filePages))
    (Hcontent_name : fileNameOf contentUrl = Some "shoe.jpg")
    (Hcontent_only : ∀ url, url ∈ usableUrls (sweepUrls Files filePages) →
                       fileNameOf url = Some "shoe.jpg" → url = contentUrl)
    (Hproduct : productUrl ∈ usableUrls (sweepUrls Products productPages))
    (Hproduct_name : fileNameOf productUrl = Some "shoe.jpg")
    (Hproduct_only : ∀ url, url ∈ usableUrls (sweepUrls Products productPages) →
                       fileNameOf url = Some "shoe.jpg" → url = productUrl) :
  ∃ w',
    fetchShopifyFiles w = Returns tt w'
    ∧ shopifyFiles w' !! "shoe.jpg" = Some contentUrl
    ∧ shopifyFiles w' !! "shoe.jpg_product" = Some productUrl
    ∧ cacheFile w' = Some (JsonObject (shopifyFiles w')).
Proof.
  eexists. split.
  { by apply (fetchShopifyFiles_drained w filePages collectionPages
                productPages rest). }
  cbn [shopifyFiles cacheFile emit setCacheFile setShopifyFiles].
  split; [|split; [|done]].
  - rewrite mergeUrls_lookup_other.
    2:{ intros Hin%storedKeys_Products. discriminate Hin. }
    rewrite mergeUrls_lookup_other.
    2:{ intros Hin%storedKeys_Collections. discriminate Hin. }
    apply mergeUrls_lookup_unique; [done|..].
    + apply storedKey_Some. split; [|by apply assignable_other].
      apply keyOfUrl_Some. by exists "shoe.jpg".
    + intros url Hin [(f & Hf & _ & Hk)%keyOfUrl_Some _]%storedKey_Some.
      simpl in Hk. apply Hcontent_only; congruence.
  - apply mergeUrls_lookup_unique; [done|..].
    + apply storedKey_Some. split; [|by apply assignable_other].
      apply keyOfUrl_Some. by exists "shoe.jpg".
    + intros url Hin [(f & Hf & _ & Hk)%keyOfUrl_Some _]%storedKey_Some.
      simpl in Hk. apply Hproduct_only; [done|].
      change "shoe.jpg_product" with ("shoe.jpg" +:+ "_product") in Hk.
      apply append_inj_l in Hk. congruence.
Qed.

Lemma fetchShopifyFiles_keeps_both_shoes_witness :
  ∃ w',
    fetchShopifyFiles shoeWorld = Returns tt w'
    ∧ shopifyFiles w' !! "shoe.jpg"
      = Some "https://cdn.example/files/shoe.jpg?v=1"
    ∧ shopifyFiles w' !! "shoe.jpg_product"
      = Some "https://cdn.example/products/shoe.jpg?v=2".
Proof.
  destruct (fetchShopifyFiles_keeps_both_shoes shoeWorld
              [shoeFiles] [noCollections] [shoeProducts] []
              "https://cdn.example/files/shoe.jpg?v=1"
              "https://cdn.example/products/shoe.jpg?v=2")
    as (w' & Hrun & Hcontent & Hproduct & _).
  - discriminate.
  - reflexivity.
  - reflexivity.
  - reflexivity.
  - reflexivity.
  - vm_compute. apply list_elem_of_here.
  - reflexivity.
  - intros url Hin _. vm_compute in Hin.
    by apply list_elem_of_singleton in Hin.
  - vm_compute. apply list_elem_of_here.
  - reflexivity.
  - intros url Hin _. vm_compute in Hin.
    by apply list_elem_of_singleton in Hin.
  - exists w'. auto.
Defined.

(** ** Index builder: requests and cursors *)




(** The suffixed keys of collections and products are never
    ["__proto__"]. *)
Lemma keyOfUrl_proto c url :
  keyOfUrl c url = Some "__proto__" → c = Files.
Proof.
  intros (f & _ & _ & Hk)%keyOfUrl_Some. destruct c; [done|..]; simpl in Hk.
  - pose proof (endsWith_append f "_collection") as H.
    rewrite <- Hk in H. discriminate H.
  - pose proof (endsWith_append f "_product") as H.
    rewrite <- Hk in H. discriminate H.
Qed.

(** A URL is stored under the key derived from it, unless that key is
    ["__proto__"], which only a file of the files collection can derive,
    and the store the sweep started from has no entry of that name. *)
Lemma storedKey_derived m c url k :
  storedKey m c url = Some k
  ↔ keyOfUrl c url = Some k
    ∧ (k = "__proto__" → c = Files ∧ is_Some (m !! "__proto__")).
Proof.
  rewrite storedKey_Some. split; intros [Hk Ha]; (split; [done|]).
  - intros ->. split; [by eapply keyOfUrl_proto|].
    unfold assignable in Ha. rewrite bool_decide_true in Ha by done.
    simpl in Ha. apply negb_true_iff, bool_decide_eq_false in Ha.
    by apply not_eq_None_Some.
  - destruct (decide (k = "__proto__")) as [->|Hne];
      [|by apply assignable_other].
    destruct (Ha eq_refl) as [_ [v Hv]]. unfold assignable.
    by rewrite Hv, (bool_decide_false (Some v = None)), andb_false_r.
Qed.




(** A file named ["__proto__"] is not stored: the assignment reaches the
    accessor of [Object.prototype], and the index holds the other file
    only. *)
Example fetchContentImages_proto_file_not_stored :
  ∃ w',
    fetchContentImages
      (setShopifyApi
         [ShopifyOk
            (mkData
               (Some (mkConnection
                  [mkEdge "f1" (Some "https://cdn.example/files/__proto__");
                   mkEdge "f2" (Some "https://cdn.example/files/hat.png")]
                  false))
               None None)] world0)
    = Returns tt w'
    ∧ shopifyFiles w' = {[ "hat.png" := "https://cdn.example/files/hat.png" ]}
    ∧ cacheFile w' = Some (JsonObject (shopifyFiles w')).
Proof. eexists. split; [vm_compute; reflexivity|]. by split. Qed.

(** [JSON.parse] makes ["__proto__"] an own property, which an assignment
    then updates like any other. *)
Example fetchContentImages_proto_entry_updated :
  ∃ w',
    fetchContentImages
      (setCacheFile (Some (JsonObject {[ "__proto__" := "old" ]}))
         (setShopifyApi
            [ShopifyOk
               (mkData
                  (Some (mkConnection
                     [mkEdge "f1" (Some "https://cdn.example/files/__proto__")]
                     false))
                  None None)] world0))
    = Returns tt w'
    ∧ shopifyFiles w'
      = {[ "__proto__" := "https://cdn.example/files/__proto__" ]}.
Proof. eexists. split; [vm_compute; reflexivity|]. done. Qed.

(** ** Start of a run *)

(** C2, as the code has it: when the cache file exists at the start of a
    run, the store is read from it and the builder does not run: no page
    is requested, nothing is merged and nothing is written.  A cache file
    that does not parse aborts the run before any request.  When there is
    no cache file, the store starts empty and the builder sweeps files,
    collections and products in this order; each sweep starts from the
    cache file as the sweep before it wrote it, merges its pages, and
    writes the cache file once when its pages are drained, so that a full
    run writes the cache file three times. *)
Theorem loadOrFetch_loads_or_sweeps (w : World) :
  (∀ m, cacheFile w = Some (JsonObject m) →
     loadOrFetch w = Returns tt (setShopifyFiles m w))
  ∧ (cacheFile w = Some Malformed → loadOrFetch w = Throws SyntaxError w)
  ∧ (cacheFile w = None →
     ∀ ds1 ds2 ds3 rest,
       drained Files ds1 → drained Collections ds2 → drained Products ds3 →
       shopifyApi w = (ShopifyOk <$> ds1 ++ ds2 ++ ds3) ++ rest →
       let m1 := mergeUrls Files (sweepUrls Files ds1) ∅ in
       let m2 := mergeUrls Collections (sweepUrls Collections ds2) m1 in
       let m3 := mergeUrls Products (sweepUrls Products ds3) m2 in
       ∃ evs,
         loadOrFetch w
         = Returns tt
             (emit evs
                (setCacheFile (Some (JsonObject m3))
                   (setShopifyFiles m3 (setShopifyApi rest w))))
         ∧ cacheWrites evs = [m1; m2; m3]
         ∧ shopifyPosts evs
           = ((λ a, (Files, a)) <$> requestCursors Files None ds1)
             ++ ((λ a, (Collections, a)) <$> requestCursors Collections None ds2)
             ++ ((λ a, (Products, a)) <$> requestCursors Products None ds3)).
Proof.
  split; [|split].
  - intros m Hc. unfold loadOrFetch. rewrite bind_run. simpl. by rewrite Hc.
  - intros Hc. unfold loadOrFetch. rewrite bind_run. simpl. by rewrite Hc.
  - intros Hc ds1 ds2 ds3 rest Hdr1 Hdr2 Hdr3 Hapi m1 m2 m3.
    eexists. split.
    { unfold loadOrFetch. rewrite bind_run.
      unfold getWorld. cbv beta iota. rewrite Hc.
      rewrite (fetchShopifyFiles_drained w ds1 ds2 ds3 rest);
        [|congruence|done..].
      unfold cachedStore. rewrite Hc. reflexivity. }
    split.
    + rewrite !cacheWrites_app, !sweepEvents_cacheWrites. reflexivity.
    + rewrite !shopifyPosts_app, !sweepEvents_posts. simpl.
      by rewrite !app_nil_r.
Qed.

Lemma loadOrFetch_loads_or_sweeps_witness :
  ∃ evs m,
    loadOrFetch shoeWorld
    = Returns tt
        (emit evs
           (setCacheFile (Some (JsonObject m))
              (setShopifyFiles m (setShopifyApi [] shoeWorld))))
    ∧ length (cacheWrites evs) = 3
    ∧ shopifyPosts evs = [(Files, None); (Collections, None); (Products, None)].
Proof.
  destruct (loadOrFetch_loads_or_sweeps shoeWorld) as (_ & _ & Hsweeps).
  destruct (Hsweeps eq_refl [shoeFiles] [noCollections] [shoeProducts] [])
    as (evs & Hrun & Hwrites & Hposts).
  - reflexivity.
  - reflexivity.
  - reflexivity.
  - reflexivity.
  - exists evs. eexists. split; [exact Hrun|]. split.
    + by rewrite Hwrites.
    + rewrite Hposts. reflexivity.
Defined.

(** The claim C2 as the specification states it fails for a run that finds
    a cache file: although the source API has a page with a file that the
    cache does not know, the run requests no page, merges nothing and
    never writes the cache file. *)
Lemma main_with_cache_counterexample :
  main [] cachedWorld = Returns tt (setShopifyFiles shoeIndex cachedWorld)
  ∧ shopifyPosts (trace (setShopifyFiles shoeIndex cachedWorld)) = []
  ∧ cacheWrites (trace (setShopifyFiles shoeIndex cachedWorld)) = []
  ∧ shopifyApi (setShopifyFiles shoeIndex cachedWorld) = ShopifyOk <$> twoPages
  ∧ shopifyFiles (setShopifyFiles shoeIndex cachedWorld) !! "hat.png" = None
  ∧ mergeUrls Files (sweepUrls Files twoPages) shoeIndex !! "hat.png"
    = Some "https://cdn.example/files/hat.png".
Proof. repeat split; vm_compute; reflexivity. Qed.

(** ** The cursor after an edge without a usable URL *)

(** In the sweeps over files and collections, the callback returns before
    [endCursor = cursor] when an edge has no usable URL, so a page that
    ends with such an edge leaves the cursor at the last edge that had
    one. *)
Example fetchContentImages_cursor_stays_behind :
  drained Files trailingVideoPages
  ∧ requestCursors Files None trailingVideoPages = [None; Some "f1"].
Proof. split; [split|]; reflexivity. Qed.

(** In the sweep over products the assignment is outside the inner
    callback and the cursor always advances. *)
Example fetchProductImages_cursor_advances :
  requestCursors Products None
    [mkData None None
       (Some (mkConnection [mkEdge "p1" [Some "https://cdn.example/p/a.jpg"];
                            mkEdge "p2" [None]] true));
     mkData None None (Some (mkConnection [] false))]
  = [None; Some "p2"].
Proof. reflexivity. Qed.

(** * Further properties *)

(** ** What the engine and the builder leave alone *)

Lemma engineOnly_refl w : engineOnly w w.
Proof.
  repeat split. exists []. by rewrite app_nil_r.
Qed.

Lemma engineOnly_trans w1 w2 w3 :
  engineOnly w1 w2 → engineOnly w2 w3 → engineOnly w1 w3.
Proof.
  intros (Hc1 & Hf1 & Ha1 & evs1 & Ht1 & He1) (Hc2 & Hf2 & Ha2 & evs2 & Ht2 & He2).
  repeat split; try congruence.
  exists (evs1 ++ evs2). rewrite Ht2, Ht1, app_assoc.
  split; [done|]. by apply Forall_app.
Qed.

Lemma engineOnly_emit evs script w :
  Forall engineEvent evs → engineOnly w (emit evs (setOpenAiApi script w)).
Proof. intros Hevs. repeat split. by exists evs. Qed.

Lemma engineFramed_bind {A B} (m : M A) (k : A → M B) :
  engineFramed m → (∀ a, engineFramed (k a)) → engineFramed (m ≫= k).
Proof.
  intros Hm Hk w. rewrite bind_run. specialize (Hm w).
  destruct (m w) as [a w1|e w1|w1]; simpl in *; [|done..].
  eapply engineOnly_trans; [exact Hm|apply Hk].
Qed.

Lemma engineFramed_ret {A} (a : A) : engineFramed (mret a).
Proof. intros w. apply engineOnly_refl. Qed.

Lemma engineFramed_log e : engineEvent e → engineFramed (log e).
Proof.
  intros He w. rewrite log_run. simpl.
  rewrite <- (setOpenAiApi_same w) at 2. apply engineOnly_emit. by constructor.
Qed.

Lemma engineFramed_generateAltText imageUrl :
  engineFramed (generateAltText imageUrl).
Proof.
  intros w. unfold generateAltText.
  generalize (openAiApi w) at 1. intros script. revert w.
  induction script as [|reply script IH]; intros w; simpl.
  - rewrite <- (emit_nil (setOpenAiApi [] w)). by apply engineOnly_emit.
  - assert (Hpost : engineOnly w
              (emit [EvOpenAiPost imageUrl] (setOpenAiApi script w))).
    { apply engineOnly_emit. by repeat constructor. }
    destruct reply as [body|code].
    + by destruct (choices body).
    + destruct (isRateLimitCode code); [|done].
      eapply engineOnly_trans; [|apply IH].
      eapply engineOnly_trans; [exact Hpost|].
      rewrite <- (setOpenAiApi_same (emit [EvOpenAiPost imageUrl] _)) at 2.
      apply engineOnly_emit. by repeat constructor.
Qed.

Lemma engineFramed_throw {A} e : engineFramed (@throw A e).
Proof. intros w. apply engineOnly_refl. Qed.

Lemma engineFramed_trimField o : engineFramed (trimField o).
Proof.
  destruct o as [[s|name]|];
    [apply engineFramed_ret|apply engineFramed_throw|apply engineFramed_ret].
Qed.

Lemma engineFramed_processRow i row : engineFramed (processRow i row).
Proof.
  unfold processRow.
  apply engineFramed_bind; [apply engineFramed_trimField|]. intros o.
  destruct (nonEmpty o) as [fileName|].
  - intros w. rewrite bind_run. simpl.
    destruct (matchFile (shopifyFiles w) fileName) as [link0|].
    + destruct (negb _); [|apply engineOnly_refl].
      destruct (truthyValue _) as [link|]; [|apply engineOnly_refl].
      apply engineFramed_bind; [apply engineFramed_generateAltText|].
      intros a. apply engineFramed_ret.
    + apply engineFramed_bind; [by apply engineFramed_log|].
      intros _. apply engineFramed_ret.
  - apply engineFramed_bind; [by apply engineFramed_log|].
    intros _. apply engineFramed_ret.
Qed.

Lemma engineFramed_forEachRow i chunk : engineFramed (forEachRow i chunk).
Proof.
  induction chunk as [|row chunk IH]; [apply engineFramed_ret|].
  cbn [forEachRow]. apply engineFramed_bind; [apply engineFramed_processRow|].
  intros row'. apply engineFramed_bind; [exact IH|].
  intros chunk'. apply engineFramed_ret.
Qed.

Lemma engineFramed_blocked {A} : engineFramed (@Blocked A).
Proof. intros w. apply engineOnly_refl. Qed.

Lemma engineFramed_chunkLoop fuel i rows : engineFramed (chunkLoop fuel i rows).
Proof.
  revert i rows. induction fuel as [|fuel IH]; intros i rows;
    [apply engineFramed_blocked|].
  cbn [chunkLoop]. case_bool_decide; [|apply engineFramed_ret].
  apply engineFramed_bind; [by apply engineFramed_log|]. intros _.
  apply engineFramed_bind; [apply engineFramed_forEachRow|]. intros chunk'.
  apply engineFramed_bind; [by apply engineFramed_log|]. intros _.
  apply IH.
Qed.

Lemma engineFramed_processBatch rows : engineFramed (processBatch rows).
Proof.
  apply engineFramed_bind; [apply engineFramed_chunkLoop|].
  intros rows'. by apply engineFramed_log.
Qed.

Lemma engineFramed_batchLoop fuel i batch : engineFramed (batchLoop fuel i batch).
Proof.
  revert i. induction fuel as [|fuel IH]; intros i;
    [apply engineFramed_blocked|].
  cbn [batchLoop]. case_bool_decide; [|apply engineFramed_ret].
  apply engineFramed_bind; [apply engineFramed_processBatch|]. intros _.
  apply IH.
Qed.

Lemma engineEvents_quiet evs :
  Forall engineEvent evs → shopifyPosts evs = [] ∧ cacheWrites evs = [].
Proof.
  induction 1 as [|e evs He _ [IH1 IH2]]; [done|].
  destruct e; simpl in *; try done.
Qed.

(** X1: whatever the input rows, the store and the replies of the generation
    API, and whether the run completes or is left waiting for the generation
    API, [processCsv] never throws, never changes the index store, the cache
    file or the replies of the source API, never sends a request to the
    source API and never writes the cache file. *)
Theorem processCsv_engine_footprint (batch : list Row) (w : World) :
  (∀ e w', processCsv batch w ≠ Throws e w')
  ∧ cacheFile (finalWorld (processCsv batch w)) = cacheFile w
  ∧ shopifyFiles (finalWorld (processCsv batch w)) = shopifyFiles w
  ∧ shopifyApi (finalWorld (processCsv batch w)) = shopifyApi w
  ∧ ∃ evs, trace (finalWorld (processCsv batch w)) = trace w ++ evs
           ∧ shopifyPosts evs = [] ∧ cacheWrites evs = [].
Proof.
  split.
  - intros e w' Hrun. unfold processCsv in Hrun.
    pose proof (batchLoop_outcome (S (length batch)) 0 (rowObject <$> batch) w)
      as H.
    rewrite length_fmap in H.
    specialize (H ltac:(lia) (rowObjects_namedByString batch)).
    by rewrite Hrun in H.
  - destruct (engineFramed_batchLoop (S (length batch)) 0
                (rowObject <$> batch) w)
      as (Hc & Hf & Ha & evs & Ht & Hevs).
    do 3 (split; [done|]). exists evs. split; [done|].
    by apply engineEvents_quiet.
Qed.

Lemma builderOnly_refl w : builderOnly w w.
Proof. split; [done|]. exists []. by rewrite app_nil_r. Qed.

Lemma builderOnly_trans w1 w2 w3 :
  builderOnly w1 w2 → builderOnly w2 w3 → builderOnly w1 w3.
Proof.
  intros (Ha1 & evs1 & Ht1 & He1) (Ha2 & evs2 & Ht2 & He2).
  split; [congruence|].
  exists (evs1 ++ evs2). rewrite Ht2, Ht1, app_assoc.
  split; [done|]. by apply Forall_app.
Qed.

Lemma builderFramed_bind {A B} (m : M A) (k : A → M B) :
  builderFramed m → (∀ a, builderFramed (k a)) → builderFramed (m ≫= k).
Proof.
  intros Hm Hk w. rewrite bind_run. specialize (Hm w).
  destruct (m w) as [a w1|e w1|w1]; simpl in *; [|done..].
  eapply builderOnly_trans; [exact Hm|apply Hk].
Qed.

Lemma builderFramed_ret {A} (a : A) : builderFramed (mret a).
Proof. intros w. apply builderOnly_refl. Qed.

Lemma builderFramed_blocked {A} : builderFramed (@Blocked A).
Proof. intros w. apply builderOnly_refl. Qed.

Lemma builderFramed_throw {A} e : builderFramed (@throw A e).
Proof. intros w. apply builderOnly_refl. Qed.

Lemma builderFramed_getWorld : builderFramed getWorld.
Proof. intros w. apply builderOnly_refl. Qed.

Lemma builderFramed_log e : builderEvent e → builderFramed (log e).
Proof.
  intros He w. rewrite log_run. split; [done|].
  exists [e]. split; [done|]. by constructor.
Qed.

(** Changes of the store, the cache file and the source API's replies. *)
Lemma builderFramed_modify (f : World → World) :
  (∀ w, openAiApi (f w) = openAiApi w ∧ trace (f w) = trace w) →
  builderFramed (modifyWorld f).
Proof.
  intros Hf w. destruct (Hf w) as [Ha Ht]. split; [done|].
  exists []. simpl. by rewrite Ht, app_nil_r.
Qed.

Lemma builderFramed_safeShopifyQuery c after :
  builderFramed (safeShopifyQuery c after).
Proof.
  intros w. unfold safeShopifyQuery.
  generalize (shopifyApi w) at 1. intros script. revert w.
  induction script as [|reply script IH]; intros w; simpl.
  - split; [done|]. exists []. simpl. by rewrite app_nil_r.
  - assert (Hpost : builderOnly w
              (emit [EvShopifyPost c after] (setShopifyApi script w))).
    { split; [done|]. exists [EvShopifyPost c after]. split; [done|].
      by repeat constructor. }
    destruct reply as [d|status]; [done|].
    destruct (isStatus429 status); [|done].
    eapply builderOnly_trans; [|apply IH].
    eapply builderOnly_trans; [exact Hpost|].
    split; [done|]. exists [EvSleep 5000]. split; [done|].
    by repeat constructor.
Qed.

Lemma builderFramed_mergeIntoFiles c url : builderFramed (mergeIntoFiles c url).
Proof. by apply builderFramed_modify. Qed.

Lemma builderFramed_forEachEdge {N}
    (callback : option string → edge N → M (option string)) es endCursor :
  (∀ cur e, builderFramed (callback cur e)) →
  builderFramed (forEachEdge callback es endCursor).
Proof.
  intros Hcb. revert endCursor.
  induction es as [|e es IH]; intros endCursor; [apply builderFramed_ret|].
  cbn [forEachEdge]. apply builderFramed_bind; [apply Hcb|]. apply IH.
Qed.

Lemma builderFramed_imageEdge c cur e : builderFramed (imageEdge c cur e).
Proof.
  unfold imageEdge. destruct (nonEmpty (node e)) as [url|].
  - apply builderFramed_bind; [apply builderFramed_mergeIntoFiles|].
    intros _. apply builderFramed_ret.
  - apply builderFramed_bind; [by apply builderFramed_log|].
    intros _. apply builderFramed_ret.
Qed.

Lemma builderFramed_forEachImage urls : builderFramed (forEachImage urls).
Proof.
  induction urls as [|o urls IH]; [apply builderFramed_ret|].
  cbn [forEachImage]. apply builderFramed_bind; [|by intros _].
  unfold productImage. destruct (nonEmpty o).
  - apply builderFramed_mergeIntoFiles.
  - by apply builderFramed_log.
Qed.

Lemma builderFramed_productEdge cur e : builderFramed (productEdge cur e).
Proof.
  unfold productEdge.
  apply builderFramed_bind; [apply builderFramed_forEachImage|].
  intros _. apply builderFramed_ret.
Qed.

Lemma builderFramed_fetchPage c endCursor : builderFramed (fetchPage c endCursor).
Proof.
  unfold fetchPage.
  apply builderFramed_bind; [apply builderFramed_safeShopifyQuery|].
  intros d. destruct c.
  - apply builderFramed_bind;
      [apply builderFramed_forEachEdge, builderFramed_imageEdge|].
    intros cur. apply builderFramed_ret.
  - apply builderFramed_bind;
      [apply builderFramed_forEachEdge, builderFramed_imageEdge|].
    intros cur. apply builderFramed_ret.
  - apply builderFramed_bind;
      [apply builderFramed_forEachEdge, builderFramed_productEdge|].
    intros cur. apply builderFramed_ret.
Qed.

Lemma builderFramed_pageLoop c fuel endCursor :
  builderFramed (pageLoop c fuel endCursor).
Proof.
  revert endCursor. induction fuel as [|fuel IH]; intros endCursor;
    [apply builderFramed_blocked|].
  cbn [pageLoop]. apply builderFramed_bind; [apply builderFramed_fetchPage|].
  intros [cur hasNext]. destruct hasNext; [apply IH|apply builderFramed_ret].
Qed.

Lemma builderFramed_loadCache : builderFramed loadCache.
Proof.
  unfold loadCache.
  apply builderFramed_bind; [by apply builderFramed_modify|]. intros _.
  apply builderFramed_bind; [apply builderFramed_getWorld|]. intros w.
  destruct (cacheFile w) as [[m|]|].
  - by apply builderFramed_modify.
  - apply builderFramed_throw.
  - apply builderFramed_ret.
Qed.

Lemma builderFramed_saveCache : builderFramed saveCache.
Proof.
  unfold saveCache.
  apply builderFramed_bind; [apply builderFramed_getWorld|]. intros w.
  apply builderFramed_bind; [by apply builderFramed_modify|]. intros _.
  by apply builderFramed_log.
Qed.

Lemma builderFramed_fetchImages c : builderFramed (fetchImages c).
Proof.
  unfold fetchImages.
  apply builderFramed_bind; [apply builderFramed_loadCache|]. intros _.
  apply builderFramed_bind; [apply builderFramed_getWorld|]. intros w.
  apply builderFramed_bind; [apply builderFramed_pageLoop|]. intros _.
  apply builderFramed_saveCache.
Qed.

Lemma builderFramed_fetchShopifyFiles : builderFramed fetchShopifyFiles.
Proof.
  unfold fetchShopifyFiles, fetchContentImages, fetchCollectionImages,
    fetchProductImages.
  apply builderFramed_bind; [by apply builderFramed_modify|]. intros _.
  apply builderFramed_bind; [apply builderFramed_fetchImages|]. intros _.
  apply builderFramed_bind; [apply builderFramed_fetchImages|]. intros _.
  apply builderFramed_fetchImages.
Qed.

Lemma builderEvents_quiet evs :
  Forall builderEvent evs →
  openAiPosts evs = [] ∧ sinkWrites evs = [] ∧ chunkSizes evs = [].
Proof.
  induction 1 as [|e evs He _ (IH1 & IH2 & IH3)]; [done|].
  destruct e; simpl in *; try done.
Qed.

(** X2: whatever the replies of the source API and the cache file, and
    whether the build completes, throws or is left waiting, the index builder
    [fetchShopifyFiles] never sends a request to the generation API, never
    reads its replies and never writes to the CSV sink. *)
Theorem fetchShopifyFiles_builder_footprint (w : World) :
  openAiApi (finalWorld (fetchShopifyFiles w)) = openAiApi w
  ∧ ∃ evs, trace (finalWorld (fetchShopifyFiles w)) = trace w ++ evs
           ∧ openAiPosts evs = [] ∧ sinkWrites evs = [] ∧ chunkSizes evs = [].
Proof.
  destruct (builderFramed_fetchShopifyFiles w) as (Ha & evs & Ht & Hevs).
  split; [done|]. exists evs. split; [done|]. by apply builderEvents_quiet.
Qed.

(** ** Sweeps under rate limits and errors *)

Lemma setShopifyFiles_same w : setShopifyFiles (shopifyFiles w) w = w.
Proof. by destruct w. Qed.

Lemma fetchPage_delivered c endCursor k d rest w :
  shopifyApi w = replicate k tooManyRequests ++ ShopifyOk d :: rest →
  fetchPage c endCursor w
  = Returns (pageCursor c endCursor d, pageHasNext c d)
      (emit (rateLimited (EvShopifyPost c (afterArg endCursor)) 5000 k
             ++ EvShopifyPost c (afterArg endCursor)
             :: missingWarnings c (pageUrls c d))
         (setShopifyFiles (mergeUrls c (pageUrls c d) (shopifyFiles w))
            (setShopifyApi rest w))).
Proof.
  intros Hapi. unfold fetchPage. rewrite bind_run.
  unfold safeShopifyQuery. rewrite Hapi, safeShopifyQuery_loop_retries.
  cbn [safeShopifyQuery_loop].
  destruct c; rewrite bind_run;
    rewrite ?forEachEdge_imageEdge, ?forEachEdge_productEdge; simpl;
    f_equal; world_eq.
Qed.

Lemma fetchPage_failed c endCursor k status rest w :
  status ≠ Some 429%Z →
  shopifyApi w = replicate k tooManyRequests ++ ShopifyFail status :: rest →
  fetchPage c endCursor w
  = Throws (AxiosError status)
      (emit (rateLimited (EvShopifyPost c (afterArg endCursor)) 5000 k
             ++ [EvShopifyPost c (afterArg endCursor)])
         (setShopifyApi rest w)).
Proof.
  intros Hstatus Hapi. unfold fetchPage. rewrite bind_run.
  unfold safeShopifyQuery. rewrite Hapi, safeShopifyQuery_loop_retries.
  cbn [safeShopifyQuery_loop].
  assert (isStatus429 status = false) as ->.
  { destruct status as [s|]; [|done]. simpl. apply Z.eqb_neq. congruence. }
  f_equal. world_eq.
Qed.

(** Pages that all announce a next page: the loop goes through them and
    continues behind them. *)
Lemma pageLoop_delivered c kds fuel endCursor rest w :
  Forall (λ kd, pageHasNext c kd.2 = true) kds →
  shopifyApi w = deliveries kds ++ rest →
  pageLoop c (length kds + fuel) endCursor w
  = pageLoop c fuel (sweepCursor c endCursor kds.*2)
      (emit (deliveryEvents c endCursor kds)
         (setShopifyFiles (mergeUrls c (sweepUrls c kds.*2) (shopifyFiles w))
            (setShopifyApi rest w))).
Proof.
  revert endCursor w.
  induction kds as [|[k d] kds IH]; intros endCursor w Hnext Hapi.
  - simpl in *. f_equal. apply World_eq; simpl; try done.
    by rewrite app_nil_r.
  - apply Forall_cons in Hnext as [Hd Hnext]. simpl in Hd.
    cbn [length Nat.add pageLoop]. rewrite bind_run.
    erewrite fetchPage_delivered.
    2:{ rewrite Hapi. cbn [deliveries]. by rewrite <- app_assoc. }
    rewrite Hd. cbv beta iota.
    erewrite IH; [|done|reflexivity].
    unfold sweepUrls, sweepCursor. rewrite !fmap_cons.
    cbn [mjoin list_join foldl deliveryEvents snd].
    rewrite mergeUrls_app. f_equal. world_eq.
Qed.

Lemma deliveries_length kds :
  length (deliveries kds) = length kds + sum_list kds.*1.
Proof.
  induction kds as [|[k d] kds IH]; [done|].
  cbn [deliveries fmap list_fmap sum_list fst length].
  rewrite length_app, length_replicate. simpl. lia.
Qed.

Lemma pageLoop_deliveries c kds fuel endCursor rest w :
  drained c kds.*2 →
  shopifyApi w = deliveries kds ++ rest →
  length kds ≤ fuel →
  pageLoop c fuel endCursor w
  = Returns tt
      (emit (deliveryEvents c endCursor kds)
         (setShopifyFiles (mergeUrls c (sweepUrls c kds.*2) (shopifyFiles w))
            (setShopifyApi rest w))).
Proof.
  revert fuel endCursor w.
  induction kds as [|[k d] kds IH]; intros fuel endCursor w Hdr Hapi Hfuel;
    [done|].
  destruct fuel as [|fuel]; [simpl in Hfuel; lia|].
  cbn [pageLoop]. rewrite bind_run.
  erewrite fetchPage_delivered.
  2:{ rewrite Hapi. cbn [deliveries]. by rewrite <- app_assoc. }
  unfold sweepUrls. rewrite !fmap_cons. cbn [mjoin list_join snd].
  rewrite mergeUrls_app. cbn [deliveryEvents].
  destruct kds as [|kd' kds'].
  - simpl in Hdr. rewrite Hdr. simpl. f_equal. world_eq.
  - destruct Hdr as [Hnext Hdr]. simpl in Hnext. rewrite Hnext.
    erewrite IH; [|exact Hdr|reflexivity|simpl in *; lia].
    f_equal. world_eq.
Qed.

Lemma rateLimited_observed c after k :
  shopifyPosts (rateLimited (EvShopifyPost c after) 5000 k)
  = replicate k (c, after)
  ∧ sleeps (rateLimited (EvShopifyPost c after) 5000 k) = replicate k 5000%Z
  ∧ cacheWrites (rateLimited (EvShopifyPost c after) 5000 k) = []
  ∧ Forall builderEvent (rateLimited (EvShopifyPost c after) 5000 k).
Proof.
  induction k as [|k (IH1 & IH2 & IH3 & IH4)]; [by repeat split|].
  change (rateLimited ?p ?d (S k)) with (p :: EvSleep d :: rateLimited p d k).
  simpl. rewrite IH1, IH2, IH3. repeat split. by repeat constructor.
Qed.

Lemma missingWarnings_observed c urls :
  sleeps (missingWarnings c urls) = []
  ∧ Forall builderEvent (missingWarnings c urls).
Proof.
  induction urls as [|o urls [IH1 IH2]]; [by split|].
  unfold missingWarnings. cbn [omap list_omap].
  destruct (nonEmpty o); simpl; [done|]. split; [done|]. by constructor.
Qed.

Lemma sleeps_app t1 t2 : sleeps (t1 ++ t2) = sleeps t1 ++ sleeps t2.
Proof. apply omap_app. Qed.

Lemma deliveryEvents_observed c endCursor kds :
  length (shopifyPosts (deliveryEvents c endCursor kds))
  = length kds + sum_list kds.*1
  ∧ sleeps (deliveryEvents c endCursor kds) = replicate (sum_list kds.*1) 5000%Z
  ∧ cacheWrites (deliveryEvents c endCursor kds) = []
  ∧ Forall builderEvent (deliveryEvents c endCursor kds).
Proof.
  revert endCursor.
  induction kds as [|[k d] kds IH]; intros endCursor; [by repeat split|].
  destruct (IH (pageCursor c endCursor d)) as (IH1 & IH2 & IH3 & IH4).
  destruct (rateLimited_observed c (afterArg endCursor) k)
    as (Hr1 & Hr2 & Hr3 & Hr4).
  destruct (missingWarnings_quiet c (pageUrls c d)) as [Hm1 Hm2].
  destruct (missingWarnings_observed c (pageUrls c d)) as [Hm3 Hm4].
  cbn [deliveryEvents fmap list_fmap sum_list fst length].
  change (?e :: ?l1 ++ ?l2) with ([e] ++ l1 ++ l2).
  rewrite !shopifyPosts_app, !sleeps_app, !cacheWrites_app.
  rewrite Hr1, Hr2, Hr3, Hm1, Hm2, Hm3, IH2, IH3.
  split; [|split; [|split]].
  - rewrite !length_app, length_replicate, IH1. simpl. lia.
  - simpl. by rewrite replicate_add.
  - done.
  - repeat (apply Forall_app; split); try done. by repeat constructor.
Qed.

(** X3: rate limits do not show in the result of a sweep.  When the source
    API delivers the pages of a collection, the last one with
    [hasNextPage: false], each after any number of rate-limit replies, the
    sweep returns with the same store, the same cache file and the same
    unread replies as without the rate limits; it only makes one more
    request and one more sleep of 5000 ms for each rate limit, and it writes
    the cache file once. *)
Theorem fetchImages_rate_limits_invisible
    (c : category) (kds : list (nat * gql_data)) (rest : list shopify_reply)
    (w : World)
    (Hcache : cacheFile w ≠ Some Malformed)
    (Hdrained : drained c kds.*2)
    (Hapi : shopifyApi w = deliveries kds ++ rest) :
  let m := mergeUrls c (sweepUrls c kds.*2) (cachedStore w) in
  ∃ evs,
    fetchImages c w
    = Returns tt
        (emit evs
           (setCacheFile (Some (JsonObject m))
              (setShopifyFiles m (setShopifyApi rest w))))
    ∧ length (shopifyPosts evs) = length kds + sum_list kds.*1
    ∧ sleeps evs = replicate (sum_list kds.*1) 5000%Z
    ∧ cacheWrites evs = [m].
Proof.
  intros m.
  exists (deliveryEvents c None kds ++ [EvWriteCache m]).
  destruct (deliveryEvents_observed c None kds) as (H1 & H2 & H3 & _).
  split.
  - unfold fetchImages.
    rewrite bind_run, (loadCache_run w Hcache), bind_run.
    unfold getWorld. cbv beta iota. rewrite bind_run.
    rewrite (pageLoop_deliveries c kds _ None rest); [|done|done|].
    2:{ cbn [shopifyApi setShopifyFiles].
        rewrite Hapi, length_app, deliveries_length. lia. }
    unfold saveCache. rewrite bind_run. unfold getWorld. cbv beta iota.
    rewrite bind_run. unfold modifyWorld. cbv beta iota. rewrite log_run.
    subst m. f_equal. world_eq.
  - rewrite shopifyPosts_app, sleeps_app, cacheWrites_app, length_app.
    rewrite H1, H2, H3. simpl. rewrite app_nil_r. split; [lia|done].
Qed.

Lemma fetchImages_rate_limits_invisible_witness :
  ∃ evs m,
    fetchContentImages
      (setShopifyApi (deliveries (zip [2; 0] twoPages)) world0)
    = Returns tt
        (emit evs
           (setCacheFile (Some (JsonObject m))
              (setShopifyFiles m
                 (setShopifyApi []
                    (setShopifyApi (deliveries (zip [2; 0] twoPages)) world0)))))
    ∧ length (shopifyPosts evs) = 4
    ∧ sleeps evs = [5000%Z; 5000%Z].
Proof.
  destruct (fetchImages_rate_limits_invisible Files (zip [2; 0] twoPages) []
              (setShopifyApi (deliveries (zip [2; 0] twoPages)) world0))
    as (evs & Hrun & Hposts & Hsleeps & _).
  - discriminate.
  - split; reflexivity.
  - reflexivity.
  - exists evs. eexists. split; [exact Hrun|]. split; [exact Hposts|].
    exact Hsleeps.
Defined.

(** X4: an error of the source API other than a rate limit aborts the
    sweep.  When the API has delivered some pages, each announcing a next
    page, and then fails, the sweep throws that error: the pages delivered
    so far are merged into the store in memory, but the cache file is not
    written and stays as it was, and the replies after the error are left
    unread.  A run without a cache file whose first sweep fails in this way
    throws the same error before any row is processed. *)
Theorem fetchImages_error_keeps_cache
    (c : category) (kds : list (nat * gql_data)) (k : nat)
    (status : option Z) (rest : list shopify_reply) (w : World)
    (Hcache : cacheFile w ≠ Some Malformed)
    (Hnext : Forall (λ kd, pageHasNext c kd.2 = true) kds)
    (Hstatus : status ≠ Some 429%Z)
    (Hapi : shopifyApi w
            = deliveries kds
              ++ replicate k tooManyRequests ++ ShopifyFail status :: rest) :
  let m := mergeUrls c (sweepUrls c kds.*2) (cachedStore w) in
  ∃ evs,
    fetchImages c w
    = Throws (AxiosError status)
        (emit evs (setShopifyFiles m (setShopifyApi rest w)))
    ∧ cacheFile (emit evs (setShopifyFiles m (setShopifyApi rest w)))
      = cacheFile w
    ∧ cacheWrites evs = []
    ∧ sinkWrites evs = [] ∧ openAiPosts evs = []
    ∧ (c = Files → cacheFile w = None →
       ∀ input, main input w
                = Throws (AxiosError status)
                    (emit evs (setShopifyFiles m (setShopifyApi rest w)))).
Proof.
  intros m.
  set (cur := sweepCursor c None kds.*2).
  exists (deliveryEvents c None kds
          ++ rateLimited (EvShopifyPost c (afterArg cur)) 5000 k
          ++ [EvShopifyPost c (afterArg cur)]).
  destruct (deliveryEvents_observed c None kds) as (_ & _ & H3 & H4).
  destruct (rateLimited_observed c (afterArg cur) k) as (_ & _ & Hr3 & Hr4).
  assert (Hall : Forall builderEvent
            (deliveryEvents c None kds
             ++ rateLimited (EvShopifyPost c (afterArg cur)) 5000 k
             ++ [EvShopifyPost c (afterArg cur)])).
  { repeat (apply Forall_app; split); try done. by repeat constructor. }
  destruct (builderEvents_quiet _ Hall) as (Hq1 & Hq2 & _).
  assert (Hloop : ∀ m0,
            fetchImages c (setShopifyFiles m0 w)
            = Throws (AxiosError status)
                (emit (deliveryEvents c None kds
                       ++ rateLimited (EvShopifyPost c (afterArg cur)) 5000 k
                       ++ [EvShopifyPost c (afterArg cur)])
                   (setShopifyFiles m (setShopifyApi rest w)))).
  { intros m0. unfold fetchImages.
    rewrite bind_run, (loadCache_run (setShopifyFiles m0 w)) by done.
    rewrite bind_run. unfold getWorld. cbv beta iota. rewrite bind_run.
    cbn [shopifyApi setShopifyFiles].
    replace (S (length (shopifyApi w)))
      with (length kds + S (length (shopifyApi w) - length kds)).
    2:{ rewrite Hapi, length_app, deliveries_length. lia. }
    erewrite pageLoop_delivered; [|done|].
    2:{ cbn [shopifyApi setShopifyFiles]. by rewrite Hapi. }
    cbn [pageLoop]. rewrite bind_run.
    erewrite fetchPage_failed; [|done|reflexivity].
    f_equal. subst m cur. world_eq. }
  split; [by rewrite <- (setShopifyFiles_same w) at 1|]. split; [done|].
  split; [by rewrite !cacheWrites_app, H3, Hr3|].
  split; [done|]. split; [done|].
  intros -> Hnone input. unfold main. rewrite bind_run.
  unfold loadOrFetch. rewrite bind_run. unfold getWorld. cbv beta iota.
  rewrite Hnone. unfold fetchShopifyFiles, fetchContentImages.
  rewrite bind_run. unfold modifyWorld at 1. cbv beta iota.
  by rewrite bind_run, Hloop.
Qed.

Lemma fetchImages_error_keeps_cache_witness :
  ∃ evs,
    fetchContentImages
      (setShopifyApi [ShopifyOk (mkData (Some (mkConnection
                        [mkEdge "f1" (Some "https://cdn.example/files/hat.png")]
                        true)) None None);
                      tooManyRequests; ShopifyFail (Some 500%Z)] world0)
    = Throws (AxiosError (Some 500%Z))
        (emit evs
           (setShopifyFiles
              {[ "hat.png" := "https://cdn.example/files/hat.png" ]}
              (setShopifyApi [] world0)))
    ∧ cacheWrites evs = [].
Proof.
  destruct (fetchImages_error_keeps_cache Files
              [(0, mkData (Some (mkConnection
                     [mkEdge "f1" (Some "https://cdn.example/files/hat.png")]
                     true)) None None)]
              1 (Some 500%Z) []
              (setShopifyApi [ShopifyOk (mkData (Some (mkConnection
                        [mkEdge "f1" (Some "https://cdn.example/files/hat.png")]
                        true)) None None);
                      tooManyRequests; ShopifyFail (Some 500%Z)] world0))
    as (evs & Hrun & _ & Hwrites & _).
  - discriminate.
  - by repeat constructor.
  - discriminate.
  - reflexivity.
  - exists evs. split; [exact Hrun|exact Hwrites].
Defined.

(** ** The cache file after a build *)

Lemma bind_Returns_inv {A B} (m : M A) (k : A → M B) w b w' :
  (m ≫= k) w = Returns b w' →
  ∃ a w1, m w = Returns a w1 ∧ k a w1 = Returns b w'.
Proof.
  rewrite bind_run. destruct (m w) as [a w1| |]; [|done..]. eauto.
Qed.

Lemma fetchImages_returns_saved c w w' :
  fetchImages c w = Returns tt w' →
  cacheFile w' = Some (JsonObject (shopifyFiles w')).
Proof.
  unfold fetchImages.
  intros (_ & w1 & _ & (w1' & w1'' & Hget & (_ & w2 & _ & Hsave)%bind_Returns_inv)%bind_Returns_inv)%bind_Returns_inv.
  unfold saveCache in Hsave. rewrite bind_run in Hsave.
  unfold getWorld in Hsave. cbv beta iota in Hsave.
  rewrite bind_run in Hsave. unfold modifyWorld in Hsave.
  cbv beta iota in Hsave. rewrite log_run in Hsave.
  by simplify_eq.
Qed.

(** X5: persisting and loading round-trip.  When the index builder
    completes, whatever the replies it got, the cache file holds exactly the
    store that is in memory; the start of the next run finds that file and
    changes nothing: it loads the same store and sends no request, so the
    next run consists of the CSV processing alone. *)
Theorem fetchShopifyFiles_then_run_uses_cache (w w' : World)
    (Hbuilt : fetchShopifyFiles w = Returns tt w') :
  cacheFile w' = Some (JsonObject (shopifyFiles w'))
  ∧ loadOrFetch w' = Returns tt w'
  ∧ ∀ input, main input w' = processCsv input w'.
Proof.
  assert (Hsaved : cacheFile w' = Some (JsonObject (shopifyFiles w'))).
  { unfold fetchShopifyFiles in Hbuilt.
    apply bind_Returns_inv in Hbuilt as (_ & w1 & _ & Hbuilt).
    apply bind_Returns_inv in Hbuilt as (_ & w2 & _ & Hbuilt).
    apply bind_Returns_inv in Hbuilt as ([] & w3 & _ & Hbuilt).
    by apply fetchImages_returns_saved in Hbuilt. }
  assert (Hload : loadOrFetch w' = Returns tt w').
  { unfold loadOrFetch. rewrite bind_run. unfold getWorld. cbv beta iota.
    rewrite Hsaved. unfold modifyWorld. by rewrite setShopifyFiles_same. }
  split; [done|]. split; [done|].
  intros input. unfold main. by rewrite bind_run, Hload.
Qed.

Lemma fetchShopifyFiles_then_run_uses_cache_witness :
  loadOrFetch (finalWorld (fetchShopifyFiles shoeWorld))
  = Returns tt (finalWorld (fetchShopifyFiles shoeWorld)).
Proof.
  apply (fetchShopifyFiles_then_run_uses_cache shoeWorld
           (finalWorld (fetchShopifyFiles shoeWorld))).
  vm_compute. reflexivity.
Defined.

(** ** What the store holds *)

(** X6: last write wins.  After a sweep over pages delivered without
    errors, a key holds the last usable URL of the sweep that derives this
    key, and a key that no URL of the sweep derives holds what the cache
    file held for it before the sweep, or nothing.  The key ["__proto__"]
    is like any other when the cache file held an entry of that name;
    when it did not, no sweep creates one. *)
Theorem fetchImages_last_write_wins
    (c : category) (ds : list gql_data) (rest : list shopify_reply) (w : World)
    (k : string)
    (Hcache : cacheFile w ≠ Some Malformed)
    (Hdrained : drained c ds)
    (Hapi : shopifyApi w = (ShopifyOk <$> ds) ++ rest) :
  ∃ w',
    fetchImages c w = Returns tt w'
    ∧ (k ≠ "__proto__" ∨ is_Some (cachedStore w !! k) →
       shopifyFiles w' !! k
       = match last (filter (λ url, keyOfUrl c url = Some k)
                       (usableUrls (sweepUrls c ds))) with
         | Some url => Some url
         | None => cachedStore w !! k
         end)
    ∧ (cachedStore w !! "__proto__" = None →
       shopifyFiles w' !! "__proto__" = None)
    ∧ cacheFile w' = Some (JsonObject (shopifyFiles w')).
Proof.
  eexists. split; [by apply fetchImages_drained|].
  cbn [shopifyFiles cacheFile emit setCacheFile setShopifyFiles].
  split; [|split; [|done]].
  - intros Hk. rewrite mergeUrls_lookup.
    rewrite (list_filter_iff (λ url, storedKey (cachedStore w) c url = Some k)
               (λ url, keyOfUrl c url = Some k)); [done|].
    intros url. rewrite storedKey_derived. split; [by intros [? _]|].
    intros Hkey. split; [done|]. intros ->.
    split; [by eapply keyOfUrl_proto|]. by destruct Hk.
  - intros Hnone. rewrite mergeUrls_lookup_other; [done|].
    unfold storedKeys. intros (url & _ & Hkey)%list_elem_of_omap.
    apply storedKey_derived in Hkey as [_ Hkey].
    destruct (Hkey eq_refl) as [_ [v Hv]]. congruence.
Qed.

Lemma fetchImages_last_write_wins_witness :
  ∃ w',
    fetchContentImages (setShopifyApi [ShopifyOk sameNamePage] world0)
    = Returns tt w'
    ∧ shopifyFiles w' !! "shoe.jpg" = Some "https://cdn.example/b/shoe.jpg".
Proof.
  destruct (fetchImages_last_write_wins Files [sameNamePage] []
              (setShopifyApi [ShopifyOk sameNamePage] world0) "shoe.jpg")
    as (w' & Hrun & Hlookup & _).
  - discriminate.
  - reflexivity.
  - reflexivity.
  - exists w'. split; [exact Hrun|]. rewrite Hlookup; [reflexivity|].
    left. discriminate.
Defined.

Lemma keyedByUrl_empty : keyedByUrl ∅.
Proof. intros k url Hk. by rewrite lookup_empty in Hk. Qed.

Lemma keyedByUrl_mergeUrl c url m :
  url ≠ "" → keyedByUrl m → keyedByUrl (mergeUrl c url m).
Proof.
  intros Hurl Hm. rewrite (mergeUrl_key _ _ _ Hurl).
  destruct (keyOfUrl c url) as [k|] eqn:Hk; [|done].
  rewrite setProp_assignable. destruct (assignable m k); [|done].
  intros k' url' Hlookup.
  destruct (decide (k = k')) as [->|Hne].
  - rewrite lookup_insert_eq in Hlookup. simplify_eq. eauto.
  - rewrite lookup_insert_ne in Hlookup by done. by apply Hm.
Qed.

Lemma keepsIndexInvariant_bind {A B} (m : M A) (k : A → M B) :
  keepsIndexInvariant m → (∀ a, keepsIndexInvariant (k a)) →
  keepsIndexInvariant (m ≫= k).
Proof.
  intros Hm Hk w Hw. rewrite bind_run. specialize (Hm w Hw).
  destruct (m w) as [a w1|e w1|w1]; simpl in *; [|done..].
  by apply Hk.
Qed.

Lemma keepsIndexInvariant_ret {A} (a : A) : keepsIndexInvariant (mret a).
Proof. by intros w Hw. Qed.

Lemma keepsIndexInvariant_log e : keepsIndexInvariant (log e).
Proof. by intros w Hw. Qed.

Lemma keepsIndexInvariant_safeShopifyQuery c after :
  keepsIndexInvariant (safeShopifyQuery c after).
Proof.
  intros w Hw. unfold safeShopifyQuery.
  assert (Hgo : ∀ script w0, indexInvariant w0 →
            indexInvariant (finalWorld (safeShopifyQuery_loop c after script w0))).
  { clear. induction script as [|reply script IH]; intros w0 Hw0; [done|].
    simpl. destruct reply as [d|status]; [done|].
    destruct (isStatus429 status); [|done]. by apply IH. }
  by apply Hgo.
Qed.

Lemma keepsIndexInvariant_mergeIntoFiles c url :
  url ≠ "" → keepsIndexInvariant (mergeIntoFiles c url).
Proof.
  intros Hurl w [Hs Hc]. split; [|done]. simpl.
  by apply keyedByUrl_mergeUrl.
Qed.

Lemma keepsIndexInvariant_forEachEdge {N}
    (callback : option string → edge N → M (option string)) es endCursor :
  (∀ cur e, keepsIndexInvariant (callback cur e)) →
  keepsIndexInvariant (forEachEdge callback es endCursor).
Proof.
  intros Hcb. revert endCursor.
  induction es as [|e es IH]; intros endCursor;
    [apply keepsIndexInvariant_ret|].
  cbn [forEachEdge]. apply keepsIndexInvariant_bind; [apply Hcb|]. apply IH.
Qed.

Lemma keepsIndexInvariant_imageEdge c cur e :
  keepsIndexInvariant (imageEdge c cur e).
Proof.
  unfold imageEdge. destruct (nonEmpty (node e)) as [url|] eqn:Hurl.
  - apply nonEmpty_Some in Hurl as [_ Hurl].
    apply keepsIndexInvariant_bind;
      [by apply keepsIndexInvariant_mergeIntoFiles|].
    intros _. apply keepsIndexInvariant_ret.
  - apply keepsIndexInvariant_bind; [apply keepsIndexInvariant_log|].
    intros _. apply keepsIndexInvariant_ret.
Qed.

Lemma keepsIndexInvariant_forEachImage urls :
  keepsIndexInvariant (forEachImage urls).
Proof.
  induction urls as [|o urls IH]; [apply keepsIndexInvariant_ret|].
  cbn [forEachImage]. apply keepsIndexInvariant_bind; [|by intros _].
  unfold productImage. destruct (nonEmpty o) as [url|] eqn:Hurl.
  - apply nonEmpty_Some in Hurl as [_ Hurl].
    by apply keepsIndexInvariant_mergeIntoFiles.
  - apply keepsIndexInvariant_log.
Qed.

Lemma keepsIndexInvariant_fetchPage c endCursor :
  keepsIndexInvariant (fetchPage c endCursor).
Proof.
  unfold fetchPage.
  apply keepsIndexInvariant_bind; [apply keepsIndexInvariant_safeShopifyQuery|].
  intros d. destruct c.
  - apply keepsIndexInvariant_bind;
      [apply keepsIndexInvariant_forEachEdge, keepsIndexInvariant_imageEdge|].
    intros cur. apply keepsIndexInvariant_ret.
  - apply keepsIndexInvariant_bind;
      [apply keepsIndexInvariant_forEachEdge, keepsIndexInvariant_imageEdge|].
    intros cur. apply keepsIndexInvariant_ret.
  - apply keepsIndexInvariant_bind.
    + apply keepsIndexInvariant_forEachEdge. intros cur e.
      unfold productEdge.
      apply keepsIndexInvariant_bind; [apply keepsIndexInvariant_forEachImage|].
      intros _. apply keepsIndexInvariant_ret.
    + intros cur. apply keepsIndexInvariant_ret.
Qed.

Lemma keepsIndexInvariant_pageLoop c fuel endCursor :
  keepsIndexInvariant (pageLoop c fuel endCursor).
Proof.
  revert endCursor. induction fuel as [|fuel IH]; intros endCursor;
    [by intros w Hw|].
  cbn [pageLoop].
  apply keepsIndexInvariant_bind; [apply keepsIndexInvariant_fetchPage|].
  intros [cur hasNext].
  destruct hasNext; [apply IH|apply keepsIndexInvariant_ret].
Qed.

Lemma keepsIndexInvariant_fetchImages c : keepsIndexInvariant (fetchImages c).
Proof.
  unfold fetchImages. apply keepsIndexInvariant_bind.
  { intros w [Hs Hc]. destruct w as [cf m sa oa tr]. simpl in *.
    destruct cf as [[m0|]|]; simpl; (split; [|done]); simpl;
      eauto using keyedByUrl_empty. }
  intros _. apply keepsIndexInvariant_bind; [by intros w Hw|]. intros w0.
  apply keepsIndexInvariant_bind; [apply keepsIndexInvariant_pageLoop|].
  intros _ w [Hs Hc]. split; [done|]. simpl. intros m ?. by simplify_eq.
Qed.

Lemma keepsIndexInvariant_fetchShopifyFiles :
  keepsIndexInvariant fetchShopifyFiles.
Proof.
  unfold fetchShopifyFiles, fetchContentImages, fetchCollectionImages,
    fetchProductImages.
  apply keepsIndexInvariant_bind.
  { intros w [Hs Hc]. split; [apply keyedByUrl_empty|done]. }
  intros _.
  apply keepsIndexInvariant_bind; [apply keepsIndexInvariant_fetchImages|].
  intros _.
  apply keepsIndexInvariant_bind; [apply keepsIndexInvariant_fetchImages|].
  intros _. apply keepsIndexInvariant_fetchImages.
Qed.

(** X7: the builder keeps the index keyed by URL.  If every entry of the
    store and of the cache file holds a non-empty URL under a key derived
    from it (as is the case when there is no cache file), then this still
    holds after [fetchShopifyFiles], whatever the source API replies and
    whether the build completes, throws or is left waiting.  In such a store
    a file name that is a key is always a match for the engine. *)
Theorem fetchShopifyFiles_keeps_index_keyed (w : World)
    (Hinv : indexInvariant w) :
  indexInvariant (finalWorld (fetchShopifyFiles w))
  ∧ ∀ (fileName url : string),
      shopifyFiles (finalWorld (fetchShopifyFiles w)) !! fileName = Some url →
      matchFile (shopifyFiles (finalWorld (fetchShopifyFiles w))) fileName
      = Some (Str url).
Proof.
  pose proof (keepsIndexInvariant_fetchShopifyFiles w Hinv) as Hinv'.
  split; [done|].
  intros fileName url Hlookup. destruct Hinv' as [Hs _].
  destruct (Hs fileName url Hlookup) as [Hurl _].
  unfold matchFile, Js.getProp. rewrite Hlookup.
  rewrite truthyValue_of_Some; [done|]. by apply truthy_true.
Qed.

Lemma fetchShopifyFiles_keeps_index_keyed_witness :
  indexInvariant shoeWorld
  ∧ matchFile (shopifyFiles (finalWorld (fetchShopifyFiles shoeWorld)))
      "shoe.jpg_product"
    = Some (Str "https://cdn.example/products/shoe.jpg?v=2").
Proof.
  assert (Hinv : indexInvariant shoeWorld).
  { split; [apply keyedByUrl_empty|]. intros m Hm. discriminate Hm. }
  split; [exact Hinv|].
  apply (fetchShopifyFiles_keeps_index_keyed shoeWorld Hinv).
  vm_compute. reflexivity.
Defined.

(** ** File names of URLs *)

Lemma append_assoc s1 s2 s3 : (s1 +:+ s2) +:+ s3 = s1 +:+ (s2 +:+ s3).
Proof.
  induction s1 as [|a s1 IH]; [reflexivity|].
  change (String a ((s1 +:+ s2) +:+ s3) = String a (s1 +:+ s2 +:+ s3)).
  by rewrite IH.
Qed.

Lemma rev_cons a s : String.rev (String a s) = String.rev s +:+ String a "".
Proof. unfold String.rev at 1. simpl. apply rev_app_acc. Qed.

Lemma hasChar_append c s1 s2 :
  hasChar c (s1 +:+ s2) = hasChar c s1 || hasChar c s2.
Proof.
  induction s1 as [|a s1 IH]; [reflexivity|].
  change (String a s1 +:+ s2) with (String a (s1 +:+ s2)). simpl.
  by rewrite IH, orb_assoc.
Qed.

Lemma hasChar_rev c s : hasChar c (String.rev s) = hasChar c s.
Proof.
  induction s as [|a s IH]; [reflexivity|].
  rewrite rev_cons, hasChar_append, IH. simpl.
  by rewrite orb_false_r, orb_comm.
Qed.

(** A string without the separator is not split. *)
Lemma split_go_whole sep cur s :
  hasChar sep s = false →
  Js.split_go sep cur s = [String.rev cur +:+ s].
Proof.
  revert cur. induction s as [|a s IH]; intros cur Hs; simpl in *.
  - f_equal. generalize (String.rev cur). intros t.
    induction t as [|b t IHt]; [done|].
    change (String b t = String b (t +:+ "")). by rewrite <- IHt.
  - apply orb_false_iff in Hs as [Ha Hs]. rewrite Ha, (IH _ Hs).
    by rewrite rev_cons, append_assoc.
Qed.

Lemma split_go_nonempty sep cur s : Js.split_go sep cur s ≠ [].
Proof.
  revert cur. induction s as [|a s IH]; intros cur; simpl; [done|].
  destruct (Ascii.eqb a sep); [done|apply IH].
Qed.

Lemma last_cons_nonempty {A} (x : A) l : l ≠ [] → last (x :: l) = last l.
Proof. by destruct l. Qed.

(** The last piece is what follows the last separator. *)
Lemma split_go_last sep cur pre post :
  last (Js.split_go sep cur (pre +:+ String sep post))
  = last (Js.split_go sep "" post).
Proof.
  revert cur. induction pre as [|a pre IH]; intros cur.
  - change ("" +:+ String sep post) with (String sep post). simpl.
    rewrite Ascii.eqb_refl. apply last_cons_nonempty, split_go_nonempty.
  - change (String a pre +:+ String sep post)
      with (String a (pre +:+ String sep post)). simpl.
    destruct (Ascii.eqb a sep); [|apply IH].
    rewrite last_cons_nonempty by apply split_go_nonempty. apply IH.
Qed.

(** The first piece is what precedes the first separator. *)
Lemma split_go_head sep cur pre post :
  hasChar sep pre = false →
  head (Js.split_go sep cur (pre +:+ String sep post))
  = Some (String.rev cur +:+ pre).
Proof.
  revert cur. induction pre as [|a pre IH]; intros cur Hpre.
  - change ("" +:+ String sep post) with (String sep post). simpl.
    rewrite Ascii.eqb_refl. simpl. f_equal.
    generalize (String.rev cur). intros t.
    induction t as [|b t IHt]; [done|].
    change (String b t = String b (t +:+ "")). by rewrite <- IHt.
  - simpl in Hpre. apply orb_false_iff in Hpre as [Ha Hpre].
    change (String a pre +:+ String sep post)
      with (String a (pre +:+ String sep post)). simpl.
    rewrite Ha, (IH _ Hpre). by rewrite rev_cons, append_assoc.
Qed.

(** No piece contains the separator. *)
Lemma split_go_pieces sep cur s :
  hasChar sep cur = false →
  Forall (λ piece, hasChar sep piece = false) (Js.split_go sep cur s).
Proof.
  revert cur. induction s as [|a s IH]; intros cur Hcur; simpl.
  - repeat constructor. by rewrite hasChar_rev.
  - destruct (Ascii.eqb a sep) eqn:Ha.
    + constructor; [by rewrite hasChar_rev|]. by apply IH.
    + apply IH. simpl. by rewrite Ha.
Qed.

(** The first piece has no character that the string does not have. *)
Lemma split_go_head_chars sep c cur s piece :
  hasChar c cur = false → hasChar c s = false →
  head (Js.split_go sep cur s) = Some piece → hasChar c piece = false.
Proof.
  revert cur. induction s as [|a s IH]; intros cur Hcur Hs; simpl in *.
  - intros ?; simplify_eq. by rewrite hasChar_rev.
  - apply orb_false_iff in Hs as [Ha Hs].
    destruct (Ascii.eqb a sep).
    + simpl. intros ?; simplify_eq. by rewrite hasChar_rev.
    + apply IH; [|done]. simpl. by rewrite Ha.
Qed.

(** X8: the file name derived from a URL.  Every URL has one, and it
    contains neither a slash nor a question mark.  For a URL that ends with
    a slash, a file name without slash or question mark, and possibly a
    question mark and a query without slash, it is that file name.  A URL
    that ends with a slash has the empty file name and is not stored. *)
Theorem fileNameOf_last_segment (url dir name query : string) (c : category)
    (m : Store)
    (Hslash : hasChar "/" name = false)
    (Hquestion : hasChar "?" name = false)
    (Hquery : hasChar "/" query = false) :
  (∃ fileName, fileNameOf url = Some fileName
               ∧ hasChar "/" fileName = false
               ∧ hasChar "?" fileName = false)
  ∧ fileNameOf (dir +:+ "/" +:+ name) = Some name
  ∧ fileNameOf (dir +:+ "/" +:+ name +:+ "?" +:+ query) = Some name
  ∧ mergeUrl c (dir +:+ "/") m = m.
Proof.
  split; [|split; [|split]].
  - unfold fileNameOf, Js.split.
    destruct (last (Js.split_go "/" "" url)) as [seg|] eqn:Hseg.
    2:{ apply last_None in Hseg. by apply split_go_nonempty in Hseg. }
    simpl.
    destruct (head (Js.split_go "?" "" seg)) as [f|] eqn:Hf.
    2:{ apply head_None in Hf. by apply split_go_nonempty in Hf. }
    exists f. split; [done|].
    assert (Hsegs : hasChar "/" seg = false).
    { pose proof (split_go_pieces "/" "" url eq_refl) as Hall.
      apply last_Some in Hseg as [l' Hl']. rewrite Hl' in Hall.
      apply Forall_app in Hall as [_ Hall].
      apply Forall_cons in Hall as [Hall _]. exact Hall. }
    split.
    + by eapply (split_go_head_chars "?" "/" "" seg).
    + pose proof (split_go_pieces "?" "" seg eq_refl) as Hall.
      destruct (Js.split_go "?" "" seg) as [|x l]; [done|].
      simpl in Hf. simplify_eq. by apply Forall_cons in Hall as [? _].
  - unfold fileNameOf, Js.split.
    change (dir +:+ "/" +:+ name) with (dir +:+ String "/" name).
    rewrite split_go_last, (split_go_whole _ _ _ Hslash). simpl.
    by rewrite (split_go_whole _ _ _ Hquestion).
  - unfold fileNameOf, Js.split.
    change (dir +:+ "/" +:+ name +:+ "?" +:+ query)
      with (dir +:+ String "/" (name +:+ String "?" query)).
    rewrite split_go_last, split_go_whole.
    2:{ rewrite hasChar_append. simpl. by rewrite Hslash, Hquery. }
    simpl.
    change (String.rev "" +:+ name +:+ String "?" query)
      with (name +:+ String "?" query).
    by rewrite (split_go_head _ _ _ _ Hquestion).
  - unfold mergeUrl, fileNameOf, Js.split.
    change (dir +:+ "/") with (dir +:+ String "/" "").
    by rewrite split_go_last.
Qed.

Lemma fileNameOf_last_segment_witness :
  (∃ fileName, fileNameOf "https://cdn.example/r?next=/a/b" = Some fileName
               ∧ hasChar "/" fileName = false
               ∧ hasChar "?" fileName = false)
  ∧ fileNameOf ("https://cdn.example/files" +:+ "/" +:+ "shoe.jpg" +:+ "?"
                +:+ "v=1&width=100")
    = Some "shoe.jpg".
Proof.
  destruct (fileNameOf_last_segment "https://cdn.example/r?next=/a/b"
              "https://cdn.example/files" "shoe.jpg" "v=1&width=100"
              Files ∅ eq_refl eq_refl eq_refl)
    as (Hany & _ & Hquery & _).
  split; [exact Hany | exact Hquery].
Defined.

(** A slash in the query string moves the file name into the query. *)
Example fileNameOf_slash_in_query :
  fileNameOf "https://cdn.example/files/shoe.jpg?next=/a/b" = Some "b".
Proof. reflexivity. Qed.

(** ** Rows that need no generation call *)

Lemma trimStart_allWhiteSpace s :
  allWhiteSpace s = true → Js.trimStart s = "".
Proof.
  induction s as [|a s IH]; [done|]. simpl.
  intros [Ha Hs]%andb_true_iff. rewrite Ha. by apply IH.
Qed.

Lemma trim_allWhiteSpace s : allWhiteSpace s = true → Js.trim s = "".
Proof. intros Hs. unfold Js.trim. by rewrite trimStart_allWhiteSpace. Qed.

Lemma needsCall_false m row :
  needsCall m row = false ↔
  resolve m row = None ∨ Js.truthyVO (row !! "Alt Text") = true.
Proof.
  unfold needsCall. rewrite andb_false_iff, bool_decide_eq_false.
  rewrite negb_false_iff, <- eq_None_not_Some. done.
Qed.

Lemma needsCall_true m row :
  needsCall m row = true ↔
  (∃ link, resolve m row = Some link)
  ∧ Js.truthyVO (row !! "Alt Text") = false.
Proof.
  unfold needsCall. rewrite andb_true_iff, bool_decide_eq_true.
  by rewrite negb_true_iff.
Qed.

(** A row gets a warning exactly when it does not resolve. *)
Lemma rowWarning_resolve m i row :
  is_Some (rowWarning m i row) ↔ resolve m row = None.
Proof.
  unfold rowWarning, resolve.
  destruct (nonEmpty (fileNameField row)) as [fileName|]; simpl.
  - destruct (matchFile m fileName) as [link|].
    + split; [by intros [x Hx]|done].
    + split; [done|eauto].
  - split; [done|eauto].
Qed.

Lemma processRow_settled i row w :
  namedByString row →
  needsCall (shopifyFiles w) row = false →
  processRow i row w
  = Returns (settle (shopifyFiles w) row)
      (emit (skipWarning (shopifyFiles w) i row) w).
Proof.
  intros Hrow Hcase%needsCall_false.
  unfold processRow, settle, skipWarning, rowWarning, resolve in *.
  rewrite bind_run, trimField_run by done. cbv beta iota.
  destruct (nonEmpty (fileNameField row)) as [fileName|];
    simpl in *; [|done].
  rewrite bind_run. simpl.
  destruct (matchFile (shopifyFiles w) fileName) as [link|]; [|done].
  destruct Hcase as [?|Halt]; [done|].
  rewrite lookup_insert_ne by done. rewrite Halt. simpl.
  by rewrite emit_nil.
Qed.

Lemma mjoin_cons {A} (x : list A) (l : list (list A)) :
  mjoin (x :: l) = x ++ mjoin l.
Proof. reflexivity. Qed.

Lemma forEachRow_settled i chunk w :
  Forall namedByString chunk →
  Forall (λ row, needsCall (shopifyFiles w) row = false) chunk →
  forEachRow i chunk w
  = Returns (settle (shopifyFiles w) <$> chunk)
      (emit (mjoin (skipWarning (shopifyFiles w) i <$> chunk)) w).
Proof.
  revert w. induction chunk as [|row chunk IH]; intros w Hnamed Hall.
  - simpl. by rewrite emit_nil.
  - apply Forall_cons in Hall as [Hrow Hall].
    apply Forall_cons in Hnamed as [Hnamed1 Hnamed].
    cbn [forEachRow].
    rewrite bind_run, (processRow_settled _ _ _ Hnamed1 Hrow).
    rewrite bind_run, IH by done. simpl. f_equal. world_eq.
Qed.

Lemma chunkLoop_settled fuel i rows w :
  length rows - i < fuel →
  Forall namedByString (drop i rows) →
  Forall (λ row, needsCall (shopifyFiles w) row = false) (drop i rows) →
  chunkLoop fuel i rows w
  = Returns (take i rows ++ (settle (shopifyFiles w) <$> drop i rows))
      (emit (quietEvents fuel i (shopifyFiles w) (drop i rows)) w).
Proof.
  pose proof openAiChunkSize_pos as Hpos.
  revert i rows w.
  induction fuel as [|fuel IH]; intros i rows w Hfuel Hnamed Hall; [lia|].
  cbn [chunkLoop quietEvents]. case_bool_decide as Hi.
  - destruct (drop i rows) as [|row0 tail0] eqn:Htail.
    { apply (f_equal length) in Htail. rewrite length_drop in Htail.
      simpl in Htail. lia. }
    rewrite <- Htail in *. clear row0 tail0 Htail.
    rewrite bind_run, log_run, bind_run.
    assert (Hslice : slice i (i + openAiChunkSize) rows
                     = take openAiChunkSize (drop i rows)).
    { unfold slice. f_equal. lia. }
    rewrite Hslice.
    set (chunk := take openAiChunkSize (drop i rows)).
    rewrite forEachRow_settled.
    2:{ by apply Forall_take. }
    2:{ cbn [shopifyFiles emit]. by apply Forall_take. }
    cbn [shopifyFiles emit].
    rewrite bind_run. unfold sleep. rewrite log_run.
    assert (Hlen : length (settle (shopifyFiles w) <$> chunk)
                   = openAiChunkSize `min` (length rows - i)).
    { subst chunk. by rewrite length_fmap, length_take, length_drop. }
    destruct (splice_chunk rows (settle (shopifyFiles w) <$> chunk) i
                openAiChunkSize Hi Hlen) as (Hl1 & Htake & Hdrop).
    assert (Hdd : drop openAiChunkSize (drop i rows)
                  = drop (i + openAiChunkSize) rows).
    { rewrite drop_drop. f_equal. }
    rewrite IH.
    + cbn [shopifyFiles emit]. rewrite Htake, Hdrop.
      rewrite Hdd. f_equal.
      * rewrite <- app_assoc. f_equal. rewrite <- fmap_app. f_equal.
        subst chunk. by rewrite <- Hdd, take_drop.
      * world_eq.
    + rewrite Hl1. lia.
    + rewrite Hdrop. rewrite <- Hdd. by apply Forall_drop.
    + cbn [shopifyFiles emit]. rewrite Hdrop.
      rewrite <- Hdd. by apply Forall_drop.
  - rewrite drop_ge, take_ge by lia. simpl.
    by rewrite app_nil_r, emit_nil.
Qed.

Lemma processBatch_settled rows w :
  Forall namedByString rows →
  Forall (λ row, needsCall (shopifyFiles w) row = false) rows →
  processBatch rows w
  = Returns tt
      (emit (quietEvents (S (length rows)) 0 (shopifyFiles w) rows
             ++ [EvWriteRecords
                   (withoutUpdatedLink <$> (settle (shopifyFiles w) <$> rows))])
         w).
Proof.
  intros Hnamed Hall. unfold processBatch.
  rewrite bind_run, chunkLoop_settled; [|lia|done|done].
  rewrite log_run. rewrite drop_0.
  change (take 0 rows ++ ?l) with l. f_equal. world_eq.
Qed.

Lemma resolve_ext m row1 row2 :
  row1 !! "File Name" = row2 !! "File Name" → resolve m row1 = resolve m row2.
Proof. unfold resolve, fileNameField. by intros ->. Qed.

(** A written row is settled: processing it again needs no call and
    writes the same row. *)
Lemma written_settled m row out :
  written m row out →
  namedByString out
  ∧ needsCall m out = false ∧ withoutUpdatedLink (settle m out) = out.
Proof.
  intros (row' & Henr & ->). unfold withoutUpdatedLink.
  assert (Hname : delete "Updated Link" row' !! "File Name"
                  = rowObject row !! "File Name").
  { rewrite lookup_delete_ne by done.
    destruct Henr; by rewrite ?lookup_insert_ne by done. }
  split; [|split].
  - intros name. rewrite Hname. apply rowObject_namedByString.
  - apply needsCall_false. rewrite (resolve_ext _ _ _ Hname).
    rewrite lookup_delete_ne by done.
    destruct Henr as [Hnone|link _ Halt|link altText _ _ Hne].
    + by left.
    + right. by rewrite lookup_insert_ne.
    + right. rewrite lookup_insert_eq. by apply truthy_true.
  - unfold settle. destruct (resolve m (delete "Updated Link" row')).
    + by rewrite delete_insert_eq, delete_delete_eq.
    + by rewrite delete_delete_eq.
Qed.

Lemma skipWarning_quiet m i row :
  openAiPosts (skipWarning m i row) = []
  ∧ sinkWrites (skipWarning m i row) = [].
Proof. unfold skipWarning. by destruct (rowWarning m i row). Qed.

Lemma skipWarnings_quiet m i chunk :
  openAiPosts (mjoin (skipWarning m i <$> chunk)) = []
  ∧ sinkWrites (mjoin (skipWarning m i <$> chunk)) = [].
Proof.
  induction chunk as [|row chunk [IH1 IH2]]; [done|].
  rewrite fmap_cons, mjoin_cons, openAiPosts_app, sinkWrites_app, IH1, IH2.
  destruct (skipWarning_quiet m i row) as [-> ->]. done.
Qed.

Lemma quietEvents_quiet fuel i m tail :
  openAiPosts (quietEvents fuel i m tail) = []
  ∧ sinkWrites (quietEvents fuel i m tail) = [].
Proof.
  revert i tail. induction fuel as [|fuel IH]; intros i tail; [done|].
  cbn [quietEvents]. destruct tail as [|row tail]; [done|].
  set (chunk := take openAiChunkSize (row :: tail)).
  destruct (IH (i + openAiChunkSize) (drop openAiChunkSize (row :: tail)))
    as [IH1 IH2].
  destruct (skipWarnings_quiet m i chunk) as [Hw1 Hw2].
  change (?e :: ?l1 ++ ?e' :: ?l2) with ([e] ++ l1 ++ [e'] ++ l2).
  rewrite !openAiPosts_app, !sinkWrites_app, IH1, IH2, Hw1, Hw2. done.
Qed.

(** X10: running the engine again over what it wrote changes nothing.
    When [processBatch] has handed a batch to the sink, processing the
    written batch with the same store, whatever the generation API would
    reply, returns without any request to the generation API and writes the
    very same batch again. *)
Theorem processBatch_rerun_is_idle (rows : list Row) (w w1 : World)
    (Hfirst : processBatch (rowObject <$> rows) w = Returns tt w1) :
  ∃ out evs,
    trace w1 = trace w ++ evs
    ∧ sinkWrites evs = [out]
    ∧ ∀ w2, shopifyFiles w2 = shopifyFiles w →
        ∃ evs2,
          processBatch out w2 = Returns tt (emit evs2 w2)
          ∧ sinkWrites evs2 = [out]
          ∧ openAiPosts evs2 = [].
Proof.
  pose proof (processBatch_outcome (rowObject <$> rows) w
                (rowObjects_namedByString rows)) as H.
  rewrite Hfirst in H.
  destruct H as (rows' & evs & script' & -> & Hall & _ & _ & Hs).
  apply (written_fmap (shopifyFiles w)) in Hall.
  set (out := withoutUpdatedLink <$> rows') in *. clearbody out.
  exists out, evs. split; [done|]. split; [done|].
  intros w2 Hstore.
  assert (Hsettled : Forall (λ row, namedByString row
                                    ∧ needsCall (shopifyFiles w2) row = false
                                    ∧ withoutUpdatedLink
                                        (settle (shopifyFiles w2) row) = row)
                       out).
  { rewrite Hstore. clear -Hall.
    induction Hall as [|row o rows outs Hw _ IH]; [done|].
    constructor; [by eapply written_settled|done]. }
  eexists. split.
  { apply processBatch_settled.
    - eapply Forall_impl; [exact Hsettled|]. by intros row (? & _ & _).
    - eapply Forall_impl; [exact Hsettled|]. by intros row (_ & ? & _). }
  destruct (quietEvents_quiet (S (length out)) 0 (shopifyFiles w2) out)
    as [Hq1 Hq2].
  rewrite sinkWrites_app, openAiPosts_app, Hq1, Hq2. simpl.
  split; [|done]. do 2 f_equal.
  clear -Hsettled. induction Hsettled as [|row l (_ & _ & Hrow) _ IH]; [done|].
  by rewrite !fmap_cons, Hrow, IH.
Qed.

Lemma processBatch_rerun_is_idle_witness :
  ∃ out evs,
    trace (finalWorld (processBatch (rowObject <$> [shoeProductRow])
             (setOpenAiApi [shoeReply] (setShopifyFiles shoeIndex world0))))
    = trace (setOpenAiApi [shoeReply] (setShopifyFiles shoeIndex world0))
      ++ evs
    ∧ sinkWrites evs = [out]
    ∧ ∃ evs2,
        processBatch out (setShopifyFiles shoeIndex world0)
        = Returns tt (emit evs2 (setShopifyFiles shoeIndex world0))
        ∧ sinkWrites evs2 = [out]
        ∧ openAiPosts evs2 = [].
Proof.
  destruct (processBatch_rerun_is_idle [shoeProductRow]
              (setOpenAiApi [shoeReply] (setShopifyFiles shoeIndex world0))
              (finalWorld (processBatch (rowObject <$> [shoeProductRow])
                 (setOpenAiApi [shoeReply] (setShopifyFiles shoeIndex world0)))))
    as (out & evs & Htrace & Hsink & Hrerun).
  - vm_compute. reflexivity.
  - exists out, evs. split; [exact Htrace|]. split; [exact Hsink|].
    apply (Hrerun (setShopifyFiles shoeIndex world0)). reflexivity.
Defined.

(** ** Batches and chunks of any input *)

Lemma sliceSizes_zero fuel size : sliceSizes fuel size 0 = [].
Proof. by destruct fuel. Qed.

Lemma sliceSizes_closed fuel size n :
  0 < size → n < fuel → sliceSizes fuel size n = sliceLengths size n.
Proof.
  intros Hsize. revert n. induction fuel as [|fuel IH]; intros n Hn; [lia|].
  cbn [sliceSizes]. unfold sliceLengths. case_bool_decide as Hpos.
  - destruct (decide (n < size)) as [Hlt|Hge].
    + replace (n - size) with 0 by lia. rewrite sliceSizes_zero.
      rewrite Nat.div_small, Nat.mod_small by done.
      rewrite decide_False by lia. simpl. f_equal. lia.
    + rewrite IH by lia. unfold sliceLengths.
      assert (Hdiv : n / size = S ((n - size) / size)).
      { replace n with ((n - size) + 1 * size) at 1 by lia.
        rewrite Nat.div_add by lia. lia. }
      assert (Hmod : n `mod` size = (n - size) `mod` size).
      { replace n with ((n - size) + 1 * size) at 1 by lia.
        by rewrite Nat.Div0.mod_add. }
      rewrite Hdiv, Hmod. simpl. f_equal. lia.
  - replace n with 0 by lia. rewrite Nat.Div0.div_0_l, Nat.Div0.mod_0_l.
    by rewrite decide_True.
Qed.

Lemma sliceLengths_bounds size n :
  0 < size → Forall (λ k, 0 < k ≤ size) (sliceLengths size n).
Proof.
  intros Hsize. unfold sliceLengths. apply Forall_app. split.
  - apply Forall_replicate. lia.
  - destruct (decide _); [done|]. repeat constructor; [lia|].
    pose proof (Nat.mod_upper_bound n size). lia.
Qed.

Lemma fmap_mjoin {A B} (f : A → B) (ls : list (list A)) :
  f <$> mjoin ls = mjoin (fmap f <$> ls).
Proof.
  induction ls as [|l ls IH]; [done|].
  by rewrite fmap_cons, !mjoin_cons, fmap_app, IH.
Qed.

Lemma written_batches m (batch : list Row) outs :
  Forall2 (enriched m) (rowObject <$> batch) (mjoin outs) →
  Forall2 (written m) batch (mjoin ((fmap withoutUpdatedLink) <$> outs)).
Proof. intros Hall. rewrite <- fmap_mjoin. by apply written_fmap. Qed.

(** X11: batches of any input.  For every input, provided the generation
    API has a reply other than a rate limit for each row, [processCsv]
    returns, having written to the sink the processed rows in input order,
    cut into full batches of [batchSize] rows followed by one shorter batch
    when the number of rows is not a multiple of [batchSize]; each batch is
    again cut into full chunks of [openAiChunkSize] rows and a shorter last
    chunk.  No batch is empty, so an empty input writes nothing. *)
Theorem processCsv_batches_any_input (batch : list Row) (w : World)
    (Hreplies : length batch ≤ terminals (openAiApi w)) :
  ∃ outs evs script',
    processCsv batch w = Returns tt (emit evs (setOpenAiApi script' w))
    ∧ sinkWrites evs = outs
    ∧ length <$> outs = sliceLengths batchSize (length batch)
    ∧ Forall (λ out, 0 < length out ≤ batchSize) outs
    ∧ Forall2 (written (shopifyFiles w)) batch (mjoin outs)
    ∧ chunkSizes evs = mjoin (sliceLengths openAiChunkSize <$> (length <$> outs))
    ∧ (batch = [] → evs = []).
Proof.
  unfold processCsv.
  pose proof (batchLoop_outcome (S (length batch)) 0 (rowObject <$> batch) w)
    as H.
  rewrite length_fmap in H.
  specialize (H ltac:(lia) (rowObjects_namedByString batch)).
  destruct (batchLoop _ _ _ _) as [[] w'| |] eqn:Hrun; [|done|lia].
  destruct H as (outs & evs & script' & -> & Hall & Hlens & Hs & Hc & _).
  rewrite Nat.sub_0_r in Hlens.
  rewrite (sliceSizes_closed _ _ _ batchSize_pos) in Hlens by lia.
  rewrite drop_0 in Hall.
  exists (sinkWrites evs), evs, script'.
  assert (Hlens' : length <$> sinkWrites evs = length <$> outs).
  { rewrite Hs, <- list_fmap_compose. apply list_fmap_ext.
    intros _ o _. simpl. apply length_fmap. }
  split; [done|]. split; [done|]. rewrite Hlens'.
  split; [done|]. split.
  { pose proof (sliceLengths_bounds batchSize (length batch) batchSize_pos)
      as Hb.
    rewrite <- Hlens, <- Hlens' in Hb. apply Forall_fmap in Hb.
    eapply Forall_impl; [exact Hb|]. intros o Ho. exact Ho. }
  split; [rewrite Hs; by apply written_batches|].
  split.
  { rewrite Hc. unfold chunkSizesOf. f_equal. apply list_fmap_ext.
    intros _ n _. apply (sliceSizes_closed _ _ _ openAiChunkSize_pos). lia. }
  intros ->. simpl in Hrun. unfold mret, M_ret in Hrun.
  injection Hrun as Hw. apply (f_equal trace) in Hw. simpl in Hw.
  rewrite <- (app_nil_r (trace w)) in Hw at 1.
  by apply app_inv_head in Hw.
Qed.

Lemma processCsv_batches_any_input_witness :
  ∃ outs evs script',
    processCsv (replicate 31 ∅)
      (setOpenAiApi (replicate 31 (OpenAiFail None)) world0)
    = Returns tt
        (emit evs
           (setOpenAiApi script'
              (setOpenAiApi (replicate 31 (OpenAiFail None)) world0)))
    ∧ sinkWrites evs = outs
    ∧ length <$> outs = [31]
    ∧ chunkSizes evs = [30; 1].
Proof.
  destruct (processCsv_batches_any_input (replicate 31 ∅)
              (setOpenAiApi (replicate 31 (OpenAiFail None)) world0))
    as (outs & evs & script' & Hrun & Hs & Hlens & _ & _ & Hc & _).
  - vm_compute. lia.
  - exists outs, evs, script'. split; [exact Hrun|]. split; [exact Hs|].
    split; [exact Hlens|]. rewrite Hc, Hlens. reflexivity.
Defined.

(** ** Generation calls and pauses of a batch *)

Lemma pauses_app t1 t2 : pauses (t1 ++ t2) = pauses t1 + pauses t2.
Proof. unfold pauses. by rewrite sleeps_app, filter_app, length_app. Qed.

Lemma served_refl m w : served m [] [] [] w w.
Proof. repeat split; try done. simpl. by rewrite app_nil_r. Qed.

(** A row that needs no call is served by no call. *)
Lemma served_skipped m row evs w :
  needsCall m row = false → openAiPosts evs = [] → sinkWrites evs = [] →
  served m [row] [] evs w (emit evs w).
Proof.
  intros Hrow Hp Hs. repeat split; try done.
  unfold callLinks. simpl. by rewrite Hrow.
Qed.

Lemma served_app m rows1 rows2 calls1 calls2 evs1 evs2 w w1 w2 :
  served m rows1 calls1 evs1 w w1 → served m rows2 calls2 evs2 w1 w2 →
  served m (rows1 ++ rows2) (calls1 ++ calls2) (evs1 ++ evs2) w w2.
Proof.
  intros (Hf1 & Ht1 & Ha1 & Hc1 & Hl1 & Hp1 & Hs1)
         (Hf2 & Ht2 & Ha2 & Hc2 & Hl2 & Hp2 & Hs2).
  split; [congruence|]. split; [by rewrite Ht2, Ht1, app_assoc|].
  split.
  { rewrite Ha1, Ha2, fmap_app, join_app. by rewrite <- app_assoc. }
  split; [by apply Forall_app|]. split.
  { unfold callLinks in *. by rewrite fmap_app, omap_app, Hl1, Hl2. }
  split.
  - by rewrite openAiPosts_app, Hp1, Hp2, fmap_app, join_app.
  - by rewrite sinkWrites_app, Hs1, Hs2.
Qed.

(** A generation call that returns has read some rate limits and the
    reply that ended it, and has made one request for each of them. *)
Lemma generateAltText_loop_call link script w text w' :
  generateAltText_loop link script w = Returns text w' →
  ∃ k reply rest evs,
    script = replicate k rateLimitExceeded ++ reply :: rest
    ∧ isTerminal reply = true
    ∧ w' = emit evs (setOpenAiApi rest w)
    ∧ openAiPosts evs = replicate (S k) link
    ∧ Forall (callEvent link) evs.
Proof.
  revert w. induction script as [|reply script IH]; intros w; [done|].
  simpl. destruct reply as [body|code].
  - intros Hrun. exists 0, (OpenAiOk body), script, [EvOpenAiPost link].
    rewrite emit_setOpenAiApi.
    split; [done|]. split; [done|]. split.
    { by destruct (choices body); simplify_eq. }
    split; [done|]. repeat constructor.
  - destruct (isRateLimitCode code) eqn:Hcode.
    + intros Hrun.
      apply IH in Hrun as (k & reply & rest & evs & -> & Ht & -> & Hp & He).
      apply bool_decide_eq_true in Hcode as ->.
      exists (S k), reply, rest,
        ([EvOpenAiPost link; EvSleep openAiRequestDelay] ++ evs).
      split; [done|]. split; [done|]. split.
      { rewrite !emit_setOpenAiApi, !emit_emit, !setOpenAiApi_twice.
        reflexivity. }
      split; [by rewrite openAiPosts_app, Hp|].
      repeat (constructor; [unfold callEvent; auto|]). done.
    + intros ?; simplify_eq.
      exists 0, (OpenAiFail code), script, [EvOpenAiPost link].
      rewrite emit_setOpenAiApi.
      split; [done|]. split; [by simpl; rewrite Hcode|].
      split; [done|]. split; [done|]. repeat constructor.
Qed.

Lemma skipWarning_observed m i row :
  chunkSizes (skipWarning m i row) = [] ∧ pauses (skipWarning m i row) = 0
  ∧ warnings (skipWarning m i row) = omap (rowWarning m i) [row].
Proof.
  unfold skipWarning. simpl. by destruct (rowWarning m i row).
Qed.

Lemma callEvents_observed imageUrl evs :
  Forall (callEvent imageUrl) evs →
  chunkSizes evs = [] ∧ pauses evs = 0 ∧ warnings evs = []
  ∧ sinkWrites evs = [].
Proof.
  induction 1 as [|e evs [->| ->] _ (IH1 & IH2 & IH3 & IH4)]; [done|..].
  - done.
  - change (EvSleep openAiRequestDelay :: evs)
      with ([EvSleep openAiRequestDelay] ++ evs).
    rewrite chunkSizes_app, pauses_app, warnings_app, sinkWrites_app,
      IH1, IH2, IH3, IH4.
    split; [done|]. split; [|done].
    unfold pauses. simpl. rewrite openAiRequestDelay_value.
    rewrite filter_cons_False by done. done.
Qed.

(** One row: the call it needs, if any, and the warning it gets, if
    any. *)
Lemma processRow_served i row w row' w' :
  namedByString row →
  processRow i row w = Returns row' w' →
  ∃ calls evs,
    served (shopifyFiles w) [row] calls evs w w'
    ∧ warnings evs = omap (rowWarning (shopifyFiles w) i) [row]
    ∧ chunkSizes evs = [] ∧ pauses evs = 0.
Proof.
  intros Hnamed.
  destruct (needsCall (shopifyFiles w) row) eqn:Hneeds.
  - intros Hrun.
    pose proof Hneeds as [[link Hres] Halt]%needsCall_true.
    unfold processRow in Hrun. unfold resolve in Hres.
    rewrite bind_run, trimField_run in Hrun by done. cbv beta iota in Hrun.
    destruct (nonEmpty (fileNameField row)) as [fileName|]
      eqn:Hname; [|done]. simpl in Hres.
    rewrite bind_run in Hrun. simpl in Hrun. rewrite Hres in Hrun.
    rewrite lookup_insert_ne in Hrun by done. rewrite Halt in Hrun.
    change (negb false) with true in Hrun. cbv iota in Hrun.
    rewrite lookup_insert_eq in Hrun.
    rewrite truthyValue_of_Some in Hrun by (by eapply matchFile_truthy).
    rewrite bind_run in Hrun. unfold generateAltText in Hrun.
    destruct (generateAltText_loop _ _ _) as [text w''| |] eqn:Hgen;
      [|done..].
    apply generateAltText_loop_call in Hgen
      as (k & reply & rest & evs & Hscript & Hterm & -> & Hposts & Hevs).
    unfold mret, M_ret in Hrun. simplify_eq.
    destruct (callEvents_observed _ _ Hevs) as (Hc & Hp & Hw & Hs).
    exists [mkCall link k reply], evs.
    split; [|split; [|done]].
    + split; [done|]. split; [done|]. split.
      { simpl. unfold callReplies. simpl.
        by rewrite Hscript, app_nil_r, <- app_assoc. }
      split; [by repeat constructor|]. split.
      { unfold callLinks. simpl. rewrite Hneeds. unfold resolve.
        rewrite Hname. simpl. by rewrite Hres. }
      split; [|done]. simpl. unfold callPosts. simpl.
      by rewrite app_nil_r.
    + rewrite Hw. simpl. unfold rowWarning. rewrite Hname. by rewrite Hres.
  - rewrite (processRow_settled _ _ _ Hnamed Hneeds). intros ?; simplify_eq.
    destruct (skipWarning_observed (shopifyFiles w) i row) as (Hc & Hp & Hw).
    destruct (skipWarning_quiet (shopifyFiles w) i row) as [Hq Hs].
    exists [], (skipWarning (shopifyFiles w) i row).
    split; [by apply served_skipped|done].
Qed.

Lemma forEachRow_served i chunk w chunk' w' :
  Forall namedByString chunk →
  forEachRow i chunk w = Returns chunk' w' →
  ∃ calls evs,
    served (shopifyFiles w) chunk calls evs w w'
    ∧ warnings evs = omap (rowWarning (shopifyFiles w) i) chunk
    ∧ chunkSizes evs = [] ∧ pauses evs = 0.
Proof.
  revert w chunk'. induction chunk as [|row chunk IH]; intros w chunk' Hnamed.
  - simpl. unfold mret, M_ret. intros ?; simplify_eq. exists [], [].
    split; [apply served_refl|done].
  - apply Forall_cons in Hnamed as [Hnamed1 Hnamed].
    cbn [forEachRow].
    intros (row' & w1 & Hrow & (chunk'' & w2 & Hrest & Hret)%bind_Returns_inv)%bind_Returns_inv.
    unfold mret, M_ret in Hret. simplify_eq.
    apply processRow_served in Hrow
      as (calls1 & evs1 & Hs1 & Hw1 & Hc1 & Hp1); [|done].
    apply IH in Hrest as (calls2 & evs2 & Hs2 & Hw2 & Hc2 & Hp2); [|done].
    rewrite (proj1 Hs1) in Hs2, Hw2.
    exists (calls1 ++ calls2), (evs1 ++ evs2).
    split; [exact (served_app _ [row] chunk _ _ _ _ _ _ _ Hs1 Hs2)|].
    rewrite warnings_app, chunkSizes_app, pauses_app, Hw1, Hw2, Hc1, Hc2,
      Hp1, Hp2.
    split; [|done]. by rewrite <- omap_app.
Qed.

(** The chunk loop: every chunk is announced, its rows are served, and the
    engine pauses once after it. *)
Lemma chunkLoop_served fuel i rows w rows' w' :
  Forall namedByString (drop i rows) →
  chunkLoop fuel i rows w = Returns rows' w' →
  ∃ calls evs,
    served (shopifyFiles w) (drop i rows) calls evs w w'
    ∧ pauses evs = length (chunkSizes evs).
Proof.
  revert i rows w.
  induction fuel as [|fuel IH]; intros i rows w Hnamed; [done|].
  cbn [chunkLoop]. case_bool_decide as Hi.
  - rewrite bind_run, log_run.
    intros (chunk' & w1 & Hchunk & Hrest)%bind_Returns_inv.
    unfold sleep in Hrest. rewrite bind_run, log_run in Hrest.
    rewrite (slice_drop rows i openAiChunkSize) in Hnamed.
    apply Forall_app in Hnamed as [Hnamed1 Hnamed2].
    set (chunk := slice i (i + openAiChunkSize) rows) in *.
    pose proof (forEachRow_outcome i chunk
                  (emit [EvChunk (length chunk)] w) Hnamed1) as Hout.
    rewrite Hchunk in Hout.
    destruct Hout as (_ & _ & _ & Hall & _).
    apply Forall2_length in Hall. unfold chunk in Hall.
    rewrite slice_length in Hall.
    destruct (splice_chunk rows chunk' i openAiChunkSize Hi (eq_sym Hall))
      as (_ & _ & Hdrop).
    apply forEachRow_served in Hchunk
      as (calls1 & evs1 & Hs1 & _ & Hc1 & Hp1); [|done].
    apply IH in Hrest as (calls2 & evs2 & Hs2 & Hp2);
      [|by rewrite Hdrop].
    rewrite Hdrop in Hs2.
    destruct Hs1 as (Hf1 & Ht1 & Ha1 & Hk1 & Hl1 & Hq1 & Hw1).
    cbn [shopifyFiles openAiApi trace emit] in *.
    rewrite Hf1 in Hs2.
    assert (Hs1' : served (shopifyFiles w) chunk calls1
                     ([EvChunk (length chunk)] ++ evs1
                      ++ [EvSleep openAiChunkDelay])
                     w (emit [EvSleep openAiChunkDelay] w1)).
    { split; [done|]. split.
      { cbn [trace emit]. by rewrite Ht1, <- !app_assoc. }
      split; [done|]. split; [done|]. split; [done|].
      rewrite !openAiPosts_app, !sinkWrites_app, Hq1, Hw1. simpl.
      by rewrite app_nil_r. }
    exists (calls1 ++ calls2),
      (([EvChunk (length chunk)] ++ evs1 ++ [EvSleep openAiChunkDelay])
       ++ evs2).
    split.
    { rewrite (slice_drop rows i openAiChunkSize).
      exact (served_app _ _ _ _ _ _ _ _ _ _ Hs1' Hs2). }
    rewrite !pauses_app, !chunkSizes_app, !length_app, Hp1, Hc1, Hp2.
    unfold pauses. simpl. lia.
  - unfold mret, M_ret. intros ?; simplify_eq. exists [], [].
    rewrite drop_ge by lia. split; [apply served_refl|done].
Qed.

Lemma callLinks_elem m rows link :
  link ∈ callLinks m rows →
  ∃ row, row ∈ rows ∧ needsCall m row = true ∧ resolve m row = Some link.
Proof.
  unfold callLinks. intros (row & Hin & Hrow)%list_elem_of_omap.
  exists row. split; [done|].
  destruct (needsCall m row); [done|discriminate Hrow].
Qed.

Lemma callPosts_elem calls link :
  link ∈ mjoin (callPosts <$> calls) → link ∈ callLink <$> calls.
Proof.
  induction calls as [|c calls IH]; [done|].
  rewrite !fmap_cons, mjoin_cons.
  intros [Hin|Hin]%elem_of_app.
  - unfold callPosts in Hin. apply elem_of_replicate in Hin as [-> _].
    apply elem_of_cons. by left.
  - apply elem_of_cons. right. by apply IH.
Qed.

(** X9: rows that do not resolve.  A row whose file name is missing, empty
    or white space only does not resolve, whatever the store.  When the
    rows of a chunk that starts at index [i] have been processed, every
    row that does not resolve is as it was; the warnings are one for each
    row that does not resolve, in row order, and none for the other rows;
    every warning carries the row number [i + 1], the number of the first
    row of the chunk; and every request to the generation API was made
    with what a row of the chunk resolves to, so none was made for a row
    that does not resolve. *)
Theorem forEachRow_unresolved_rows
    (i : nat) (chunk : list Row) (w w' : World) (chunk' : list RowObject)
    (Hrun : forEachRow i (rowObject <$> chunk) w = Returns chunk' w') :
  (∀ (m : Store) (row : Row),
     (row !! "File Name" = None
      ∨ ∃ s, row !! "File Name" = Some s ∧ allWhiteSpace s = true) →
     resolve m (rowObject row) = None)
  ∧ (∀ k row, chunk !! k = Some row →
       resolve (shopifyFiles w) (rowObject row) = None →
       chunk' !! k = Some (rowObject row))
  ∧ ∃ evs,
      trace w' = trace w ++ evs
      ∧ warnings evs
        = omap (λ row, rowWarning (shopifyFiles w) i (rowObject row)) chunk
      ∧ (∀ row, is_Some (rowWarning (shopifyFiles w) i (rowObject row))
                ↔ resolve (shopifyFiles w) (rowObject row) = None)
      ∧ Forall (λ x, x = NoFileName (i + 1) ∨ ∃ f, x = NoMatch (i + 1) f)
          (warnings evs)
      ∧ Forall (λ link, ∃ row, row ∈ chunk
                               ∧ resolve (shopifyFiles w) (rowObject row)
                                 = Some link)
          (openAiPosts evs).
Proof.
  split.
  { intros m row [Hnone|(s & Hs & Hblank)]; unfold resolve;
      rewrite rowObject_fileNameField.
    - by rewrite Hnone.
    - rewrite Hs. simpl. by rewrite trim_allWhiteSpace. }
  pose proof (rowObjects_namedByString chunk) as Hnamed.
  split.
  { intros k row Hk Hres.
    pose proof (forEachRow_outcome i (rowObject <$> chunk) w Hnamed) as Hout.
    rewrite Hrun in Hout. destruct Hout as (_ & _ & _ & Hall & _).
    assert (Hk' : (rowObject <$> chunk) !! k = Some (rowObject row))
      by (by rewrite list_lookup_fmap, Hk).
    destruct (Forall2_lookup_l _ _ _ _ _ Hall Hk') as (row' & -> & Henr).
    f_equal. destruct Henr; [done|congruence..]. }
  destruct (forEachRow_served _ _ _ _ _ Hnamed Hrun)
    as (calls & evs & Hserved & Hwarn & _ & _).
  destruct Hserved as (_ & Ht & _ & _ & Hlinks & Hposts & _).
  exists evs. split; [done|].
  assert (Hwarn' : warnings evs
            = omap (λ row, rowWarning (shopifyFiles w) i (rowObject row))
                chunk).
  { rewrite Hwarn. clear. induction chunk as [|row chunk IH]; [done|].
    rewrite fmap_cons. cbn [omap list_omap]. by rewrite IH. }
  split; [done|]. split; [intros row; apply rowWarning_resolve|].
  split.
  - rewrite Hwarn'. apply Forall_forall.
    intros x (row & _ & Hx)%list_elem_of_omap.
    unfold rowWarning in Hx.
    destruct (nonEmpty _) as [f|]; [|left; congruence].
    destruct (matchFile _ f); [done|]. right. exists f. congruence.
  - apply Forall_forall. intros link Hin.
    rewrite Hposts in Hin. apply callPosts_elem in Hin.
    rewrite Hlinks in Hin.
    apply callLinks_elem in Hin as (row' & Hrow' & _ & Hres).
    apply list_elem_of_fmap in Hrow' as (row & -> & Hrow).
    by exists row.
Qed.

Lemma forEachRow_unresolved_rows_witness :
  ∃ evs,
    trace (finalWorld
             (forEachRow 30
                (rowObject <$> [ {[ "ID" := "1" ]};
                                 {[ "File Name" := "shoe.jpg";
                                    "Alt Text" := "A shoe" ]};
                                 {[ "File Name" := "hat.png" ]} ])
                (setShopifyFiles shoeIndex world0)))
    = trace (setShopifyFiles shoeIndex world0) ++ evs
    ∧ warnings evs = [NoFileName 31; NoMatch 31 "hat.png"].
Proof.
  destruct (forEachRow_unresolved_rows 30
              [ {[ "ID" := "1" ]};
                {[ "File Name" := "shoe.jpg"; "Alt Text" := "A shoe" ]};
                {[ "File Name" := "hat.png" ]} ]
              (setShopifyFiles shoeIndex world0)
              (finalWorld
                 (forEachRow 30
                    (rowObject <$> [ {[ "ID" := "1" ]};
                                     {[ "File Name" := "shoe.jpg";
                                        "Alt Text" := "A shoe" ]};
                                     {[ "File Name" := "hat.png" ]} ])
                    (setShopifyFiles shoeIndex world0)))
              (settle shoeIndex
                 <$> (rowObject <$> [ {[ "ID" := "1" ]};
                                      {[ "File Name" := "shoe.jpg";
                                         "Alt Text" := "A shoe" ]};
                                      {[ "File Name" := "hat.png" ]} ])))
    as (_ & _ & evs & Htrace & Hwarn & _).
  - vm_compute. reflexivity.
  - exists evs. split; [exact Htrace|]. rewrite Hwarn. vm_compute.
    reflexivity.
Defined.

(** X12: generation calls and pauses of a batch.  When [processBatch]
    completes, the generation API has served exactly one call for each row
    that resolves and has no alt text, in row order, and none for the
    other rows: the replies read are, call after call, the rate limits the
    call met and the reply that ended it, and the requests made are, call
    after call, one for each of these replies, all with what the row
    resolves to.  The engine has paused [openAiChunkDelay] milliseconds
    once for each chunk, also after the last one. *)
Theorem processBatch_calls_and_pauses (rows : list Row) (w w' : World)
    (Hrun : processBatch (rowObject <$> rows) w = Returns tt w') :
  ∃ calls evs,
    trace w' = trace w ++ evs
    ∧ openAiApi w = mjoin (callReplies <$> calls) ++ openAiApi w'
    ∧ Forall (λ c, isTerminal (callReply c) = true) calls
    ∧ callLink <$> calls = callLinks (shopifyFiles w) (rowObject <$> rows)
    ∧ openAiPosts evs = mjoin (callPosts <$> calls)
    ∧ pauses evs = length (sliceLengths openAiChunkSize (length rows))
    ∧ chunkSizes evs = sliceLengths openAiChunkSize (length rows).
Proof.
  pose proof (rowObjects_namedByString rows) as Hnamed.
  pose proof (processBatch_outcome (rowObject <$> rows) w Hnamed) as Hout.
  rewrite Hrun, length_fmap in Hout.
  destruct Hout as (rows0 & evs0 & script0 & Hw' & _ & _ & Hc0 & _).
  rewrite (sliceSizes_closed _ _ _ openAiChunkSize_pos) in Hc0 by lia.
  assert (Ht0 : trace w' = trace w ++ evs0) by (by rewrite Hw').
  clear Hw'.
  unfold processBatch in Hrun.
  apply bind_Returns_inv in Hrun as (rows' & w1 & Hloop & Hlog).
  rewrite log_run in Hlog.
  apply chunkLoop_served in Hloop as (calls & evs & Hserved & Hp);
    [|by rewrite drop_0].
  rewrite drop_0 in Hserved.
  destruct Hserved as (Hf & Ht & Ha & Hk & Hl & Hq & Hs).
  assert (Hw' : w' = emit [EvWriteRecords (withoutUpdatedLink <$> rows')] w1)
    by congruence.
  assert (Hevs0 : evs0 = evs ++ [EvWriteRecords (withoutUpdatedLink <$> rows')]).
  { rewrite Hw' in Ht0. simpl in Ht0. rewrite Ht, <- app_assoc in Ht0.
    by apply app_inv_head in Ht0. }
  exists calls, evs0. split; [done|].
  split; [by rewrite Hw'|]. split; [done|]. split; [done|].
  split; [|split; [|done]].
  - rewrite Hevs0, openAiPosts_app, Hq. simpl. by rewrite app_nil_r.
  - rewrite <- Hc0. rewrite Hevs0, pauses_app, chunkSizes_app, length_app, Hp.
    unfold pauses. simpl. lia.
Qed.

Lemma processBatch_calls_and_pauses_witness :
  ∃ calls evs,
    trace (finalWorld (processBatch (rowObject <$> [shoeProductRow])
             (setOpenAiApi [rateLimitExceeded; shoeReply]
                (setShopifyFiles shoeIndex world0))))
    = trace (setOpenAiApi [rateLimitExceeded; shoeReply]
               (setShopifyFiles shoeIndex world0)) ++ evs
    ∧ callLink <$> calls = [Str "https://cdn.example/files/shoe.jpg?v=1"]
    ∧ openAiPosts evs = mjoin (callPosts <$> calls)
    ∧ pauses evs = 1.
Proof.
  destruct (processBatch_calls_and_pauses [shoeProductRow]
              (setOpenAiApi [rateLimitExceeded; shoeReply]
                 (setShopifyFiles shoeIndex world0))
              (finalWorld (processBatch (rowObject <$> [shoeProductRow])
                 (setOpenAiApi [rateLimitExceeded; shoeReply]
                    (setShopifyFiles shoeIndex world0)))))
    as (calls & evs & Ht & _ & _ & Hl & Hq & Hp & _).
  - vm_compute. reflexivity.
  - exists calls, evs. split; [exact Ht|]. split; [|split; [exact Hq|]].
    + rewrite Hl. vm_compute. reflexivity.
    + rewrite Hp. reflexivity.
Defined.

(** ** The cursor behind a page without images *)

Lemma imageCursor_unusable es endCursor :
  Forall (λ e, nonEmpty (node e) = None) es →
  imageCursor endCursor es = endCursor.
Proof.
  unfold imageCursor. induction 1 as [|e es He _ IH]; [done|].
  simpl. by rewrite He.
Qed.

Lemma requestCursors_pair c ds k d d' endCursor :
  ds !! k = Some d → ds !! S k = Some d' →
  ∃ cur, requestCursors c endCursor ds !! k = Some (afterArg cur)
         ∧ requestCursors c endCursor ds !! S k
           = Some (afterArg (pageCursor c cur d)).
Proof.
  revert k endCursor. induction ds as [|d0 ds IH]; intros k endCursor; [done|].
  destruct k as [|k]; simpl.
  - intros ? Hd'; simplify_eq. destruct ds as [|d1 ds]; [done|]. simpl.
    eauto.
  - intros Hd Hd'. apply (IH k _ Hd Hd').
Qed.

(** X13: in a sweep over files or collections, a page on which no edge has
    a usable URL does not move the cursor: the request that follows it
    carries the same [after:] argument as the request that fetched it. *)
Theorem fetchImages_cursor_stays_on_page_without_urls
    (c : category) (ds : list gql_data) (rest : list shopify_reply) (w : World)
    (k : nat) (d d' : gql_data)
    (Hcache : cacheFile w ≠ Some Malformed)
    (Hdrained : drained c ds)
    (Hapi : shopifyApi w = (ShopifyOk <$> ds) ++ rest)
    (Hpage : ds !! k = Some d) (Hnext : ds !! S k = Some d')
    (Himages : c ≠ Products)
    (Hunusable : Forall (λ e, nonEmpty (node e) = None)
                   (edgesOf (imagePage c d))) :
  ∃ evs w',
    fetchImages c w = Returns tt w'
    ∧ trace w' = trace w ++ evs
    ∧ is_Some (shopifyPosts evs !! k)
    ∧ shopifyPosts evs !! S k = shopifyPosts evs !! k.
Proof.
  eexists _, _. split; [by apply fetchImages_drained|].
  split; [reflexivity|].
  rewrite shopifyPosts_app, sweepEvents_posts. simpl. rewrite app_nil_r.
  destruct (requestCursors_pair c ds k d d' None Hpage Hnext)
    as (cur & Hk & HSk).
  rewrite !list_lookup_fmap, Hk, HSk. simpl. split; [eauto|].
  do 3 f_equal. destruct c; simpl in *; [..|done];
    by apply imageCursor_unusable.
Qed.

Lemma fetchImages_cursor_stays_on_page_without_urls_witness :
  ∃ evs w',
    fetchContentImages
      (setShopifyApi
         (ShopifyOk <$>
            [mkData (Some (mkConnection [mkEdge "v1" None; mkEdge "v2" None]
                             true)) None None;
             mkData (Some (mkConnection [] false)) None None]) world0)
    = Returns tt w'
    ∧ trace w' = [] ++ evs
    ∧ shopifyPosts evs !! 1 = shopifyPosts evs !! 0.
Proof.
  destruct (fetchImages_cursor_stays_on_page_without_urls Files
              [mkData (Some (mkConnection [mkEdge "v1" None; mkEdge "v2" None]
                               true)) None None;
               mkData (Some (mkConnection [] false)) None None] []
              (setShopifyApi
                 (ShopifyOk <$>
                    [mkData (Some (mkConnection
                               [mkEdge "v1" None; mkEdge "v2" None] true))
                       None None;
                     mkData (Some (mkConnection [] false)) None None]) world0)
              0 _ _ ltac:(discriminate) ltac:(split; reflexivity) eq_refl
              eq_refl eq_refl ltac:(discriminate))
    as (evs & w' & Hrun & Htrace & _ & Hsame).
  - by repeat constructor.
  - exists evs, w'. split; [exact Hrun|]. split; [exact Htrace|exact Hsame].
Defined.

(** ** What a generation call returns *)


(** ** The whole run without a cache file *)

(** X15: a run without a cache file whose build completes.  When there is
    no cache file, the build returns and the generation API has a reply
    other than a rate limit for each row, [main] returns: everything the
    builder did comes first and contains no generation request and no write
    to the sink; what follows contains no request to the source API and no
    write of the cache file; the rows are enriched against the store the
    build left, which is also the content of the cache file at the end. *)
Theorem main_builds_then_enriches (input : list Row) (w w1 : World)
    (Hcache : cacheFile w = None)
    (Hbuilt : fetchShopifyFiles w = Returns tt w1)
    (Hreplies : length input ≤ terminals (openAiApi w)) :
  ∃ evs1 evs2 w',
    main input w = Returns tt w'
    ∧ trace w1 = trace w ++ evs1
    ∧ trace w' = trace w1 ++ evs2
    ∧ openAiPosts evs1 = [] ∧ sinkWrites evs1 = []
    ∧ shopifyPosts evs2 = [] ∧ cacheWrites evs2 = []
    ∧ Forall2 (written (shopifyFiles w1)) input (mjoin (sinkWrites evs2))
    ∧ shopifyFiles w' = shopifyFiles w1
    ∧ cacheFile w' = Some (JsonObject (shopifyFiles w1)).
Proof.
  pose proof (builderFramed_fetchShopifyFiles w) as Hb.
  rewrite Hbuilt in Hb. destruct Hb as (Hoa & evs1 & Ht1 & Hev1).
  simpl in Hoa, Ht1.
  destruct (builderEvents_quiet _ Hev1) as (Hq1 & Hq2 & _).
  assert (Hsaved : cacheFile w1 = Some (JsonObject (shopifyFiles w1))).
  { unfold fetchShopifyFiles in Hbuilt.
    apply bind_Returns_inv in Hbuilt as (_ & wa & _ & Hbuilt).
    apply bind_Returns_inv in Hbuilt as (_ & wb & _ & Hbuilt).
    apply bind_Returns_inv in Hbuilt as ([] & wc & _ & Hbuilt).
    by apply fetchImages_returns_saved in Hbuilt. }
  pose proof (engineFramed_batchLoop (S (length input)) 0
                (rowObject <$> input) w1) as He.
  pose proof (batchLoop_outcome (S (length input)) 0 (rowObject <$> input) w1)
    as H.
  rewrite length_fmap in H.
  specialize (H ltac:(lia) (rowObjects_namedByString input)).
  assert (Hmain : main input w = processCsv input w1).
  { unfold main, loadOrFetch. rewrite !bind_run. unfold getWorld.
    cbv beta iota. by rewrite Hcache, Hbuilt. }
  unfold processCsv in Hmain.
  destruct (batchLoop _ _ _ _) as [[] w'| |]; [|done|rewrite Hoa in H; lia].
  destruct H as (outs & evs & script' & -> & Hall & _ & Hs & _ & _).
  destruct He as (Hcf & Hsf & _ & evs2 & Ht2 & Hev2).
  simpl in Hcf, Hsf, Ht2. apply app_inv_head in Ht2 as <-.
  destruct (engineEvents_quiet _ Hev2) as [Hq3 Hq4].
  exists evs1, evs, (emit evs (setOpenAiApi script' w1)).
  split; [done|]. split; [done|]. split; [done|].
  split; [done|]. split; [done|]. split; [done|]. split; [done|].
  split.
  { rewrite Hs. apply written_batches. by rewrite drop_0 in Hall. }
  split; [done|]. simpl. exact Hsaved.
Qed.

Lemma main_builds_then_enriches_witness :
  ∃ evs2 w',
    main [shoeProductRow] (setOpenAiApi [shoeReply] shoeWorld)
    = Returns tt w'
    ∧ trace w'
      = trace (finalWorld
                 (fetchShopifyFiles (setOpenAiApi [shoeReply] shoeWorld)))
        ++ evs2
    ∧ shopifyPosts evs2 = [].
Proof.
  destruct (main_builds_then_enriches [shoeProductRow]
              (setOpenAiApi [shoeReply] shoeWorld)
              (finalWorld
                 (fetchShopifyFiles (setOpenAiApi [shoeReply] shoeWorld))))
    as (evs1 & evs2 & w' & Hrun & _ & Ht & _ & _ & Hq & _).
  - reflexivity.
  - vm_compute. reflexivity.
  - vm_compute. lia.
  - exists evs2, w'. split; [exact Hrun|]. split; [exact Ht|exact Hq].
Defined.
